(** * Circuit-Theory: the topology-to-equations pipeline

    A shallow embedding of [engine/phases/graph_builder.py],
    [tree_selector.py], [matrix_generator.py], [equation_builder.py], of
    the loops of [time_domain.py] and [visualizer.py] and of the
    orchestrator [engine/solver.py], followed by the properties of the
    specification that concern them and by further properties of the code.

    Conventions.
    - A Python [dict] is an association list in insertion order; assigning
      to an existing key keeps its position, as in Python.
    - A Python exception is the [Raise] case of [result]; a function that
      returns a [(value, error)] tuple returns a pair of options.
    - Numbers are exact rationals ([Qc]): float64 rounding is not modelled.
    - The three libraries the code calls are modelled by what they
      compute: networkx ([MultiGraph], [is_connected],
      [minimum_spanning_edges]), numpy (dense arrays with an explicit
      shape, [linalg_inv]) and sympy (expressions as they are built by the
      arithmetic operators, with a denotation [eval]). *)

From Stdlib Require Import String Ascii List Arith Bool Lia.
From Stdlib Require Import QArith Qcanon Permutation Sorted.
Import ListNotations.

Open Scope string_scope.
Open Scope list_scope.
Open Scope nat_scope.

(** ** Python values *)

Inductive exn : Type :=
| KeyError (key : string)
| IndexError
| ValueError
| AttributeError
| TypeError
| NetworkXPointlessConcept
| LinAlgError (msg : string).

Inductive result (A : Type) : Type :=
| Ok (a : A)
| Raise (e : exn).

Arguments Ok {A} a.
Arguments Raise {A} e.

Definition bind {A B : Type} (r : result A) (k : A -> result B) : result B :=
  match r with
  | Ok a => k a
  | Raise e => Raise e
  end.

Notation "x <- r ;; k" := (bind r (fun x => k))
  (at level 61, r at next level, right associativity).

(** The error dictionary [{"status": "error", "message": ...}]. *)
Record error_dict : Type := mkError { status : string; message : string }.

(** Insertion-ordered dictionaries with string keys. *)
Section Dict.
Context {V : Type}.

Fixpoint dict_get (k : string) (d : list (string * V)) : option V :=
  match d with
  | [] => None
  | (k', v) :: d' => if String.eqb k k' then Some v else dict_get k d'
  end.

Fixpoint dict_set (k : string) (v : V) (d : list (string * V))
  : list (string * V) :=
  match d with
  | [] => [(k, v)]
  | (k', v') :: d' =>
      if String.eqb k k' then (k', v) :: d' else (k', v') :: dict_set k v d'
  end.

Definition dict_mem (k : string) (d : list (string * V)) : bool :=
  match dict_get k d with Some _ => true | None => false end.
End Dict.

Definition mem (x : string) (l : list string) : bool :=
  if in_dec string_dec x l then true else false.

(** ** Circuit data *)

Record branch : Type := mkBranch {
  b_id : string;
  b_from : string;
  b_to : string;
  b_type : string;
  b_value : Qc
}.

Record circuit : Type := mkCircuit {
  c_nodes : list string;
  c_branches : list branch
}.

(** ** networkx: [MultiGraph] *)

(** The data dictionary of an edge: the keys ['type'] and ['value'] set by
    [add_edge], and ['weight'] once [select_tree] has written it. *)
Record attrs : Type := mkAttrs {
  a_type : string;
  a_value : Qc;
  a_weight : option nat
}.

Definition keydict : Type := list (string * attrs).
Definition nbrdict : Type := list (string * keydict).

(** [G._adj]: node -> neighbour -> key -> data.  [G._node] has the same
    keys in the same order.  In networkx [G._adj[u][v]] and [G._adj[v][u]]
    are one shared object; here they are two copies that every update
    writes together. *)
Definition MultiGraph : Type := list (string * nbrdict).

Definition nodes_of (G : MultiGraph) : list string := map fst G.

Definition adj (G : MultiGraph) (u : string) : nbrdict :=
  match dict_get u G with Some nb => nb | None => [] end.

Definition add_node (n : string) (G : MultiGraph) : MultiGraph :=
  if dict_mem n G then G else G ++ [(n, [])].

Definition add_nodes_from (ns : list string) (G : MultiGraph) : MultiGraph :=
  fold_left (fun g n => add_node n g) ns G.

(** [G._adj[u][v] = kd]. *)
Definition set_keydict (u v : string) (kd : keydict) (G : MultiGraph)
  : MultiGraph :=
  dict_set u (dict_set v kd (adj G u)) G.

(** [G.add_edge(u, v, key=key, type=ty, value=val)]. *)
Definition add_edge (u v key ty : string) (val : Qc) (G : MultiGraph)
  : MultiGraph :=
  let G := add_node v (add_node u G) in
  let kd :=
    match dict_get v (adj G u) with
    | Some keydict =>
        let datadict :=
          match dict_get key keydict with
          | Some d => mkAttrs ty val (a_weight d)
          | None => mkAttrs ty val None
          end in
        dict_set key datadict keydict
    | None => [(key, mkAttrs ty val None)]
    end in
  set_keydict v u kd (set_keydict u v kd G).

Record edge : Type := mkEdge {
  e_u : string;
  e_v : string;
  e_key : string;
  e_data : attrs
}.

(** [G.edges(keys=True, data=True)]: for every node in order, for every
    neighbour not yet visited as a node, for every key. *)
Fixpoint edges_from (seen : list string) (G : MultiGraph) : list edge :=
  match G with
  | [] => []
  | (n, nbrs) :: G' =>
      flat_map (fun '(nbr, kd) =>
                  if mem nbr seen then []
                  else map (fun '(k, d) => mkEdge n nbr k d) kd) nbrs
      ++ edges_from (n :: seen) G'
  end.

Definition edges (G : MultiGraph) : list edge := edges_from [] G.

(** ** networkx: [is_connected] *)

Definition neighbors (G : MultiGraph) (v : string) : list string :=
  map fst (adj G v).

(** The inner loop of [_plain_bfs]: [for w in adj[v]: if w not in seen]. *)
Fixpoint visit_nbrs (ws seen next : list string) : list string * list string :=
  match ws with
  | [] => (seen, next)
  | w :: ws' =>
      if mem w seen then visit_nbrs ws' seen next
      else visit_nbrs ws' (w :: seen) (next ++ [w])
  end.

Fixpoint visit_level (G : MultiGraph) (level seen next : list string)
  : list string * list string :=
  match level with
  | [] => (seen, next)
  | v :: level' =>
      let (seen', next') := visit_nbrs (neighbors G v) seen next in
      visit_level G level' seen' next'
  end.

(** [while nextlevel: ...]; a level is never empty and never repeats a
    node, so [length G] rounds are enough (see [bfs_levels_closed]). *)
Fixpoint bfs_levels (fuel : nat) (G : MultiGraph) (seen level : list string)
  : list string :=
  match fuel with
  | O => seen
  | S fuel' =>
      match level with
      | [] => seen
      | _ :: _ =>
          let (seen', next) := visit_level G level seen [] in
          bfs_levels fuel' G seen' next
      end
  end.

Definition plain_bfs (G : MultiGraph) (source : string) : list string :=
  bfs_levels (length G) G [source] [source].

Definition is_connected (G : MultiGraph) : result bool :=
  match G with
  | [] => Raise NetworkXPointlessConcept
  | (n0, _) :: _ => Ok (Nat.eqb (length (plain_bfs G n0)) (length G))
  end.

(** ** networkx: [minimum_spanning_edges] (Kruskal) *)

(** [UnionFind], as the partition it stands for: every element is mapped to
    the representative of its set.  [subtrees[u]] is the application,
    [subtrees.union(u, v)] moves the set of [v] into the set of [u]. *)
Definition UnionFind : Type := string -> string.

Definition uf_init : UnionFind := fun x => x.

Definition uf_union (uf : UnionFind) (u v : string) : UnionFind :=
  fun x => if String.eqb (uf x) (uf v) then uf u else uf x.

(** [d.get(weight, 1)]. *)
Definition edge_weight (e : edge) : nat :=
  match a_weight (e_data e) with Some w => w | None => 1 end.

(** [sorted(open_edges, key=itemgetter(0))]: a stable sort on the weight. *)
Fixpoint insert_by_weight (e : edge) (l : list edge) : list edge :=
  match l with
  | [] => [e]
  | x :: l' =>
      if Nat.leb (edge_weight e) (edge_weight x) then e :: l
      else x :: insert_by_weight e l'
  end.

Definition sorted_by_weight (l : list edge) : list edge :=
  fold_right insert_by_weight [] l.

Fixpoint kruskal_loop (subtrees : UnionFind) (sorted_edges : list edge)
  : list edge :=
  match sorted_edges with
  | [] => []
  | e :: es =>
      if String.eqb (subtrees (e_u e)) (subtrees (e_v e))
      then kruskal_loop subtrees es
      else e :: kruskal_loop (uf_union subtrees (e_u e) (e_v e)) es
  end.

Definition minimum_spanning_edges (G : MultiGraph) : list edge :=
  kruskal_loop uf_init (sorted_by_weight (edges G)).

(** ** Phase 1: [build_graph] *)

Definition unconnected_message : string :=
  "Circuit is not connected. All nodes must form a connected graph with node '0' as reference.".

Definition graph_of (cd : circuit) : MultiGraph :=
  fold_left
    (fun g b => add_edge (b_from b) (b_to b) (b_id b) (b_type b) (b_value b) g)
    (c_branches cd)
    (add_nodes_from (c_nodes cd) []).

Definition build_graph (cd : circuit)
  : result (option MultiGraph * option error_dict) :=
  let G := graph_of cd in
  connected <- is_connected G ;;
  if negb connected
  then Ok (None, Some (mkError "error" unconnected_message))
  else Ok (Some G, None).

(** ** Phase 2: [select_tree] *)

Definition weight_of_type (ty : string) : nat :=
  if String.eqb ty "V" then 0
  else if String.eqb ty "I" then 100
  else 1.

Definition set_weight_at (u v k : string) (w : nat) (G : MultiGraph)
  : MultiGraph :=
  match dict_get v (adj G u) with
  | Some kd =>
      match dict_get k kd with
      | Some d =>
          set_keydict u v
            (dict_set k (mkAttrs (a_type d) (a_value d) (Some w)) kd) G
      | None => G
      end
  | None => G
  end.

(** [graph[u][v][k]['weight'] = w]; the data dictionary is shared by
    [graph[u][v]] and [graph[v][u]]. *)
Definition set_weight (u v k : string) (w : nat) (G : MultiGraph)
  : MultiGraph :=
  set_weight_at v u k w (set_weight_at u v k w G).

Definition assign_weights (graph : MultiGraph) : MultiGraph :=
  fold_left
    (fun g e =>
       set_weight (e_u e) (e_v e) (e_key e)
                  (weight_of_type (a_type (e_data e))) g)
    (edges graph) graph.

(** [select_tree] writes the weights into [graph]: the graph is returned
    with the result. *)
Definition select_tree (graph : MultiGraph) (branches : list branch)
  : MultiGraph * (list branch * list branch * list branch) :=
  let graph' := assign_weights graph in
  let mst_edges := minimum_spanning_edges graph' in
  let tree_branch_ids := map e_key mst_edges in
  let twigs := filter (fun b => mem (b_id b) tree_branch_ids) branches in
  let links := filter (fun b => negb (mem (b_id b) tree_branch_ids)) branches in
  let sorted_branches := twigs ++ links in
  (graph', (twigs, links, sorted_branches)).

(** ** numpy: dense two-dimensional arrays *)

(** An array of shape [(nrows, ncols)], stored by rows.  The shape is kept
    apart from the cells: an array with no row still has a column count. *)
Record ndarray : Type := mkArray {
  nrows : nat;
  ncols : nat;
  cells : list (list Qc)
}.

Definition get (A : ndarray) (i j : nat) : Qc :=
  nth j (nth i (cells A) []) (Q2Qc 0).

(** [A[i, j]] *)
Definition getitem (A : ndarray) (i j : nat) : result Qc :=
  if (i <? nrows A)%nat && (j <? ncols A)%nat then Ok (get A i j)
  else Raise IndexError.

Fixpoint update_nth {T : Type} (i : nat) (f : T -> T) (l : list T) : list T :=
  match l, i with
  | [], _ => []
  | x :: l', O => f x :: l'
  | x :: l', S i' => x :: update_nth i' f l'
  end.

(** [A[i, j] = x] *)
Definition setitem (A : ndarray) (i j : nat) (x : Qc) : result ndarray :=
  if (i <? nrows A)%nat && (j <? ncols A)%nat
  then Ok (mkArray (nrows A) (ncols A)
                   (update_nth i (update_nth j (fun _ => x)) (cells A)))
  else Raise IndexError.

Fixpoint map2 {X Y Z : Type} (f : X -> Y -> Z) (l1 : list X) (l2 : list Y)
  : list Z :=
  match l1, l2 with
  | x :: l1', y :: l2' => f x y :: map2 f l1' l2'
  | _, _ => []
  end.

Definition zeros (n m : nat) : ndarray :=
  mkArray n m (repeat (repeat (Q2Qc 0) m) n).

Definition delta (i j : nat) : Qc := if Nat.eqb i j then 1%Qc else Q2Qc 0.

Definition eye (n : nat) : ndarray :=
  mkArray n n (map (fun i => map (delta i) (seq 0 n)) (seq 0 n)).

(** [np.delete(A, r, axis=0)] *)
Definition delete_row (A : ndarray) (r : nat) : result ndarray :=
  if (r <? nrows A)%nat
  then Ok (mkArray (nrows A - 1)%nat (ncols A)
                   (firstn r (cells A) ++ skipn (S r) (cells A)))
  else Raise IndexError.

(** [A[:, :k]] and [A[:, k:]]; a slice is clipped to the shape. *)
Definition cols_to (A : ndarray) (k : nat) : ndarray :=
  mkArray (nrows A) (Nat.min k (ncols A)) (map (firstn k) (cells A)).

Definition cols_from (A : ndarray) (k : nat) : ndarray :=
  mkArray (nrows A) (ncols A - k)%nat (map (skipn k) (cells A)).

Definition column (A : ndarray) (j : nat) : list Qc :=
  map (fun r => nth j r (Q2Qc 0)) (cells A).

(** [A.T] *)
Definition transpose (A : ndarray) : ndarray :=
  mkArray (ncols A) (nrows A) (map (column A) (seq 0 (ncols A))).

(** [-A] *)
Definition neg (A : ndarray) : ndarray :=
  mkArray (nrows A) (ncols A) (map (map Qcopp) (cells A)).

Fixpoint dotv (r c : list Qc) : Qc :=
  match r, c with
  | x :: r', y :: c' => (x * y + dotv r' c')%Qc
  | _, _ => Q2Qc 0
  end.

(** [np.dot(A, B)] *)
Definition dot (A B : ndarray) : result ndarray :=
  if Nat.eqb (ncols A) (nrows B)
  then Ok (mkArray (nrows A) (ncols B)
             (map (fun r => map (fun j => dotv r (column B j))
                                (seq 0 (ncols B)))
                  (cells A)))
  else Raise ValueError.

(** [np.hstack((A, B))] *)
Definition hstack (A B : ndarray) : result ndarray :=
  if Nat.eqb (nrows A) (nrows B)
  then Ok (mkArray (nrows A) (ncols A + ncols B)%nat
                   (map2 (@app Qc) (cells A) (cells B)))
  else Raise ValueError.

(** ** numpy: [np.linalg.inv]

    The inverse by Gauss-Jordan elimination on the rows of [[A | I]], in
    exact arithmetic.  LAPACK factorises with partial pivoting instead; the
    inverse of a matrix is unique and a singular matrix has none, so in
    exact arithmetic both return the same array or fail together
    ([linalg_inv_correct], [linalg_inv_singular]). *)

Definition vscale (k : Qc) (r : list Qc) : list Qc := map (Qcmult k) r.
Definition vsub (r p : list Qc) : list Qc := map2 Qcminus r p.

(** [r - r[c] * p] *)
Definition eliminate (c : nat) (p r : list Qc) : list Qc :=
  vsub r (vscale (nth c r (Q2Qc 0)) p).

(** The first row with a non-zero entry in column [c], and the rows
    before and after it. *)
Fixpoint find_pivot (c : nat) (todo : list (list Qc))
  : option (list (list Qc) * list Qc * list (list Qc)) :=
  match todo with
  | [] => None
  | r :: rest =>
      if Qc_eq_bool (nth c r (Q2Qc 0)) (Q2Qc 0)
      then match find_pivot c rest with
           | Some (before, p, after) => Some (r :: before, p, after)
           | None => None
           end
      else Some ([], r, rest)
  end.

(** [done] holds the rows that have been pivots, in column order; [todo]
    the others.  One step per column. *)
Fixpoint gauss_jordan (steps c : nat) (done todo : list (list Qc))
  : option (list (list Qc)) :=
  match steps with
  | O => Some done
  | S steps' =>
      match find_pivot c todo with
      | None => None
      | Some (before, p, after) =>
          let p' := vscale (/ nth c p (Q2Qc 0))%Qc p in
          gauss_jordan steps' (S c)
                       (map (eliminate c p') done ++ [p'])
                       (map (eliminate c p') (before ++ after))
      end
  end.

Definition linalg_inv (A : ndarray) : result ndarray :=
  if Nat.eqb (nrows A) (ncols A)
  then
    let n := nrows A in
    match gauss_jordan n 0 [] (map2 (@app Qc) (cells A) (cells (eye n))) with
    | Some done => Ok (mkArray n n (map (skipn n) done))
    | None => Raise (LinAlgError "Singular matrix")
    end
  else Raise (LinAlgError "Last 2 dimensions of the array must be square").

(** ** Phase 3: matrices *)

(** [{n: i for i, n in enumerate(xs)}]: a later duplicate overwrites. *)
Definition index_map (xs : list string) : list (string * nat) :=
  fold_left (fun d '(i, x) => dict_set x i d)
            (combine (seq 0 (length xs)) xs) [].

Definition lookup (d : list (string * nat)) (k : string) : result nat :=
  match dict_get k d with
  | Some i => Ok i
  | None => Raise (KeyError k)
  end.

Definition fill_branch (node_map branch_map : list (string * nat))
  (A_full : ndarray) (b : branch) : result ndarray :=
  b_idx <- lookup branch_map (b_id b) ;;
  u_idx <- lookup node_map (b_from b) ;;
  v_idx <- lookup node_map (b_to b) ;;
  A1 <- setitem A_full u_idx b_idx 1%Qc ;;
  setitem A1 v_idx b_idx (- (1))%Qc.

Fixpoint fill_branches (node_map branch_map : list (string * nat))
  (A_full : ndarray) (bs : list branch) : result ndarray :=
  match bs with
  | [] => Ok A_full
  | b :: bs' =>
      A1 <- fill_branch node_map branch_map A_full b ;;
      fill_branches node_map branch_map A1 bs'
  end.

(** The [graph] argument is not used by the source. *)
Definition get_incidence_matrix (graph : MultiGraph) (nodes : list string)
  (branches : list branch) : result (ndarray * ndarray * nat) :=
  let node_map := index_map nodes in
  let branch_map := index_map (map b_id branches) in
  let n_nodes := length nodes in
  let n_branches := length branches in
  A_full <- fill_branches node_map branch_map (zeros n_nodes n_branches)
                          branches ;;
  (* [node_map.get('0', n_nodes - 1)]: without any node the default is
     [-1], which [np.delete] rejects on an array that has no row. *)
  match dict_get "0" node_map, n_nodes with
  | None, O => Raise IndexError
  | Some ref_node_idx, _ | None, S ref_node_idx =>
      A_reduced <- delete_row A_full ref_node_idx ;;
      Ok (A_reduced, A_full, ref_node_idx)
  end.

Definition singular_message (details : string) : string :=
  ("Singular matrix error: Cannot invert tree submatrix. Check circuit topology. Details: "
   ++ details)%string.

Definition get_cutset_matrix (A_red : ndarray) (n_twigs n_links : nat)
  : result (option ndarray * option error_dict) :=
  let A_t := cols_to A_red n_twigs in
  let A_l := cols_from A_red n_twigs in
  match linalg_inv A_t with
  | Raise (LinAlgError e) =>
      Ok (None, Some (mkError "error" (singular_message e)))
  | Raise e => Raise e
  | Ok A_t_inv =>
      P <- dot A_t_inv A_l ;;
      let Q_l := neg P in
      Q <- hstack (eye n_twigs) Q_l ;;
      Ok (Some Q, None)
  end.

Definition get_tieset_matrix (Q_l : ndarray) (n_twigs n_links : nat)
  : result ndarray :=
  let B_t := neg (transpose Q_l) in
  hstack B_t (eye n_links).

(** ** sympy expressions *)

(** An expression is kept as the arithmetic operators of the source build
    it; sympy's rewriting into a canonical form is not modelled.  Two
    expressions are compared through [eval]. *)
Inductive expr : Type :=
| ENum (x : Qc)
| ESym (name : string)
| EAdd (a b : expr)
| ESub (a b : expr)
| EMul (a b : expr)
| EDiv (a b : expr).

Fixpoint eval (env : string -> Qc) (e : expr) : Qc :=
  match e with
  | ENum x => x
  | ESym name => env name
  | EAdd a b => (eval env a + eval env b)%Qc
  | ESub a b => (eval env a - eval env b)%Qc
  | EMul a b => (eval env a * eval env b)%Qc
  | EDiv a b => (eval env a / eval env b)%Qc
  end.

(** ** Phase 4: [build_equations] *)

Fixpoint mapM {A B : Type} (f : A -> result B) (l : list A)
  : result (list B) :=
  match l with
  | [] => Ok []
  | x :: l' => y <- f x ;; ys <- mapM f l' ;; Ok (y :: ys)
  end.

(** [eqn = 0; for j in range(n): eqn += M[i, j] * sym[j]] *)
Fixpoint row_sum (M : ndarray) (sym : list string) (i : nat) (js : list nat)
  (eqn : expr) : result expr :=
  match js with
  | [] => Ok eqn
  | j :: js' =>
      m <- getitem M i j ;;
      row_sum M sym i js' (EAdd eqn (EMul (ENum m) (ESym (nth j sym ""))))
  end.

Definition row_equation (M : ndarray) (sym : list string) (n : nat) (i : nat)
  : result expr :=
  row_sum M sym i (seq 0 n) (ENum (Q2Qc 0)).

(** The branch of the [if type_ == ...] chain taken for one branch; a type
    outside the five appends nothing. *)
Definition constitutive (V_sym I_sym : list string) (i : nat) (b : branch)
  : list expr :=
  let s := ESym "s" in
  let val := ENum (b_value b) in
  let type_ := b_type b in
  let V := ESym (nth i V_sym "") in
  let I := ESym (nth i I_sym "") in
  if String.eqb type_ "R" then [ESub V (EMul I val)]
  else if String.eqb type_ "L" then [ESub V (EMul (EMul I s) val)]
  else if String.eqb type_ "C"
       then [ESub V (EMul I (EDiv (ENum 1%Qc) (EMul s val)))]
  else if String.eqb type_ "V" then [ESub V (EDiv val s)]
  else if String.eqb type_ "I" then [ESub I (EDiv val s)]
  else [].

Definition enumerate {T : Type} (l : list T) : list (nat * T) :=
  combine (seq 0 (length l)) l.

Definition build_equations (sorted_branches : list branch) (Q B : ndarray)
  (n_twigs n_links : nat) : result (list expr * list string) :=
  let V_sym := map (fun b => ("V_" ++ b_id b)%string) sorted_branches in
  let I_sym := map (fun b => ("I_" ++ b_id b)%string) sorted_branches in
  let n := length sorted_branches in
  kcl <- mapM (row_equation Q I_sym n) (seq 0 n_twigs) ;;
  kvl <- mapM (row_equation B V_sym n) (seq 0 n_links) ;;
  let vi :=
    flat_map (fun '(i, b) => constitutive V_sym I_sym i b)
             (enumerate sorted_branches) in
  let equations := kcl ++ kvl ++ vi in
  let unknowns := V_sym ++ I_sym in
  Ok (equations, unknowns).

(** ** The orchestrator: [solve_circuit] *)

Inductive phase : Type :=
| GraphBuilder
| TreeSelector
| IncidenceMatrix
| CutsetMatrix
| TiesetMatrix
| EquationBuilder
| EquationSolver
| TimeDomain
| Visualizer.

(** A computation together with the phases it has entered, in order. *)
Definition traced (A : Type) : Type := list phase * result A.

Definition enter {A : Type} (p : phase) (r : result A) : traced A := ([p], r).

Definition tbind {A B : Type} (t : traced A) (k : A -> traced B) : traced B :=
  match t with
  | (log, Ok a) => let (log', r) := k a in (log ++ log', r)
  | (log, Raise e) => (log, Raise e)
  end.

Notation "x <~ t ;; k" := (tbind t (fun x => k))
  (at level 61, t at next level, right associativity).

Section Orchestrator.
(** Phases 5 to 7 are outside the core: symbolic solving, the inverse
    Laplace transform and plotting. *)
Variables Sol Results PlotData TimePoints Images : Type.
Variable solve_equations : list expr -> list string -> result Sol.
Variable convert_to_time_domain
  : Sol -> result (Results * PlotData * TimePoints).
Variable generate_plots : PlotData -> TimePoints -> result Images.

Inductive response : Type :=
| Failure (error : error_dict)
| Success (equations : Sol) (time_domain : Results) (plots : Images).

Definition solve_circuit (circuit_data : circuit) : traced response :=
  let nodes := c_nodes circuit_data in
  let branches := c_branches circuit_data in
  built <~ enter GraphBuilder (build_graph circuit_data) ;;
  match built with
  | (_, Some error) => ([], Ok (Failure error))
  | (None, None) => enter TreeSelector (Raise AttributeError)
  | (Some graph, None) =>
      selected <~ enter TreeSelector (Ok (select_tree graph branches)) ;;
      let '(graph, (twigs, links, sorted_branches)) := selected in
      let n_twigs := length twigs in
      let n_links := length links in
      incidence <~ enter IncidenceMatrix
                     (get_incidence_matrix graph nodes sorted_branches) ;;
      let '(A_red, A_full, ref_node) := incidence in
      cutset <~ enter CutsetMatrix
                  (get_cutset_matrix A_red n_twigs n_links) ;;
      match cutset with
      | (_, Some error) => ([], Ok (Failure error))
      | (None, None) => ([], Raise TypeError)
      | (Some Q, None) =>
          B <~ enter TiesetMatrix
                 (get_tieset_matrix (cols_from Q n_twigs) n_twigs n_links) ;;
          system <~ enter EquationBuilder
                      (build_equations sorted_branches Q B n_twigs n_links) ;;
          let '(equations, unknowns) := system in
          sol <~ enter EquationSolver (solve_equations equations unknowns) ;;
          converted <~ enter TimeDomain (convert_to_time_domain sol) ;;
          let '(results, plot_data, time_points) := converted in
          images <~ enter Visualizer
                      (generate_plots plot_data time_points) ;;
          ([], Ok (Success sol results images))
      end
  end.
End Orchestrator.

Arguments Failure {Sol Results Images} error.
Arguments Success {Sol Results Images} equations time_domain plots.

(** ** Vocabulary of the specification *)

Definition q (n : Z) (d : positive) : Qc := Q2Qc (n # d).

(** Branch [b] joins [u] and [v], in either direction. *)
Definition joins (b : branch) (u v : string) : Prop :=
  (b_from b = u /\ b_to b = v) \/ (b_from b = v /\ b_to b = u).

(** [y] is reachable from [x] along branches of [bs], taken as undirected. *)
Inductive connected_by (bs : list branch) : string -> string -> Prop :=
| conn_refl : forall x, connected_by bs x x
| conn_step : forall x y z b,
    connected_by bs x y -> In b bs -> joins b y z -> connected_by bs x z.

(** The nodes of the multigraph of a circuit: the declared ones and the
    endpoints of its branches. *)
Definition is_node (cd : circuit) (x : string) : Prop :=
  In x (c_nodes cd) \/
  exists b, In b (c_branches cd) /\ (b_from b = x \/ b_to b = x).

Definition connected_circuit (cd : circuit) : Prop :=
  forall x y, is_node cd x -> is_node cd y ->
              connected_by (c_branches cd) x y.

Definition unique_ids (bs : list branch) : Prop := NoDup (map b_id bs).

Definition declared_endpoints (cd : circuit) : Prop :=
  forall b, In b (c_branches cd) ->
            In (b_from b) (c_nodes cd) /\ In (b_to b) (c_nodes cd).

(** The invariants of section 3 of the specification on the input. *)
Definition valid_circuit (cd : circuit) : Prop :=
  NoDup (c_nodes cd) /\ unique_ids (c_branches cd) /\ declared_endpoints cd.

Definition known_type (ty : string) : Prop :=
  ty = "R" \/ ty = "L" \/ ty = "C" \/ ty = "V" \/ ty = "I".

(** The expression of the table of section 4.4 for a branch. *)
Definition table_expression (b : branch) : option expr :=
  let s := ESym "s" in
  let V := ESym ("V_" ++ b_id b)%string in
  let I := ESym ("I_" ++ b_id b)%string in
  let x := ENum (b_value b) in
  if String.eqb (b_type b) "R" then Some (ESub V (EMul I x))
  else if String.eqb (b_type b) "L" then Some (ESub V (EMul (EMul I s) x))
  else if String.eqb (b_type b) "C" then Some (ESub V (EDiv I (EMul s x)))
  else if String.eqb (b_type b) "V" then Some (ESub V (EDiv x s))
  else if String.eqb (b_type b) "I" then Some (ESub I (EDiv x s))
  else None.

(** The series RLC circuit of [solver.py] and [test_phases.py]. *)
Definition series_rlc : circuit :=
  mkCircuit ["0"; "1"; "2"]
    [ mkBranch "V1" "1" "0" "V" (q 10 1);
      mkBranch "R1" "1" "2" "R" (q 5 1);
      mkBranch "C1" "2" "0" "C" (q 1 10) ].

(** ** Vocabulary of the proofs *)

Definition nbr_at (G : MultiGraph) (u v : string) : option keydict :=
  dict_get v (adj G u).

Definition data_at (G : MultiGraph) (u v k : string) : option attrs :=
  match nbr_at G u v with
  | Some kd => dict_get k kd
  | None => None
  end.

(** The key dictionary that [add_edge] stores for the pair. *)
Definition new_keydict (G : MultiGraph) (u v key ty : string) (val : Qc)
  : keydict :=
  match nbr_at G u v with
  | Some kd =>
      dict_set key
        (match dict_get key kd with
         | Some d => mkAttrs ty val (a_weight d)
         | None => mkAttrs ty val None
         end) kd
  | None => [(key, mkAttrs ty val None)]
  end.

Definition add_branches (bs : list branch) (G : MultiGraph) : MultiGraph :=
  fold_left
    (fun g b => add_edge (b_from b) (b_to b) (b_id b) (b_type b) (b_value b) g)
    bs G.

Definition pairb (u v a b : string) : bool :=
  (String.eqb a u && String.eqb b v) || (String.eqb a v && String.eqb b u).

Definition attrs_of (b : branch) : attrs := mkAttrs (b_type b) (b_value b) None.

(** What the dictionaries of a graph look like, whatever was added to it. *)
Record structure_ok (G : MultiGraph) : Prop := {
  so_nodes : NoDup (nodes_of G);
  so_nbrs : forall a, NoDup (map fst (adj G a));
  so_keys : forall a b kd, nbr_at G a b = Some kd -> NoDup (map fst kd);
  so_sym : forall a b, nbr_at G a b = nbr_at G b a;
  so_closed : forall a b, nbr_at G a b <> None -> In a (nodes_of G)
}.

(** [y] is reachable from [x] in the adjacency structure. *)
Inductive reach (G : MultiGraph) : string -> string -> Prop :=
| reach_refl : forall x, reach G x x
| reach_step : forall x y z,
    reach G x y -> In z (neighbors G y) -> reach G x z.


(** The invariant of the loop of [_plain_bfs]: the nodes seen are distinct
    nodes reachable from the source, and a node that is not in the current
    level has all its neighbours seen. *)
Definition bfs_inv (G : MultiGraph) (source : string)
  (seen level : list string) : Prop :=
  NoDup seen /\ incl seen (nodes_of G) /\ incl level seen /\
  (forall x, In x seen -> reach G source x) /\
  (forall x, In x seen ->
             In x level \/ forall w, In w (neighbors G x) -> In w seen).

(** The edges that [G.edges] reports at one node. *)
Definition node_edges (seen : list string) (n : string) (nbrs : nbrdict)
  : list edge :=
  flat_map (fun '(nbr, kd) =>
              if mem nbr seen then []
              else map (fun '(k, d) => mkEdge n nbr k d) kd) nbrs.

(** The dictionaries of a graph, as lists, have no repeated key. *)
Definition keys_ok (G : MultiGraph) : Prop :=
  NoDup (map fst G) /\
  forall n nbrs, In (n, nbrs) G ->
    NoDup (map fst nbrs) /\
    forall v kd, In (v, kd) nbrs -> NoDup (map fst kd).

(** The data dictionary [d] after [d['weight'] = w]. *)
Definition setw (w : nat) (d : attrs) : attrs :=
  mkAttrs (a_type d) (a_value d) (Some w).

(** The data dictionary of an edge after the first loop of [select_tree]. *)
Definition with_weight (d : attrs) : attrs :=
  setw (weight_of_type (a_type d)) d.

Definition dict_upd {V : Type} (k : string) (f : V -> V)
  (d : list (string * V)) : list (string * V) :=
  match dict_get k d with
  | Some v => dict_set k (f v) d
  | None => d
  end.

Definition dict_map {V W : Type} (f : V -> W) (d : list (string * V))
  : list (string * W) :=
  map (fun '(k, v) => (k, f v)) d.

(** The graph with the weight written on every edge, and nothing else
    changed. *)
Definition reweight (G : MultiGraph) : MultiGraph :=
  dict_map (dict_map (dict_map with_weight)) G.

Definition reweight_edge (e : edge) : edge :=
  mkEdge (e_u e) (e_v e) (e_key e) (with_weight (e_data e)).

(** The graph without the weights. *)
Definition erase_weights (G : MultiGraph) : MultiGraph :=
  dict_map (dict_map (dict_map
    (fun d => mkAttrs (a_type d) (a_value d) None))) G.

(** Some edge of [es] lies between [a] and [b] with key [c]. *)
Definition covered (es : list edge) (a b c : string) : bool :=
  existsb (fun e => pairb (e_u e) (e_v e) a b && String.eqb c (e_key e)) es.

(** Two graphs with the same keys in the same order at every level. *)
Definition same_keys (G1 G2 : MultiGraph) : Prop :=
  nodes_of G1 = nodes_of G2 /\
  (forall a, map fst (adj G1 a) = map fst (adj G2 a)) /\
  (forall a b, option_map (map fst) (nbr_at G1 a b)
               = option_map (map fst) (nbr_at G2 a b)).

(** Edge [e] lies between [y] and [z]. *)
Definition links_nodes (e : edge) (y z : string) : Prop :=
  (e_u e = y /\ e_v e = z) \/ (e_u e = z /\ e_v e = y).

(** [y] is reachable from [x] along edges of [es], in either direction. *)
Inductive econn (es : list edge) : string -> string -> Prop :=
| econn_refl : forall x, econn es x x
| econn_step : forall x y z e,
    econn es x y -> In e es -> links_nodes e y z -> econn es x z.

(** The sets of [uf] are the connected components of [es]. *)
Definition represents (uf : UnionFind) (es : list edge) : Prop :=
  forall x y, uf x = uf y <-> econn es x y.

(** [subtrees] when the loop of [kruskal_mst_edges] ends. *)
Fixpoint kruskal_uf (subtrees : UnionFind) (sorted_edges : list edge)
  : UnionFind :=
  match sorted_edges with
  | [] => subtrees
  | e :: es =>
      if String.eqb (subtrees (e_u e)) (subtrees (e_v e))
      then kruskal_uf subtrees es
      else kruskal_uf (uf_union subtrees (e_u e) (e_v e)) es
  end.

(** The representatives among [ns]; one per set. *)
Definition uf_roots (ns : list string) (uf : UnionFind) : list string :=
  filter (fun x => String.eqb (uf x) x) ns.

Definition uf_ok (ns : list string) (uf : UnionFind) : Prop :=
  (forall x, In x ns -> In (uf x) ns) /\ (forall x, uf (uf x) = uf x).

(** The edges of [es] are between nodes of [ns]. *)
Definition within (ns : list string) (es : list edge) : Prop :=
  forall e, In e es -> In (e_u e) ns /\ In (e_v e) ns.

(** The constitutive equation that [build_equations] appends for a branch,
    read off the [if type_ == ...] chain with the symbols of the branch in
    place of [V_sym[i]] and [I_sym[i]]. *)
Definition branch_equation (b : branch) : list expr :=
  constitutive [("V_" ++ b_id b)%string] [("I_" ++ b_id b)%string] 0 b.

(** Two nodes with no branch between them. *)
Definition two_islands : circuit := mkCircuit ["0"; "1"] [].

(** A branch to a node that is not declared. *)
Definition dangling : circuit :=
  mkCircuit ["0"; "1"]
    [ mkBranch "R1" "1" "0" "R" (q 10 1);
      mkBranch "R2" "1" "2" "R" (q 5 1) ].

(** A branch of a type outside the five. *)
Definition odd_type : circuit :=
  mkCircuit ["0"; "1"] [ mkBranch "X1" "1" "0" "X" (q 1 1) ].

(** A voltage source across a branch of a type outside the five. *)
Definition with_diode : circuit :=
  mkCircuit ["0"; "1"]
    [ mkBranch "V1" "1" "0" "V" (q 5 1);
      mkBranch "D1" "1" "0" "D" (q 1 1) ].

(** The orchestrator with the assembled system handed back as it is, in
    place of the three phases that are outside the core. *)
Definition assemble
  : circuit -> traced (response (list expr * list string) unit unit) :=
  solve_circuit (list expr * list string) unit unit unit unit
    (fun equations unknowns => Ok (equations, unknowns))
    (fun _ => Ok (tt, tt, tt))
    (fun _ _ => Ok tt).

Definition all_phases : list phase :=
  [GraphBuilder; TreeSelector; IncidenceMatrix; CutsetMatrix; TiesetMatrix;
   EquationBuilder; EquationSolver; TimeDomain; Visualizer].

(** The constitutive equation of [C1] in the series RLC circuit, as the
    source builds it. *)
Definition c1_equation : expr :=
  ESub (ESym "V_C1")
       (EMul (ESym "I_C1")
             (EDiv (ENum 1%Qc) (EMul (ESym "s") (ENum (q 1 10))))).

(** ** Vocabulary of linear algebra *)

(** The cells of [A] agree with its shape. *)
Definition wf_array (A : ndarray) : Prop :=
  length (cells A) = nrows A /\
  forall r, In r (cells A) -> length r = ncols A.

(** [f 0 + ... + f (n - 1)] *)
Fixpoint sum_upto (n : nat) (f : nat -> Qc) : Qc :=
  match n with
  | O => Q2Qc 0
  | S n' => (sum_upto n' f + f n')%Qc
  end.

(** The entry [(i, j)] of the product of [A] and [B]. *)
Definition mul_at (A B : ndarray) (i j : nat) : Qc :=
  sum_upto (ncols A) (fun k => (get A i k * get B k j)%Qc).

(** [B] is the inverse of the square array [A]. *)
Definition inverse_of (A B : ndarray) : Prop :=
  nrows A = ncols A /\ wf_array B /\
  nrows B = nrows A /\ ncols B = nrows A /\
  forall i j, i < nrows A -> j < nrows A ->
    mul_at B A i j = delta i j /\ mul_at A B i j = delta i j.

Definition invertible (A : ndarray) : Prop := exists B, inverse_of A B.

(** The row [r] applied to the vector [z]. *)
Definition rdot (r : list Qc) (z : nat -> Qc) : Qc :=
  sum_upto (length r) (fun k => (nth k r (Q2Qc 0) * z k)%Qc).

(** The vectors that every row of [rows] sends to zero. *)
Definition annihilates (rows : list (list Qc)) (z : nat -> Qc) : Prop :=
  forall r, In r rows -> rdot r z = Q2Qc 0.

(** The rows of [[A | I]]. *)
Definition augmented (A : ndarray) : list (list Qc) :=
  map2 (@app Qc) (cells A) (cells (eye (nrows A))).

(** The state of the elimination before column [c]: [c] rows are done and
    are unit vectors on the first [c] columns, the other rows vanish there,
    and the rows annihilate the vectors that the rows of [rows0] do. *)
Record gj_inv (n w : nat) (rows0 : list (list Qc)) (c : nat)
  (done todo : list (list Qc)) : Prop := {
  gj_done : length done = c;
  gj_todo : length done + length todo = n;
  gj_width : forall r, In r (done ++ todo) -> length r = w;
  gj_unit : forall i j, i < c -> j < c ->
                        nth j (nth i done []) (Q2Qc 0) = delta i j;
  gj_zero : forall r j, In r todo -> j < c -> nth j r (Q2Qc 0) = Q2Qc 0;
  gj_null : forall z, annihilates (done ++ todo) z <-> annihilates rows0 z
}.

(** The reduced incidence matrix of the series RLC circuit, in the order
    [V1, C1, R1] of [select_tree]. *)
Definition rlc_A_red : ndarray :=
  mkArray 2 3 [ [q 1 1; q 0 1; q 1 1]; [q 0 1; q 1 1; q (-1) 1] ].

(** A well-formed array of shape [(n, m)]. *)
Definition array_shape (n m : nat) (A : ndarray) : Prop :=
  wf_array A /\ nrows A = n /\ ncols A = m.

(** ** Vocabulary of minimum spanning trees *)

(** The selection weight of a branch, and of a list of branches. *)
Definition branch_weight (b : branch) : nat := weight_of_type (b_type b).

Definition total_weight (bs : list branch) : nat :=
  list_sum (map branch_weight bs).

(** [bs] connects all the nodes of the circuit. *)
Definition spans (cd : circuit) (bs : list branch) : Prop :=
  forall x y, is_node cd x -> is_node cd y -> connected_by bs x y.

Definition is_voltage_source (b : branch) : bool := String.eqb (b_type b) "V".
Definition is_current_source (b : branch) : bool := String.eqb (b_type b) "I".

(** The edges of weight at most [k], and the others. *)
Definition light (k : nat) (es : list edge) : list edge :=
  filter (fun e => Nat.leb (edge_weight e) k) es.

Definition heavy (k : nat) (es : list edge) : list edge :=
  filter (fun e => negb (Nat.leb (edge_weight e) k)) es.

Definition heavy_branches (k : nat) (bs : list branch) : list branch :=
  filter (fun b => negb (Nat.leb (branch_weight b) k)) bs.

(** The edge that a branch becomes in the weighted graph. *)
Definition edge_of_branch (b : branch) : edge :=
  mkEdge (b_from b) (b_to b) (b_id b) (with_weight (attrs_of b)).

Definition by_weight (a b : edge) : Prop := edge_weight a <= edge_weight b.

(** ** Further circuits *)

(** A resistor from a node to itself beside a resistor to the reference. *)
Definition with_loop : circuit :=
  mkCircuit ["0"; "1"]
    [ mkBranch "R1" "1" "0" "R" (q 10 1);
      mkBranch "R2" "1" "1" "R" (q 5 1) ].

(** Node ['1'] declared twice. *)
Definition twice_declared : circuit :=
  mkCircuit ["0"; "1"; "1"] [ mkBranch "R1" "1" "0" "R" (q 10 1) ].

(** ** Vocabulary of the incidence matrix *)

(** The entry of the full incidence matrix in the row of node [n] and the
    column of branch [b].  The loop of [get_incidence_matrix] assigns [1]
    at the 'from' node and then [-1] at the 'to' node: when the two are
    the same node the second assignment stays. *)
Definition incidence_entry (n : string) (b : branch) : Qc :=
  if String.eqb n (b_to b) then (- (1))%Qc
  else if String.eqb n (b_from b) then 1%Qc
  else Q2Qc 0.

(** ** Vocabulary of [build_equations] *)


(** ** Phases 6 and 7: [convert_to_time_domain] and [generate_plots] *)

(** What [sympy.solve] hands over: a dictionary from the unknowns to
    their expressions in [s], or a list (empty when the system has no
    solution). *)
Inductive solution : Type :=
| SolDict (items : list (string * expr))
| SolList (solutions : list (list expr)).

(** The result of calling a lambdified expression on the time points. *)
Inductive evaluated : Type :=
| Scalar (y : Qc)
| Array (ys : list Qc).

(** An entry of [plot_data]: the values, or the message of a failure. *)
Inductive plot_value : Type :=
| Values (y_vals : list Qc)
| PlotError (msg : string).

(** [{"name": ..., "image": ...}] *)
Record image : Type := mkImage { img_name : string; img_image : string }.

(** [np.linspace(start, stop, num)], end point included. *)
Definition linspace (start stop : Qc) (num : nat) : list Qc :=
  map (fun i => (start + Q2Qc (inject_Z (Z.of_nat i))
                         * ((stop - start)
                            / Q2Qc (inject_Z (Z.of_nat (num - 1)))))%Qc)
      (seq 0 num).

Section Presentation.
(** sympy and matplotlib are outside the model: the inverse Laplace
    transform, the text of an expression, a lambdified expression
    called on the time points, the text of an exception, and the
    drawing of one figure encoded in base64. *)
Variable TExpr : Type.
Variable inverse_laplace_transform : expr -> result TExpr.
Variable str_expr : TExpr -> string.
Variable lambdify_call : TExpr -> list Qc -> result evaluated.
Variable str_exn : exn -> string.
Variable savefig : string -> list Qc -> list Qc -> result string.

(** One round of the loop of [convert_to_time_domain]. *)
Definition convert_item (time_points : list Qc)
  (acc : list (string * string) * list (string * plot_value))
  (item : string * expr)
  : list (string * string) * list (string * plot_value) :=
  let '(results, plot_data) := acc in
  let '(var_name, e) := item in
  match inverse_laplace_transform e with
  | Ok time_expr =>
      let results := dict_set var_name (str_expr time_expr) results in
      match lambdify_call time_expr time_points with
      | Ok y_vals =>
          let y_vals :=
            match y_vals with
            | Scalar y => repeat y (length time_points)
            | Array ys => ys
            end in
          (results, dict_set var_name (Values y_vals) plot_data)
      | Raise ex =>
          (results,
           dict_set var_name
                    (PlotError ("Plot error: " ++ str_exn ex)%string)
                    plot_data)
      end
  | Raise ex =>
      (dict_set var_name
                ("Cannot compute inverse Laplace: " ++ str_exn ex)%string
                results,
       plot_data)
  end.

Definition convert_to_time_domain (sol : solution)
  : result (list (string * string) * list (string * plot_value)
            * list Qc) :=
  let time_points := linspace (Q2Qc 0) (Q2Qc 10) 100 in
  match sol with
  | SolList _ => Raise AttributeError
  | SolDict items =>
      let '(results, plot_data) :=
        fold_left (convert_item time_points) items ([], []) in
      Ok (results, plot_data, time_points)
  end.

Fixpoint generate_plots (plot_data : list (string * plot_value))
  (time_points : list Qc) : result (list image) :=
  match plot_data with
  | [] => Ok []
  | (var_name, PlotError _) :: rest => generate_plots rest time_points
  | (var_name, Values y_vals) :: rest =>
      img_base64 <- savefig var_name time_points y_vals ;;
      images <- generate_plots rest time_points ;;
      Ok (mkImage var_name img_base64 :: images)
  end.
End Presentation.

(** ** The command line: the [__main__] block of [solver.py] *)

(** What the block prints: the JSON text of the result on standard
    output, or an error dictionary on standard error, with the traceback
    under ["details"] when the exception was not expected. *)
Inductive printed : Type :=
| ToStdout (text : string)
| ToStderr (error : error_dict) (details : option string).

Section Main.
Variables Sol Results PlotData TimePoints Images : Type.
Variable solve_equations : list expr -> list string -> result Sol.
Variable convert_to_time_domain
  : Sol -> result (Results * PlotData * TimePoints).
Variable generate_plots : PlotData -> TimePoints -> result Images.
(** [json.dumps], [str] of an exception and [traceback.format_exc]. *)
Variable json_dumps : response Sol Results Images -> result string.
Variable str_exn : exn -> string.
Variable format_exc : exn -> string.

(** The [except] clauses that can apply once the input is parsed:
    [json.JSONDecodeError] is raised by [json.loads] only. *)
Definition handle (e : exn) : printed :=
  match e with
  | KeyError _ =>
      ToStderr (mkError "error"
                  ("Missing required field: " ++ str_exn e)%string) None
  | _ =>
      ToStderr (mkError "error"
                  ("Unexpected error: " ++ str_exn e)%string)
               (Some (format_exc e))
  end.

(** The [try] block from the call of [solve_circuit] on; reading
    standard input and [json.loads] come before it. *)
Definition main (circuit_data : circuit) : printed :=
  match snd (solve_circuit Sol Results PlotData TimePoints Images
               solve_equations convert_to_time_domain generate_plots
               circuit_data) with
  | Ok result =>
      match json_dumps result with
      | Ok text => ToStdout text
      | Raise e => handle e
      end
  | Raise e => handle e
  end.
End Main.

(** * Properties *)

(** ** Dictionaries *)

Lemma mem_true_iff x l : mem x l = true <-> In x l.
Proof. unfold mem. destruct (in_dec string_dec x l); split; intros; auto; discriminate. Qed.

Lemma mem_false_iff x l : mem x l = false <-> ~ In x l.
Proof. unfold mem. destruct (in_dec string_dec x l); split; intros; auto; try discriminate; contradiction. Qed.

Section DictFacts.
Context {V : Type}.
Implicit Types (d : list (string * V)) (k : string) (v : V).

Lemma dict_get_set k k' v d :
  dict_get k (dict_set k' v d)
  = if String.eqb k k' then Some v else dict_get k d.
Proof.
  induction d as [|[k0 v0] d IH]; simpl.
  - destruct (String.eqb_spec k k'); reflexivity.
  - destruct (String.eqb_spec k' k0) as [->|Hne]; simpl.
    + destruct (String.eqb_spec k k0); reflexivity.
    + rewrite IH. destruct (String.eqb_spec k k0) as [->|]; [|reflexivity].
      destruct (String.eqb_spec k0 k'); [congruence|reflexivity].
Qed.

Lemma dict_get_In k v d : dict_get k d = Some v -> In (k, v) d.
Proof.
  induction d as [|[k0 v0] d IH]; simpl; [discriminate|].
  destruct (String.eqb_spec k k0) as [->|]; intros H.
  - injection H as ->. now left.
  - right. auto.
Qed.

Lemma dict_get_None k d : dict_get k d = None <-> ~ In k (map fst d).
Proof.
  induction d as [|[k0 v0] d IH]; simpl; [tauto|].
  destruct (String.eqb_spec k k0) as [->|Hne].
  - split; [discriminate|]. intros H; exfalso; apply H; now left.
  - rewrite IH. split; intros H; [intros [?|?]; [congruence|tauto]|tauto].
Qed.

Lemma dict_get_Some_key k v d : dict_get k d = Some v -> In k (map fst d).
Proof. intros H. apply dict_get_In in H. now apply (in_map fst) in H. Qed.

Lemma dict_key_get k d : In k (map fst d) -> exists v, dict_get k d = Some v.
Proof.
  intros H. destruct (dict_get k d) eqn:E; [eauto|].
  apply dict_get_None in E. contradiction.
Qed.

Lemma dict_In_get k v d :
  NoDup (map fst d) -> In (k, v) d -> dict_get k d = Some v.
Proof.
  induction d as [|[k0 v0] d IH]; simpl; [tauto|].
  intros Hnd [H|H].
  - injection H as -> ->. now rewrite String.eqb_refl.
  - inversion Hnd; subst. destruct (String.eqb_spec k k0) as [->|]; auto.
    exfalso. apply (in_map fst) in H. auto.
Qed.

Lemma dict_mem_iff k d : dict_mem k d = true <-> In k (map fst d).
Proof.
  unfold dict_mem. destruct (dict_get k d) eqn:E.
  - split; [intros _; eapply dict_get_Some_key; eauto|reflexivity].
  - apply dict_get_None in E. split; [discriminate|contradiction].
Qed.

Lemma dict_keys_set k v d :
  map fst (dict_set k v d)
  = if dict_mem k d then map fst d else map fst d ++ [k].
Proof.
  unfold dict_mem.
  induction d as [|[k0 v0] d IH]; simpl; [reflexivity|].
  destruct (String.eqb_spec k k0) as [->|Hne]; simpl; [reflexivity|].
  rewrite IH. destruct (dict_get k d); reflexivity.
Qed.

Lemma dict_set_NoDup k v d :
  NoDup (map fst d) -> NoDup (map fst (dict_set k v d)).
Proof.
  intros H. rewrite dict_keys_set. destruct (dict_mem k d) eqn:E; [assumption|].
  apply NoDup_app; [assumption|repeat constructor; intros []|].
  intros x Hx [<-|[]].
  apply dict_mem_iff in Hx. congruence.
Qed.

Lemma dict_set_same k v d : dict_get k d = Some v -> dict_set k v d = d.
Proof.
  induction d as [|[k0 v0] d IH]; simpl; [discriminate|].
  destruct (String.eqb_spec k k0) as [->|]; intros H.
  - now injection H as ->.
  - now rewrite IH.
Qed.

Lemma dict_In_keys_set x k v d :
  In x (map fst (dict_set k v d)) <-> x = k \/ In x (map fst d).
Proof.
  rewrite dict_keys_set. destruct (dict_mem k d) eqn:E.
  - apply dict_mem_iff in E. split; [tauto|intros [->|]; auto].
  - rewrite in_app_iff. simpl. intuition.
Qed.
End DictFacts.

(** ** The adjacency structure *)

Lemma dict_get_app {V : Type} k (d1 d2 : list (string * V)) :
  dict_get k (d1 ++ d2)
  = match dict_get k d1 with Some v => Some v | None => dict_get k d2 end.
Proof.
  induction d1 as [|[k0 v0] d1 IH]; simpl; [reflexivity|].
  destruct (String.eqb k k0); auto.
Qed.

Lemma adj_add_node n G u : adj (add_node n G) u = adj G u.
Proof.
  unfold add_node, adj. destruct (dict_mem n G) eqn:E; [reflexivity|].
  rewrite dict_get_app. destruct (dict_get u G) eqn:Eu; [reflexivity|].
  simpl. destruct (String.eqb u n); reflexivity.
Qed.

Lemma nodes_add_node n G :
  nodes_of (add_node n G)
  = if dict_mem n G then nodes_of G else nodes_of G ++ [n].
Proof.
  unfold add_node, nodes_of. destruct (dict_mem n G); [reflexivity|].
  now rewrite map_app.
Qed.

Lemma In_nodes_add_node x n G :
  In x (nodes_of (add_node n G)) <-> x = n \/ In x (nodes_of G).
Proof.
  rewrite nodes_add_node. destruct (dict_mem n G) eqn:E.
  - apply dict_mem_iff in E. unfold nodes_of. split; [tauto|intros [->|]; auto].
  - rewrite in_app_iff. simpl. intuition.
Qed.

Lemma NoDup_nodes_add_node n G :
  NoDup (nodes_of G) -> NoDup (nodes_of (add_node n G)).
Proof.
  intros H. rewrite nodes_add_node. destruct (dict_mem n G) eqn:E; [assumption|].
  apply NoDup_app; [assumption|repeat constructor; intros []|].
  intros x Hx [<-|[]]. apply dict_mem_iff in Hx. congruence.
Qed.

Lemma adj_set_keydict u v kd G a :
  adj (set_keydict u v kd G) a
  = if String.eqb a u then dict_set v kd (adj G u) else adj G a.
Proof.
  unfold set_keydict. unfold adj at 1. rewrite dict_get_set.
  destruct (String.eqb a u); reflexivity.
Qed.

Lemma nbr_at_set_keydict u v kd G a b :
  nbr_at (set_keydict u v kd G) a b
  = if String.eqb a u && String.eqb b v then Some kd else nbr_at G a b.
Proof.
  unfold nbr_at. rewrite adj_set_keydict.
  destruct (String.eqb_spec a u) as [->|]; simpl; [|reflexivity].
  now rewrite dict_get_set.
Qed.

Lemma In_nodes_set_keydict x u v kd G :
  In x (nodes_of (set_keydict u v kd G)) <-> x = u \/ In x (nodes_of G).
Proof. unfold set_keydict, nodes_of. apply dict_In_keys_set. Qed.

Lemma NoDup_nodes_set_keydict u v kd G :
  NoDup (nodes_of G) -> NoDup (nodes_of (set_keydict u v kd G)).
Proof. unfold set_keydict, nodes_of. apply dict_set_NoDup. Qed.

Lemma nodes_set_keydict u v kd G :
  In u (nodes_of G) -> nodes_of (set_keydict u v kd G) = nodes_of G.
Proof.
  intros H. unfold set_keydict, nodes_of. rewrite dict_keys_set.
  apply dict_mem_iff in H. now rewrite H.
Qed.

Lemma nbr_at_add_node n G a b : nbr_at (add_node n G) a b = nbr_at G a b.
Proof. unfold nbr_at. now rewrite adj_add_node. Qed.

Lemma nbr_at_add_edge u v k ty val G a b :
  nbr_at (add_edge u v k ty val G) a b
  = if (String.eqb a u && String.eqb b v) || (String.eqb a v && String.eqb b u)
    then Some (new_keydict G u v k ty val)
    else nbr_at G a b.
Proof.
  unfold add_edge. rewrite !nbr_at_set_keydict, !nbr_at_add_node.
  fold (nbr_at (add_node v (add_node u G)) u v).
  rewrite !nbr_at_add_node. fold (new_keydict G u v k ty val).
  destruct (String.eqb a v && String.eqb b u) eqn:E1;
    destruct (String.eqb a u && String.eqb b v) eqn:E2; reflexivity.
Qed.

Lemma nodes_add_edge u v k ty val G :
  nodes_of (add_edge u v k ty val G) = nodes_of (add_node v (add_node u G)).
Proof.
  unfold add_edge. rewrite !nodes_set_keydict; [reflexivity| |].
  - apply In_nodes_add_node. right. apply In_nodes_add_node. now left.
  - apply In_nodes_set_keydict. right. apply In_nodes_add_node. now left.
Qed.

Lemma In_nodes_add_edge x u v k ty val G :
  In x (nodes_of (add_edge u v k ty val G))
  <-> x = u \/ x = v \/ In x (nodes_of G).
Proof. rewrite nodes_add_edge, !In_nodes_add_node. tauto. Qed.

Lemma NoDup_nodes_add_edge u v k ty val G :
  NoDup (nodes_of G) -> NoDup (nodes_of (add_edge u v k ty val G)).
Proof.
  intros H. rewrite nodes_add_edge. now do 2 apply NoDup_nodes_add_node.
Qed.

Lemma adj_add_edge_NoDup u v k ty val G :
  (forall a, NoDup (map fst (adj G a))) ->
  forall a, NoDup (map fst (adj (add_edge u v k ty val G) a)).
Proof.
  intros H a. unfold add_edge. rewrite !adj_set_keydict.
  destruct (String.eqb a v).
  - apply dict_set_NoDup. destruct (String.eqb v u).
    + apply dict_set_NoDup. rewrite !adj_add_node. apply H.
    + rewrite !adj_add_node. apply H.
  - destruct (String.eqb a u).
    + apply dict_set_NoDup. rewrite !adj_add_node. apply H.
    + rewrite !adj_add_node. apply H.
Qed.

Lemma new_keydict_NoDup G u v k ty val :
  (forall kd, nbr_at G u v = Some kd -> NoDup (map fst kd)) ->
  NoDup (map fst (new_keydict G u v k ty val)).
Proof.
  intros H. unfold new_keydict. destruct (nbr_at G u v) as [kd|].
  - apply dict_set_NoDup. now apply H.
  - simpl. repeat constructor. intros [].
Qed.

Lemma new_keydict_get G u v k ty val c :
  dict_get c (new_keydict G u v k ty val)
  = if String.eqb c k
    then Some (mkAttrs ty val
                 (match data_at G u v k with
                  | Some d => a_weight d
                  | None => None
                  end))
    else data_at G u v c.
Proof.
  unfold new_keydict, data_at. destruct (nbr_at G u v) as [kd|].
  - rewrite dict_get_set. destruct (String.eqb c k); [|reflexivity].
    destruct (dict_get k kd); reflexivity.
  - simpl. destruct (String.eqb c k); reflexivity.
Qed.

Lemma pairb_true u v a b :
  pairb u v a b = true <-> (a = u /\ b = v) \/ (a = v /\ b = u).
Proof.
  unfold pairb. rewrite orb_true_iff, !andb_true_iff, !String.eqb_eq. tauto.
Qed.

Lemma pairb_sym u v a b : pairb u v a b = pairb u v b a.
Proof.
  unfold pairb.
  destruct (String.eqb a u), (String.eqb b v), (String.eqb a v),
    (String.eqb b u); reflexivity.
Qed.

Lemma joins_pair b0 a b :
  joins b0 a b <-> pairb (b_from b0) (b_to b0) a b = true.
Proof. rewrite pairb_true. unfold joins. intuition congruence. Qed.

Lemma joins_sym b0 a b : joins b0 a b -> joins b0 b a.
Proof. unfold joins. tauto. Qed.

Lemma structure_ok_empty : structure_ok [].
Proof.
  split.
  - constructor.
  - intros a. constructor.
  - intros a b kd H. discriminate H.
  - reflexivity.
  - intros a b H. now contradiction H.
Qed.

Lemma structure_ok_add_node n G : structure_ok G -> structure_ok (add_node n G).
Proof.
  intros [H1 H2 H3 H4 H5]. split.
  - now apply NoDup_nodes_add_node.
  - intros a. rewrite adj_add_node. apply H2.
  - intros a b kd. rewrite nbr_at_add_node. apply H3.
  - intros a b. rewrite !nbr_at_add_node. apply H4.
  - intros a b. rewrite nbr_at_add_node. intros H.
    apply In_nodes_add_node. right. eauto.
Qed.

Lemma structure_ok_add_nodes_from ns G :
  structure_ok G -> structure_ok (add_nodes_from ns G).
Proof.
  unfold add_nodes_from. revert G.
  induction ns as [|n ns IH]; simpl; intros G H; [assumption|].
  apply IH. now apply structure_ok_add_node.
Qed.

Lemma structure_ok_add_edge u v k ty val G :
  structure_ok G -> structure_ok (add_edge u v k ty val G).
Proof.
  intros [H1 H2 H3 H4 H5]. split.
  - now apply NoDup_nodes_add_edge.
  - now apply adj_add_edge_NoDup.
  - intros a b kd. rewrite nbr_at_add_edge.
    destruct (_ || _).
    + intros H. injection H as <-. apply new_keydict_NoDup. apply H3.
    + apply H3.
  - intros a b. rewrite !nbr_at_add_edge. fold (pairb u v a b) (pairb u v b a).
    rewrite (pairb_sym u v b a). destruct (pairb u v a b); auto.
  - intros a b. rewrite nbr_at_add_edge. fold (pairb u v a b).
    rewrite In_nodes_add_edge.
    destruct (pairb u v a b) eqn:E.
    + apply pairb_true in E. intros _. intuition.
    + intros H. right. right. eauto.
Qed.

Lemma structure_ok_add_branches bs G :
  structure_ok G -> structure_ok (add_branches bs G).
Proof.
  unfold add_branches. revert G.
  induction bs as [|b bs IH]; simpl; intros G H; [assumption|].
  apply IH. now apply structure_ok_add_edge.
Qed.

Lemma structure_ok_graph_of cd : structure_ok (graph_of cd).
Proof.
  apply (structure_ok_add_branches (c_branches cd)).
  apply structure_ok_add_nodes_from, structure_ok_empty.
Qed.

Lemma In_nodes_add_nodes_from x ns G :
  In x (nodes_of (add_nodes_from ns G)) <-> In x ns \/ In x (nodes_of G).
Proof.
  unfold add_nodes_from. revert G.
  induction ns as [|n ns IH]; simpl; intros G; [tauto|].
  rewrite IH, In_nodes_add_node. intuition.
Qed.

Lemma nbr_at_add_nodes_from ns G a b :
  nbr_at (add_nodes_from ns G) a b = nbr_at G a b.
Proof.
  unfold add_nodes_from. revert G.
  induction ns as [|n ns IH]; simpl; intros G; [reflexivity|].
  now rewrite IH, nbr_at_add_node.
Qed.

Lemma In_nodes_add_branches x bs G :
  In x (nodes_of (add_branches bs G))
  <-> In x (nodes_of G) \/
      exists b, In b bs /\ (b_from b = x \/ b_to b = x).
Proof.
  unfold add_branches. revert G.
  induction bs as [|b bs IH]; simpl; intros G.
  - split; [tauto|intros [H|(b & [] & _)]; assumption].
  - rewrite IH, In_nodes_add_edge. split.
    + intros [[->|[->|H]]|(b0 & Hb & H)]; eauto 6.
    + intros [H|(b0 & [<-|Hb] & H)]; [tauto| |eauto].
      left. destruct H as [<-|<-]; tauto.
Qed.

Lemma nbr_at_add_branches bs G a b :
  nbr_at (add_branches bs G) a b <> None
  <-> nbr_at G a b <> None \/ exists b0, In b0 bs /\ joins b0 a b.
Proof.
  unfold add_branches. revert G.
  induction bs as [|b0 bs IH]; simpl; intros G.
  - split; [tauto|intros [H|(b1 & [] & _)]; assumption].
  - rewrite IH, nbr_at_add_edge. fold (pairb (b_from b0) (b_to b0) a b).
    destruct (pairb _ _ a b) eqn:E.
    + apply joins_pair in E. split; intros _; [eauto|left; discriminate].
    + split.
      * intros [H|(b1 & Hb & H)]; eauto.
      * intros [H|(b1 & [<-|Hb] & H)]; eauto.
        apply joins_pair in H. congruence.
Qed.

Lemma graph_nodes cd x : In x (nodes_of (graph_of cd)) <-> is_node cd x.
Proof.
  unfold graph_of. fold (add_branches (c_branches cd)).
  rewrite In_nodes_add_branches, In_nodes_add_nodes_from. unfold is_node.
  simpl. tauto.
Qed.

Lemma graph_nbrs cd a b :
  nbr_at (graph_of cd) a b <> None
  <-> exists b0, In b0 (c_branches cd) /\ joins b0 a b.
Proof.
  unfold graph_of. fold (add_branches (c_branches cd)).
  rewrite nbr_at_add_branches, nbr_at_add_nodes_from.
  split; [intros [H|H]; [exfalso; apply H; reflexivity|assumption]|auto].
Qed.

Lemma In_neighbors G a b : In b (neighbors G a) <-> nbr_at G a b <> None.
Proof.
  unfold neighbors, nbr_at. split.
  - intros H. apply dict_key_get in H as [kd ->]. discriminate.
  - intros H. destruct (dict_get b (adj G a)) eqn:E; [|congruence].
    eapply dict_get_Some_key; eauto.
Qed.

(** ** The data of the edges, under unique identifiers *)

Lemma data_at_add_edge u v k ty val G a b c :
  structure_ok G ->
  data_at (add_edge u v k ty val G) a b c
  = if pairb u v a b && String.eqb c k
    then Some (mkAttrs ty val
                 (match data_at G u v k with
                  | Some d => a_weight d
                  | None => None
                  end))
    else data_at G a b c.
Proof.
  intros HG. unfold data_at at 1. rewrite nbr_at_add_edge.
  fold (pairb u v a b). destruct (pairb u v a b) eqn:E; simpl; [|reflexivity].
  rewrite new_keydict_get. destruct (String.eqb c k); [reflexivity|].
  apply pairb_true in E as [[-> ->]|[-> ->]]; [reflexivity|].
  unfold data_at. now rewrite (so_sym G HG).
Qed.

Lemma data_at_add_branches bs G a b k d :
  structure_ok G ->
  unique_ids bs ->
  (forall a b k, In k (map b_id bs) -> data_at G a b k = None) ->
  data_at (add_branches bs G) a b k = Some d
  <-> data_at G a b k = Some d \/
      exists b0, In b0 bs /\ b_id b0 = k /\ joins b0 a b /\ d = attrs_of b0.
Proof.
  unfold add_branches, unique_ids. revert G.
  induction bs as [|b0 bs IH]; simpl; intros G HG Hnd Hfresh.
  - split; [tauto|intros [H|(b1 & [] & _)]; assumption].
  - inversion Hnd as [|? ? Hnotin Hnd']; subst.
    rewrite IH; [|now apply structure_ok_add_edge|assumption|].
    + rewrite data_at_add_edge by assumption.
      rewrite (Hfresh _ _ (b_id b0)) by now left.
      destruct (pairb _ _ a b && String.eqb k (b_id b0)) eqn:E.
      * apply andb_true_iff in E as [E1 E2].
        apply joins_pair in E1. apply String.eqb_eq in E2. subst k.
        split.
        -- intros [H|(b1 & Hb & Hid & _)].
           ++ injection H as <-. right. exists b0. unfold attrs_of. auto.
           ++ exfalso. apply Hnotin. rewrite <- Hid. now apply in_map.
        -- intros [H|(b1 & [<-|Hb] & Hid & Hj & ->)].
           ++ rewrite Hfresh in H by now left. discriminate.
           ++ now left.
           ++ exfalso. apply Hnotin. rewrite <- Hid. now apply in_map.
      * split.
        -- intros [H|(b1 & Hb & H)]; eauto.
        -- intros [H|(b1 & [<-|Hb] & Hid & Hj & ->)]; eauto.
           ++ apply joins_pair in Hj. rewrite Hj in E. subst k.
              rewrite String.eqb_refl in E. discriminate.
           ++ right. eauto 6.
    + intros a' b' k' Hk'. rewrite data_at_add_edge by assumption.
      destruct (String.eqb_spec k' (b_id b0)) as [->|Hne].
      * contradiction.
      * rewrite andb_false_r. apply Hfresh. now right.
Qed.

Lemma graph_data cd a b k d :
  unique_ids (c_branches cd) ->
  data_at (graph_of cd) a b k = Some d
  <-> exists b0, In b0 (c_branches cd) /\ b_id b0 = k /\ joins b0 a b /\
                 d = attrs_of b0.
Proof.
  intros Hu. unfold graph_of. fold (add_branches (c_branches cd)).
  assert (Hempty : forall a b k,
             data_at (add_nodes_from (c_nodes cd) []) a b k = None).
  { intros. unfold data_at. now rewrite nbr_at_add_nodes_from. }
  rewrite data_at_add_branches; auto.
  - rewrite Hempty. split; [intros [H|H]; [discriminate|assumption]|auto].
  - apply structure_ok_add_nodes_from, structure_ok_empty.
Qed.

(** ** Breadth-first search *)

Lemma visit_nbrs_spec ws : forall seen next seen' next',
  visit_nbrs ws seen next = (seen', next') ->
  incl seen seen' /\ incl ws seen' /\
  (forall x, In x seen' -> In x seen \/ In x ws) /\
  (NoDup seen -> NoDup seen') /\
  (forall x, In x next' <-> In x next \/ (In x seen' /\ ~ In x seen)) /\
  length seen' + length next = length seen + length next'.
Proof.
  induction ws as [|w ws IH]; simpl; intros seen next seen' next' H.
  - injection H as <- <-. repeat split; auto using incl_refl; try tauto.
    intros x [].
  - destruct (mem w seen) eqn:E.
    + apply mem_true_iff in E.
      destruct (IH _ _ _ _ H) as (H1 & H2 & H3 & H4 & H5 & H6).
      repeat split; auto.
      * intros x [<-|Hx]; auto.
      * intros x Hx. destruct (H3 x Hx); auto.
      * apply H5.
      * apply H5.
    + apply mem_false_iff in E.
      destruct (IH _ _ _ _ H) as (H1 & H2 & H3 & H4 & H5 & H6).
      assert (Hw : In w seen') by (apply H1; now left).
      repeat split.
      * intros x Hx. apply H1. now right.
      * intros x [<-|Hx]; auto.
      * intros x Hx. destruct (H3 x Hx) as [[<-|?]|?]; auto.
      * intros Hnd. apply H4. now constructor.
      * intros Hx. apply H5 in Hx. rewrite in_app_iff in Hx. simpl in Hx.
        destruct Hx as [[?|[<-|[]]]|[? Hn]]; auto.
        right. split; auto.
      * intros Hx. apply H5. rewrite in_app_iff. simpl.
        destruct Hx as [?|[? Hn]]; auto.
        destruct (string_dec w x) as [->|Hne]; auto.
        right. split; auto. intros [?|?]; auto.
      * rewrite length_app in H6. simpl in H6. lia.
Qed.

Lemma visit_level_spec G level : forall seen next seen' next',
  visit_level G level seen next = (seen', next') ->
  incl seen seen' /\
  (forall v w, In v level -> In w (neighbors G v) -> In w seen') /\
  (forall x, In x seen' ->
             In x seen \/ exists v, In v level /\ In x (neighbors G v)) /\
  (NoDup seen -> NoDup seen') /\
  (forall x, In x next' <-> In x next \/ (In x seen' /\ ~ In x seen)) /\
  length seen' + length next = length seen + length next'.
Proof.
  induction level as [|v level IH]; simpl; intros seen next seen' next' H.
  - injection H as <- <-. repeat split; auto using incl_refl; try tauto.
  - destruct (visit_nbrs (neighbors G v) seen next) as [s1 n1] eqn:E1.
    destruct (visit_nbrs_spec _ _ _ _ _ E1) as (A1 & A2 & A3 & A4 & A5 & A6).
    destruct (IH _ _ _ _ H) as (B1 & B2 & B3 & B4 & B5 & B6).
    repeat split.
    + eauto using incl_tran.
    + intros v' w [<-|Hv] Hw; eauto.
    + intros x Hx. destruct (B3 x Hx) as [Hs|(v' & Hv' & Hn)]; eauto.
      destruct (A3 x Hs); eauto.
    + auto.
    + intros Hx. apply B5 in Hx. destruct Hx as [Hx|[Hx Hn]].
      * apply A5 in Hx. destruct Hx as [?|[? ?]]; auto.
      * right. split; auto.
    + intros Hx. apply B5. destruct Hx as [Hx|[Hx Hn]].
      * left. apply A5. now left.
      * destruct (in_dec string_dec x s1) as [Hs|Hs].
        -- left. apply A5. right. split; auto.
        -- right. split; auto.
    + lia.
Qed.

Section Bfs.
Variable G : MultiGraph.
Variable source : string.
Hypothesis G_nodes : NoDup (nodes_of G).
Hypothesis G_closed :
  forall a b, In b (neighbors G a) -> In b (nodes_of G).

Lemma bfs_levels_closed fuel : forall seen level,
  bfs_inv G source seen level ->
  (level <> [] -> length G < length seen + fuel) ->
  let R := bfs_levels fuel G seen level in
  NoDup R /\ incl R (nodes_of G) /\ incl seen R /\
  (forall x, In x R -> reach G source x) /\
  (forall x w, In x R -> In w (neighbors G x) -> In w R).
Proof.
  induction fuel as [|fuel IH]; intros seen level Hinv Hfuel.
  - destruct Hinv as (I1 & I2 & I3 & I4 & I5).
    assert (Hlen : length seen <= length G).
    { unfold nodes_of in I2. rewrite <- (length_map fst G).
      now apply NoDup_incl_length. }
    assert (level = []) as ->.
    { destruct level; [reflexivity|].
      assert (length G < length seen + 0) by (apply Hfuel; discriminate).
      lia. }
    simpl. repeat split; auto using incl_refl.
    intros x w Hx Hw. destruct (I5 x Hx) as [[]|H]. auto.
  - destruct Hinv as (I1 & I2 & I3 & I4 & I5).
    destruct level as [|v level].
    + simpl. repeat split; auto using incl_refl.
      intros x w Hx Hw. destruct (I5 x Hx) as [[]|H]. auto.
    + cbn [bfs_levels].
      destruct (visit_level G (v :: level) seen []) as [seen' next] eqn:E.
      destruct (visit_level_spec _ _ _ _ _ _ E)
        as (B1 & B2 & B3 & B4 & B5 & B6).
      assert (Hinv' : bfs_inv G source seen' next).
      { repeat split.
        - auto.
        - intros x Hx. destruct (B3 x Hx) as [?|(v' & Hv' & Hn)]; eauto.
        - intros x Hx. apply B5 in Hx. destruct Hx as [[]|[? _]]. auto.
        - intros x Hx. destruct (B3 x Hx) as [?|(v' & Hv' & Hn)]; auto.
          eapply reach_step; eauto.
        - intros x Hx.
          destruct (in_dec string_dec x seen) as [Hs|Hs].
          + right. intros w Hw. destruct (I5 x Hs) as [Hl|Hc]; eauto.
          + left. apply B5. right. auto. }
      specialize (IH seen' next Hinv').
      destruct IH as (R1 & R2 & R3 & R4 & R5).
      { intros Hne. assert (length G < length seen + S fuel)
          by (apply Hfuel; discriminate).
        destruct next; [congruence|]. simpl in B6. lia. }
      repeat split; eauto using incl_tran.
Qed.

Hypothesis source_node : In source (nodes_of G).

Lemma plain_bfs_spec :
  let R := plain_bfs G source in
  NoDup R /\ incl R (nodes_of G) /\
  (forall x, In x R <-> reach G source x).
Proof.
  unfold plain_bfs.
  destruct (bfs_levels_closed (length G) [source] [source])
    as (R1 & R2 & R3 & R4 & R5).
  - repeat split.
    + repeat constructor. intros [].
    + intros x [<-|[]]. assumption.
    + apply incl_refl.
    + intros x [<-|[]]. constructor.
    + intros x [<-|[]]. left. now left.
  - intros _. simpl. lia.
  - repeat split; auto.
    intros H. induction H.
    + apply R3. now left.
    + eauto.
Qed.

Lemma plain_bfs_all :
  length (plain_bfs G source) = length G
  <-> forall x, In x (nodes_of G) -> reach G source x.
Proof.
  destruct plain_bfs_spec as (R1 & R2 & R3). split.
  - intros Hlen x Hx. apply R3.
    apply (@NoDup_length_incl _ _ (nodes_of G) R1); auto.
    unfold nodes_of. rewrite length_map. lia.
  - intros Hall. apply Nat.le_antisymm.
    + rewrite <- (length_map fst G). now apply NoDup_incl_length.
    + rewrite <- (length_map fst G). apply NoDup_incl_length; auto.
      intros x Hx. apply R3. auto.
Qed.
End Bfs.

(** ** Connectivity of the graph and of the circuit *)

Lemma connected_by_trans bs x y z :
  connected_by bs x y -> connected_by bs y z -> connected_by bs x z.
Proof. intros H1 H2. induction H2; eauto using connected_by. Qed.

Lemma connected_by_sym bs x y : connected_by bs x y -> connected_by bs y x.
Proof.
  intros H. induction H; [constructor|].
  eapply connected_by_trans; [|eassumption].
  eapply conn_step; [constructor|eassumption|]. now apply joins_sym.
Qed.

Lemma reach_connected cd x y :
  reach (graph_of cd) x y <-> connected_by (c_branches cd) x y.
Proof.
  split; intros H; induction H; try constructor.
  - apply In_neighbors, graph_nbrs in H0 as (b & Hb & Hj).
    eapply conn_step; eauto.
  - eapply reach_step; eauto. apply In_neighbors, graph_nbrs. eauto.
Qed.

Lemma graph_closed cd a b :
  In b (neighbors (graph_of cd) a) -> In b (nodes_of (graph_of cd)).
Proof.
  intros H. apply In_neighbors in H.
  pose proof (structure_ok_graph_of cd) as HG.
  rewrite (so_sym _ HG) in H. eapply so_closed; eauto.
Qed.

Lemma is_connected_spec G :
  NoDup (nodes_of G) ->
  (forall a b, In b (neighbors G a) -> In b (nodes_of G)) ->
  (G = [] /\ is_connected G = Raise NetworkXPointlessConcept) \/
  (exists n0 c, In n0 (nodes_of G) /\ is_connected G = Ok c /\
                (c = true <-> forall x, In x (nodes_of G) -> reach G n0 x)).
Proof.
  intros Hnd Hcl. destruct G as [|[n0 nb0] G'] eqn:E; [left; auto|right].
  rewrite <- E in *.
  exists n0, (Nat.eqb (length (plain_bfs G n0)) (length G)).
  assert (Hn0 : In n0 (nodes_of G)) by (rewrite E; now left).
  split; [assumption|]. split; [subst G; reflexivity|].
  rewrite Nat.eqb_eq. now apply plain_bfs_all.
Qed.

(** [nx.is_connected] on the graph of a circuit: it raises on the null
    graph and otherwise decides whether the circuit is connected. *)
Lemma is_connected_graph_of cd :
  (graph_of cd = [] /\
   is_connected (graph_of cd) = Raise NetworkXPointlessConcept)
  \/ (exists c, is_connected (graph_of cd) = Ok c /\
                (c = true <-> connected_circuit cd)).
Proof.
  assert (Hnd : NoDup (nodes_of (graph_of cd)))
    by apply so_nodes, structure_ok_graph_of.
  destruct (is_connected_spec (graph_of cd) Hnd (graph_closed cd))
    as [?|(n0 & c & Hn0 & Hc & Hiff)]; [now left|].
  right. exists c. split; [assumption|]. rewrite Hiff. split.
  - intros H x y Hx Hy. apply graph_nodes in Hx, Hy.
    apply H, reach_connected in Hx, Hy.
    eauto using connected_by_trans, connected_by_sym.
  - intros H x Hx. apply reach_connected, H; now apply graph_nodes.
Qed.

Lemma build_graph_cases cd :
  (graph_of cd = [] /\ build_graph cd = Raise NetworkXPointlessConcept) \/
  (connected_circuit cd /\ build_graph cd = Ok (Some (graph_of cd), None)) \/
  (~ connected_circuit cd /\
   build_graph cd = Ok (None, Some (mkError "error" unconnected_message))).
Proof.
  unfold build_graph.
  destruct (is_connected_graph_of cd) as [[E ->]|(c & -> & Hc)]; [now left|].
  right. simpl. destruct c; simpl.
  - left. split; [now apply Hc|reflexivity].
  - right. split; [|reflexivity]. intros H. apply Hc in H. discriminate.
Qed.

(** ** Lists without repetition *)

Lemma NoDup_app_disjoint {A : Type} (l1 l2 : list A) :
  NoDup (l1 ++ l2) -> forall x, In x l1 -> In x l2 -> False.
Proof.
  induction l1 as [|a l1 IH]; simpl; intros Hnd x H1 H2; [assumption|].
  inversion Hnd as [|? ? Ha Hnd']; subst. destruct H1 as [->|H1].
  - apply Ha. apply in_or_app. now right.
  - eauto.
Qed.

Lemma NoDup_map_inj_in {A B : Type} (f : A -> B) (l : list A) :
  NoDup l ->
  (forall x y, In x l -> In y l -> f x = f y -> x = y) ->
  NoDup (map f l).
Proof.
  induction l as [|a l IH]; simpl; intros Hnd Hinj; [constructor|].
  inversion Hnd as [|? ? Ha Hnd']; subst. constructor.
  - intros H. apply in_map_iff in H as (y & Hy & Hin).
    apply Ha. rewrite <- (Hinj y a); auto.
  - apply IH; auto.
Qed.

Lemma NoDup_map_eq {A B : Type} (f : A -> B) (l : list A) x y :
  NoDup (map f l) -> In x l -> In y l -> f x = f y -> x = y.
Proof.
  induction l as [|a l IH]; simpl; intros Hnd Hx Hy E; [destruct Hx|].
  inversion Hnd as [|? ? Ha Hnd']; subst.
  destruct Hx as [->|Hx], Hy as [->|Hy]; auto.
  - exfalso. apply Ha. rewrite E. now apply in_map.
  - exfalso. apply Ha. rewrite <- E. now apply in_map.
Qed.

(** ** The edges reported by [G.edges] *)

Lemma In_node_edges e seen n nbrs :
  In e (node_edges seen n nbrs)
  <-> e_u e = n /\ ~ In (e_v e) seen /\
      exists kd, In (e_v e, kd) nbrs /\ In (e_key e, e_data e) kd.
Proof.
  unfold node_edges. rewrite in_flat_map. split.
  - intros ([nbr kd] & Hin & He).
    destruct (mem nbr seen) eqn:E; [destruct He|].
    apply mem_false_iff in E. apply in_map_iff in He as ([k d] & <- & Hkd).
    simpl. eauto.
  - intros (Hu & Hs & kd & Hin & Hkd). exists (e_v e, kd). split; [assumption|].
    apply mem_false_iff in Hs. rewrite Hs. apply in_map_iff.
    exists (e_key e, e_data e). split; [|assumption].
    destruct e; simpl in *. now subst.
Qed.

Lemma edges_from_cons seen n nbrs G :
  edges_from seen ((n, nbrs) :: G)
  = node_edges seen n nbrs ++ edges_from (n :: seen) G.
Proof. reflexivity. Qed.

Lemma In_edges_from e G : forall seen,
  In e (edges_from seen G)
  <-> exists pre nbrs post,
        G = pre ++ (e_u e, nbrs) :: post /\
        ~ In (e_v e) seen /\ ~ In (e_v e) (map fst pre) /\
        exists kd, In (e_v e, kd) nbrs /\ In (e_key e, e_data e) kd.
Proof.
  induction G as [|[n nbrs] G IH]; intros seen.
  - simpl. split; [intros []|]. intros (pre & ? & ? & H & _).
    destruct pre; discriminate.
  - rewrite edges_from_cons, in_app_iff, In_node_edges, IH. split.
    + intros [(Hu & Hs & Hk)|(pre & nb & post & -> & Hs & Hp & Hk)].
      * exists [], nbrs, G. subst n. simpl. auto.
      * exists ((n, nbrs) :: pre), nb, post. simpl in *. intuition.
    + intros (pre & nb & post & HG & Hs & Hp & Hk).
      destruct pre as [|p pre]; simpl in HG.
      * injection HG as -> -> ->. left. auto.
      * injection HG as <- ->. right. exists pre, nb, post. simpl in *.
        intuition.
Qed.

Lemma keys_ok_of_structure G : structure_ok G -> keys_ok G.
Proof.
  intros HG. split; [apply (so_nodes G HG)|]. intros n nbrs Hin.
  assert (Hadj : adj G n = nbrs).
  { unfold adj. erewrite dict_In_get; eauto. apply (so_nodes G HG). }
  split.
  - rewrite <- Hadj. apply (so_nbrs G HG).
  - intros v kd Hv. apply (so_keys G HG n v). unfold nbr_at. rewrite Hadj.
    apply dict_In_get; [|assumption]. rewrite <- Hadj. apply (so_nbrs G HG).
Qed.

Lemma NoDup_pairs {V : Type} (d : list (string * V)) :
  NoDup (map fst d) -> NoDup d.
Proof. apply NoDup_map_inv. Qed.

Lemma NoDup_node_edges seen n nbrs :
  NoDup (map fst nbrs) ->
  (forall v kd, In (v, kd) nbrs -> NoDup (map fst kd)) ->
  NoDup (node_edges seen n nbrs).
Proof.
  induction nbrs as [|[v kd] nbrs IH]; simpl; intros Hnd Hk; [constructor|].
  inversion Hnd as [|? ? Hv Hnd']; subst.
  apply NoDup_app.
  - destruct (mem v seen); [constructor|].
    apply NoDup_map_inj_in.
    + apply NoDup_pairs. apply (Hk v). now left.
    + intros [k1 d1] [k2 d2] _ _ H. now injection H as -> ->.
  - apply IH; [assumption|]. intros v' kd' H. apply (Hk v'). now right.
  - intros e H1 H2. apply In_node_edges in H2 as (_ & _ & kd' & Hin & _).
    destruct (mem v seen); [destruct H1|].
    apply in_map_iff in H1 as ([k d] & <- & _). simpl in Hin.
    apply Hv. now apply (in_map fst) in Hin.
Qed.

Lemma NoDup_edges_from G : forall seen,
  keys_ok G -> NoDup (edges_from seen G).
Proof.
  induction G as [|[n nbrs] G IH]; intros seen [Hnd Hk]; [constructor|].
  rewrite edges_from_cons. simpl in Hnd. inversion Hnd as [|? ? Hn Hnd']; subst.
  destruct (Hk n nbrs (or_introl eq_refl)) as [Hk1 Hk2].
  apply NoDup_app.
  - now apply NoDup_node_edges.
  - apply IH. split; [assumption|]. intros n' nb' H. apply (Hk n'). now right.
  - intros e H1 H2. apply In_node_edges in H1 as (Hu & _).
    apply In_edges_from in H2 as (pre & nb & post & -> & _).
    apply Hn. rewrite <- Hu, map_app, in_app_iff. right. now left.
Qed.

Section Edges.
Variable G : MultiGraph.
Hypothesis G_ok : structure_ok G.

Lemma In_graph_lookup n nbrs : In (n, nbrs) G <-> dict_get n G = Some nbrs.
Proof.
  split; [apply dict_In_get, (so_nodes G G_ok)|apply dict_get_In].
Qed.

Lemma nbr_at_In u v kd :
  nbr_at G u v = Some kd
  <-> exists nbrs, In (u, nbrs) G /\ In (v, kd) nbrs.
Proof.
  unfold nbr_at. split.
  - intros H. destruct (dict_get u G) as [nbrs|] eqn:E.
    + exists nbrs. split; [now apply dict_get_In|].
      apply dict_get_In. unfold adj in H. now rewrite E in H.
    + unfold adj in H. rewrite E in H. discriminate.
  - intros (nbrs & H1 & H2). apply In_graph_lookup in H1.
    pose proof (so_nbrs G G_ok u) as Hnd. unfold adj in *. rewrite H1 in *.
    now apply dict_In_get.
Qed.

Lemma data_at_In u v k d :
  data_at G u v k = Some d
  <-> exists nbrs kd, In (u, nbrs) G /\ In (v, kd) nbrs /\ In (k, d) kd.
Proof.
  unfold data_at. split.
  - destruct (nbr_at G u v) as [kd|] eqn:E; [|discriminate].
    intros H. apply nbr_at_In in E as (nbrs & H1 & H2).
    exists nbrs, kd. auto using dict_get_In.
  - intros (nbrs & kd & H1 & H2 & H3).
    assert (E : nbr_at G u v = Some kd) by (apply nbr_at_In; eauto).
    rewrite E. apply dict_In_get; [|assumption]. eapply so_keys; eauto.
Qed.

(** An edge that is reported is stored at its position. *)
Lemma edges_data e :
  In e (edges G) -> data_at G (e_u e) (e_v e) (e_key e) = Some (e_data e).
Proof.
  intros H. apply In_edges_from in H as (pre & nbrs & post & HG & _ & _ & kd & H1 & H2).
  apply data_at_In. exists nbrs, kd. repeat split; auto.
  rewrite HG. apply in_elt.
Qed.

(** Every stored edge is reported, in one direction or the other. *)
Lemma edges_cover u v k d :
  data_at G u v k = Some d ->
  In (mkEdge u v k d) (edges G) \/ In (mkEdge v u k d) (edges G).
Proof.
  intros H.
  assert (H' : data_at G v u k = Some d).
  { unfold data_at in *. now rewrite (so_sym G G_ok). }
  apply data_at_In in H as (nbrs & kd & H1 & H2 & H3).
  apply data_at_In in H' as (nbrs' & kd' & H1' & H2' & H3').
  destruct (in_split _ _ H1) as (pre & post & HG).
  destruct (in_dec string_dec v (map fst pre)) as [Hv|Hv].
  - right. apply In_edges_from. simpl.
    apply in_map_iff in Hv as ([v0 nb0] & Hv0 & Hin). simpl in Hv0. subst v0.
    destruct (in_split _ _ Hin) as (pre1 & post1 & Hpre).
    assert (nb0 = nbrs').
    { apply In_graph_lookup in H1'. assert (In (v, nb0) G).
      { rewrite HG, Hpre. apply in_or_app. left. apply in_elt. }
      apply In_graph_lookup in H. congruence. }
    subst nb0. exists pre1, nbrs', (post1 ++ (u, nbrs) :: post).
    repeat split; eauto.
    + rewrite HG, Hpre, <- app_assoc. reflexivity.
    + intros Hu. pose proof (so_nodes G G_ok) as Hnd. unfold nodes_of in Hnd.
      rewrite HG, Hpre, <- app_assoc, map_app in Hnd.
      apply (NoDup_app_disjoint _ _ Hnd u Hu).
      simpl. right. rewrite map_app, in_app_iff. right. now left.
  - left. apply In_edges_from. simpl. exists pre, nbrs, post. eauto 7.
Qed.
End Edges.

Lemma app_cons_cases {A : Type} (pre1 : list A) : forall pre2 a b post1 post2,
  pre1 ++ a :: post1 = pre2 ++ b :: post2 ->
  a = b \/ In b pre1 \/ In a pre2.
Proof.
  induction pre1 as [|x pre1 IH]; intros [|y pre2] a b post1 post2 H;
    simpl in H; injection H as H1 H2; subst; simpl; auto.
  destruct (IH _ _ _ _ _ H2) as [?|[?|?]]; auto.
Qed.

(** An edge between two different nodes is reported in one direction only. *)
Lemma edges_one_direction G e1 e2 :
  In e1 (edges G) -> In e2 (edges G) ->
  e_u e2 = e_v e1 -> e_v e2 = e_u e1 -> e_u e1 = e_v e1.
Proof.
  intros H1 H2 Hu Hv.
  apply In_edges_from in H1 as (pre1 & nb1 & post1 & HG1 & _ & Hp1 & _).
  apply In_edges_from in H2 as (pre2 & nb2 & post2 & HG2 & _ & Hp2 & _).
  rewrite HG1 in HG2. apply app_cons_cases in HG2 as [E|[E|E]].
  - injection E as E _. congruence.
  - exfalso. apply Hp1. apply (in_map fst) in E. simpl in E. congruence.
  - exfalso. apply Hp2. apply (in_map fst) in E. simpl in E. congruence.
Qed.

(** ** The edges of the graph of a circuit *)

Section CircuitEdges.
Variable cd : circuit.
Hypothesis ids : unique_ids (c_branches cd).

Let G := graph_of cd.

Lemma graph_edge_branch e :
  In e (edges G) ->
  exists b, In b (c_branches cd) /\ b_id b = e_key e /\
            joins b (e_u e) (e_v e) /\ e_data e = attrs_of b.
Proof.
  intros H. apply edges_data in H; [|apply structure_ok_graph_of].
  apply graph_data in H as (b & ? & ? & ? & ?); eauto.
Qed.

Lemma graph_branch_edge b :
  In b (c_branches cd) ->
  exists e, In e (edges G) /\ e_key e = b_id b /\
            joins b (e_u e) (e_v e) /\ e_data e = attrs_of b.
Proof.
  intros Hb.
  assert (H : data_at G (b_from b) (b_to b) (b_id b) = Some (attrs_of b)).
  { apply graph_data; [assumption|]. exists b.
    repeat split; auto. left. auto. }
  apply edges_cover in H as [H|H]; [| |apply structure_ok_graph_of];
    eexists; (split; [exact H|]); simpl; unfold joins; auto.
Qed.

Lemma graph_edge_key_inj e1 e2 :
  In e1 (edges G) -> In e2 (edges G) -> e_key e1 = e_key e2 -> e1 = e2.
Proof.
  intros H1 H2 Hk.
  destruct (graph_edge_branch e1 H1) as (b1 & Hb1 & Hi1 & Hj1 & Hd1).
  destruct (graph_edge_branch e2 H2) as (b2 & Hb2 & Hi2 & Hj2 & Hd2).
  assert (b1 = b2).
  { apply (NoDup_map_eq b_id (c_branches cd));
      [exact ids|assumption|assumption|congruence]. }
  subst b2.
  assert (Huv : e_u e1 = e_u e2 /\ e_v e1 = e_v e2).
  { destruct Hj1 as [[A1 B1]|[A1 B1]], Hj2 as [[A2 B2]|[A2 B2]];
      try (split; congruence).
    - assert (e_u e1 = e_v e1)
        by (apply (edges_one_direction G e1 e2); congruence).
      split; congruence.
    - assert (e_u e1 = e_v e1)
        by (apply (edges_one_direction G e1 e2); congruence).
      split; congruence. }
  destruct Huv, e1, e2; simpl in *. congruence.
Qed.

Lemma graph_edge_keys_NoDup : NoDup (map e_key (edges G)).
Proof.
  apply NoDup_map_inj_in.
  - apply NoDup_edges_from, keys_ok_of_structure, structure_ok_graph_of.
  - apply graph_edge_key_inj.
Qed.
End CircuitEdges.

(** ** Writing the weights *)

Section DictMore.
Context {V W : Type}.

Lemma dict_get_upd k (f : V -> V) (d : list (string * V)) c :
  dict_get c (dict_upd k f d)
  = if String.eqb c k then option_map f (dict_get k d) else dict_get c d.
Proof.
  unfold dict_upd. destruct (dict_get k d) as [v|] eqn:E.
  - rewrite dict_get_set. destruct (String.eqb c k); reflexivity.
  - destruct (String.eqb_spec c k) as [->|]; [now rewrite E|reflexivity].
Qed.

Lemma dict_keys_upd k (f : V -> V) (d : list (string * V)) :
  map fst (dict_upd k f d) = map fst d.
Proof.
  unfold dict_upd. destruct (dict_get k d) as [v|] eqn:E; [|reflexivity].
  rewrite dict_keys_set. unfold dict_mem. now rewrite E.
Qed.

Lemma dict_get_map (f : V -> W) (d : list (string * V)) k :
  dict_get k (dict_map f d) = option_map f (dict_get k d).
Proof.
  induction d as [|[k0 v0] d IH]; simpl; [reflexivity|].
  destruct (String.eqb k k0); auto.
Qed.

Lemma dict_keys_map (f : V -> W) (d : list (string * V)) :
  map fst (dict_map f d) = map fst d.
Proof.
  unfold dict_map. rewrite map_map. apply map_ext. now intros [k v].
Qed.

Lemma dict_ext (d1 : list (string * V)) : forall d2,
  NoDup (map fst d1) ->
  map fst d1 = map fst d2 ->
  (forall k, dict_get k d1 = dict_get k d2) ->
  d1 = d2.
Proof.
  induction d1 as [|[k1 v1] d1 IH]; intros [|[k2 v2] d2] Hnd Hk Hg;
    try discriminate; [reflexivity|].
  simpl in Hk. injection Hk as Hk1 Hk. subst k2.
  inversion Hnd as [|? ? Hn Hnd']; subst.
  pose proof (Hg k1) as H2. simpl in H2. rewrite String.eqb_refl in H2.
  injection H2 as ->. f_equal. apply IH; auto.
  intros k. specialize (Hg k). simpl in Hg.
  destruct (String.eqb_spec k k1) as [Ek|]; [subst k|assumption].
  rewrite (proj2 (dict_get_None k1 d1) Hn). symmetry. apply dict_get_None.
  now rewrite <- Hk.
Qed.
End DictMore.

Lemma nbr_at_node G u v kd : nbr_at G u v = Some kd -> In u (nodes_of G).
Proof.
  unfold nbr_at, adj, nodes_of. destruct (dict_get u G) eqn:E; [|discriminate].
  intros _. eapply dict_get_Some_key; eauto.
Qed.

Lemma nbr_at_set_weight_at u v k w G a b :
  nbr_at (set_weight_at u v k w G) a b
  = if String.eqb a u && String.eqb b v
    then option_map (dict_upd k (setw w)) (nbr_at G a b)
    else nbr_at G a b.
Proof.
  unfold set_weight_at. fold (nbr_at G u v).
  destruct (String.eqb a u && String.eqb b v) eqn:E.
  - apply andb_true_iff in E as [Ea Eb].
    apply String.eqb_eq in Ea, Eb. subst a b.
    destruct (nbr_at G u v) as [kd|] eqn:En; [|now rewrite En].
    unfold dict_upd. simpl.
    destruct (dict_get k kd) as [d|] eqn:Ed; [|now rewrite En].
    now rewrite nbr_at_set_keydict, !String.eqb_refl.
  - destruct (nbr_at G u v) as [kd|]; [|reflexivity].
    destruct (dict_get k kd) as [d|]; [|reflexivity].
    now rewrite nbr_at_set_keydict, E.
Qed.

Lemma nodes_set_weight_at u v k w G :
  nodes_of (set_weight_at u v k w G) = nodes_of G.
Proof.
  unfold set_weight_at. fold (nbr_at G u v).
  destruct (nbr_at G u v) as [kd|] eqn:En; [|reflexivity].
  destruct (dict_get k kd) as [d|]; [|reflexivity].
  apply nodes_set_keydict. eapply nbr_at_node; eauto.
Qed.

Lemma adj_keys_set_weight_at u v k w G a :
  map fst (adj (set_weight_at u v k w G) a) = map fst (adj G a).
Proof.
  unfold set_weight_at. fold (nbr_at G u v).
  destruct (nbr_at G u v) as [kd|] eqn:En; [|reflexivity].
  destruct (dict_get k kd) as [d|]; [|reflexivity].
  rewrite adj_set_keydict. destruct (String.eqb_spec a u) as [->|]; [|reflexivity].
  rewrite dict_keys_set. unfold dict_mem. fold (nbr_at G u v). now rewrite En.
Qed.

Lemma same_keys_refl G : same_keys G G.
Proof. repeat split. Qed.

Lemma same_keys_trans G1 G2 G3 :
  same_keys G1 G2 -> same_keys G2 G3 -> same_keys G1 G3.
Proof.
  intros (A1 & A2 & A3) (B1 & B2 & B3). repeat split; intros; congruence.
Qed.

Lemma same_keys_set_weight_at u v k w G :
  same_keys (set_weight_at u v k w G) G.
Proof.
  repeat split.
  - apply nodes_set_weight_at.
  - apply adj_keys_set_weight_at.
  - intros a b. rewrite nbr_at_set_weight_at.
    destruct (String.eqb a u && String.eqb b v); [|reflexivity].
    destruct (nbr_at G a b); simpl; [|reflexivity].
    now rewrite dict_keys_upd.
Qed.

Lemma setw_idem w d : setw w (setw w d) = setw w d.
Proof. reflexivity. Qed.

Lemma dict_upd_idem {V : Type} k (f : V -> V) (d : list (string * V)) :
  (forall v, f (f v) = f v) -> dict_upd k f (dict_upd k f d) = dict_upd k f d.
Proof.
  intros Hf. unfold dict_upd at 1. rewrite dict_get_upd, String.eqb_refl.
  destruct (dict_get k d) as [v|] eqn:E; simpl.
  - rewrite Hf. apply dict_set_same.
    rewrite dict_get_upd, String.eqb_refl, E. reflexivity.
  - reflexivity.
Qed.

Lemma nbr_at_set_weight u v k w G a b :
  structure_ok G ->
  nbr_at (set_weight u v k w G) a b
  = if pairb u v a b
    then option_map (dict_upd k (setw w)) (nbr_at G a b)
    else nbr_at G a b.
Proof.
  intros HG. unfold set_weight, pairb. rewrite !nbr_at_set_weight_at.
  destruct (String.eqb a v && String.eqb b u) eqn:E1;
    destruct (String.eqb a u && String.eqb b v) eqn:E2; simpl; auto.
  destruct (nbr_at G a b); simpl; [|reflexivity].
  f_equal. apply dict_upd_idem, setw_idem.
Qed.

Lemma data_at_set_weight u v k w G a b c :
  structure_ok G ->
  data_at (set_weight u v k w G) a b c
  = if pairb u v a b && String.eqb c k
    then option_map (setw w) (data_at G a b c)
    else data_at G a b c.
Proof.
  intros HG. unfold data_at. rewrite nbr_at_set_weight by assumption.
  destruct (pairb u v a b); simpl; [|reflexivity].
  destruct (nbr_at G a b) as [kd|]; simpl.
  - rewrite dict_get_upd.
    destruct (String.eqb_spec c k) as [->|]; reflexivity.
  - destruct (String.eqb c k); reflexivity.
Qed.

Lemma same_keys_set_weight u v k w G : same_keys (set_weight u v k w G) G.
Proof.
  unfold set_weight. eapply same_keys_trans; apply same_keys_set_weight_at.
Qed.

Lemma structure_ok_set_weight u v k w G :
  structure_ok G -> structure_ok (set_weight u v k w G).
Proof.
  intros HG. destruct (same_keys_set_weight u v k w G) as (K1 & K2 & K3).
  destruct HG as [H1 H2 H3 H4 H5]. split.
  - now rewrite K1.
  - intros a. now rewrite K2.
  - intros a b kd E. specialize (K3 a b). rewrite E in K3. simpl in K3.
    destruct (nbr_at G a b) as [kd0|] eqn:E0; [|discriminate].
    simpl in K3. injection K3 as ->. eauto.
  - intros a b. rewrite !nbr_at_set_weight by (split; assumption).
    rewrite (pairb_sym u v b a), (H4 b a). reflexivity.
  - intros a b E. rewrite K1. apply (H5 a b).
    specialize (K3 a b). destruct (nbr_at G a b); [discriminate|].
    destruct (nbr_at (set_weight u v k w G) a b); [discriminate|congruence].
Qed.

Lemma with_weight_idem d : with_weight (with_weight d) = with_weight d.
Proof. reflexivity. Qed.

Lemma assign_weights_fold es : forall G,
  structure_ok G ->
  (forall e, In e es ->
     exists d, data_at G (e_u e) (e_v e) (e_key e) = Some d /\
               a_type d = a_type (e_data e)) ->
  let G' :=
    fold_left
      (fun g e =>
         set_weight (e_u e) (e_v e) (e_key e)
                    (weight_of_type (a_type (e_data e))) g) es G in
  structure_ok G' /\ same_keys G' G /\
  forall a b c,
    data_at G' a b c
    = option_map (fun d => if covered es a b c then with_weight d else d)
                 (data_at G a b c).
Proof.
  induction es as [|e es IH]; intros G HG Hes; simpl.
  - split; [assumption|]. split; [apply same_keys_refl|].
    intros a b c. now destruct (data_at G a b c).
  - set (G1 := set_weight (e_u e) (e_v e) (e_key e)
                          (weight_of_type (a_type (e_data e))) G).
    assert (HG1 : structure_ok G1) by now apply structure_ok_set_weight.
    destruct (Hes e (or_introl eq_refl)) as (d0 & Hd0 & Ht0).
    assert (Hhit : forall a b c,
               pairb (e_u e) (e_v e) a b && String.eqb c (e_key e) = true ->
               data_at G a b c = Some d0).
    { intros a b c H. apply andb_true_iff in H as [H1 H2].
      apply String.eqb_eq in H2. subst c.
      apply pairb_true in H1 as [[-> ->]|[-> ->]]; [assumption|].
      unfold data_at in *. now rewrite (so_sym G HG). }
    destruct (IH G1 HG1) as (R1 & R2 & R3).
    { intros e' He'. destruct (Hes e' (or_intror He')) as (d & Hd & Ht).
      unfold G1. rewrite data_at_set_weight, Hd by assumption.
      destruct (_ && _); simpl; eauto. }
    split; [assumption|]. split.
    { eapply same_keys_trans; [exact R2|apply same_keys_set_weight]. }
    intros a b c. rewrite R3. unfold G1.
    rewrite data_at_set_weight by assumption.
    unfold covered at 2. cbn [existsb]. fold (covered es a b c).
    destruct (pairb (e_u e) (e_v e) a b && String.eqb c (e_key e)) eqn:E;
      simpl; [|reflexivity].
    rewrite (Hhit a b c E). simpl. rewrite <- Ht0.
    now destruct (covered es a b c).
Qed.

Lemma covered_edges G a b c d :
  structure_ok G -> data_at G a b c = Some d -> covered (edges G) a b c = true.
Proof.
  intros HG H. unfold covered. apply existsb_exists.
  destruct (edges_cover G HG a b c d H) as [He|He];
    eexists; (split; [exact He|]); simpl;
    rewrite String.eqb_refl, andb_true_r; apply pairb_true; auto.
Qed.

Lemma assign_weights_spec G :
  structure_ok G ->
  structure_ok (assign_weights G) /\ same_keys (assign_weights G) G /\
  forall a b c,
    data_at (assign_weights G) a b c = option_map with_weight (data_at G a b c).
Proof.
  intros HG. destruct (assign_weights_fold (edges G) G HG) as (R1 & R2 & R3).
  { intros e He. exists (e_data e). split; [now apply edges_data|reflexivity]. }
  split; [exact R1|]. split; [exact R2|].
  intros a b c. unfold assign_weights. rewrite R3.
  destruct (data_at G a b c) as [d|] eqn:E; [|reflexivity].
  simpl. now rewrite (covered_edges G a b c d).
Qed.

(** Two graphs with the same keys and the same data are the same. *)
Lemma graph_ext G1 G2 :
  structure_ok G1 -> same_keys G1 G2 ->
  (forall a b c, data_at G1 a b c = data_at G2 a b c) ->
  G1 = G2.
Proof.
  intros HG (K1 & K2 & K3) Hd.
  apply dict_ext; [apply (so_nodes G1 HG)|exact K1|]. intros a.
  destruct (dict_get a G1) as [nb1|] eqn:E1.
  - assert (Ha : In a (map fst G2)).
    { fold (nodes_of G2). rewrite <- K1. eapply dict_get_Some_key; eauto. }
    apply dict_key_get in Ha as [nb2 E2]. rewrite E2. f_equal.
    assert (A1 : adj G1 a = nb1) by (unfold adj; now rewrite E1).
    assert (A2 : adj G2 a = nb2) by (unfold adj; now rewrite E2).
    rewrite <- A1, <- A2.
    apply dict_ext; [apply (so_nbrs G1 HG)|apply K2|]. intros b.
    fold (nbr_at G1 a b) (nbr_at G2 a b). specialize (K3 a b).
    destruct (nbr_at G1 a b) as [kd1|] eqn:N1;
      destruct (nbr_at G2 a b) as [kd2|] eqn:N2; try discriminate; auto.
    f_equal. simpl in K3. injection K3 as K3.
    apply dict_ext; [eapply so_keys; eauto|assumption|]. intros c.
    specialize (Hd a b c). unfold data_at in Hd. now rewrite N1, N2 in Hd.
  - symmetry. apply dict_get_None. fold (nodes_of G2). rewrite <- K1.
    now apply dict_get_None.
Qed.

Lemma nodes_dict_map {V W : Type} (f : V -> W) (d : list (string * V)) :
  map fst (dict_map f d) = map fst d.
Proof. apply dict_keys_map. Qed.

Lemma adj_reweight G a :
  adj (reweight G) a = dict_map (dict_map with_weight) (adj G a).
Proof.
  unfold adj, reweight. rewrite dict_get_map.
  unfold MultiGraph, nbrdict, keydict in *.
  destruct (dict_get a G); reflexivity.
Qed.

Lemma nbr_at_reweight G a b :
  nbr_at (reweight G) a b = option_map (dict_map with_weight) (nbr_at G a b).
Proof. unfold nbr_at. now rewrite adj_reweight, dict_get_map. Qed.

Lemma data_at_reweight G a b c :
  data_at (reweight G) a b c = option_map with_weight (data_at G a b c).
Proof.
  unfold data_at. rewrite nbr_at_reweight.
  destruct (nbr_at G a b); simpl; [apply dict_get_map|reflexivity].
Qed.

Lemma same_keys_reweight G : same_keys G (reweight G).
Proof.
  repeat split.
  - unfold nodes_of, reweight. now rewrite dict_keys_map.
  - intros a. now rewrite adj_reweight, dict_keys_map.
  - intros a b. rewrite nbr_at_reweight.
    destruct (nbr_at G a b); simpl; [|reflexivity]. now rewrite dict_keys_map.
Qed.

(** The first loop of [select_tree] writes the weight of every edge and
    changes nothing else. *)
Lemma assign_weights_reweight G :
  structure_ok G -> assign_weights G = reweight G.
Proof.
  intros HG. destruct (assign_weights_spec G HG) as (R1 & R2 & R3).
  apply graph_ext; [assumption| |].
  - eapply same_keys_trans; [exact R2|apply same_keys_reweight].
  - intros a b c. now rewrite R3, data_at_reweight.
Qed.

Lemma edges_from_reweight G : forall seen,
  edges_from seen (reweight G) = map reweight_edge (edges_from seen G).
Proof.
  induction G as [|[n nbrs] G IH]; intros seen; [reflexivity|].
  unfold reweight in *. simpl. rewrite map_app, IH. f_equal.
  clear IH. induction nbrs as [|[v kd] nbrs IHn]; [reflexivity|].
  simpl. rewrite map_app, IHn. f_equal.
  destruct (mem v seen); [reflexivity|].
  unfold dict_map. rewrite !map_map. apply map_ext. now intros [k d].
Qed.

Lemma edges_reweight G : edges (reweight G) = map reweight_edge (edges G).
Proof. apply edges_from_reweight. Qed.

Lemma erase_reweight G : erase_weights (reweight G) = erase_weights G.
Proof.
  unfold erase_weights, reweight, dict_map. rewrite map_map.
  apply map_ext. intros [n nbrs]. f_equal. rewrite map_map.
  apply map_ext. intros [v kd]. f_equal. rewrite map_map.
  apply map_ext. now intros [k d].
Qed.

(** ** Union-find and the loop of Kruskal's algorithm *)

Lemma econn_trans es x y z : econn es x y -> econn es y z -> econn es x z.
Proof. intros H1 H2. induction H2; eauto using econn. Qed.

Lemma links_nodes_sym e y z : links_nodes e y z -> links_nodes e z y.
Proof. unfold links_nodes. tauto. Qed.

Lemma econn_edge es e y z : In e es -> links_nodes e y z -> econn es y z.
Proof. intros. eapply econn_step; eauto using econn. Qed.

Lemma econn_sym es x y : econn es x y -> econn es y x.
Proof.
  intros H. induction H; [constructor|].
  eapply econn_trans; [|eassumption].
  eauto using econn_edge, links_nodes_sym.
Qed.

Lemma econn_incl es1 es2 x y :
  incl es1 es2 -> econn es1 x y -> econn es2 x y.
Proof. intros Hi H. induction H; eauto using econn. Qed.

Lemma econn_nil x y : econn [] x y -> x = y.
Proof. intros H. induction H; [reflexivity|contradiction]. Qed.

(** Adding an edge between two connected nodes connects nothing new. *)
Lemma econn_redundant es e x y :
  econn es (e_u e) (e_v e) -> econn (e :: es) x y -> econn es x y.
Proof.
  intros He H. induction H as [x|x y z e' Hxy IH Hin Hl]; [constructor|].
  eapply econn_trans; [eassumption|].
  destruct Hin as [<-|Hin]; [|eauto using econn_edge].
  destruct Hl as [[<- <-]|[<- <-]]; auto using econn_sym.
Qed.

Lemma represents_init : represents uf_init [].
Proof.
  intros x y. unfold uf_init. split; [intros ->; constructor|apply econn_nil].
Qed.

Lemma represents_equiv uf es1 es2 :
  incl es1 es2 -> incl es2 es1 -> represents uf es1 -> represents uf es2.
Proof.
  intros H1 H2 R x y. rewrite (R x y). split; now apply econn_incl.
Qed.

Lemma uf_union_same uf u v x :
  uf u = uf v -> uf_union uf u v x = uf x.
Proof.
  intros E. unfold uf_union. destruct (String.eqb_spec (uf x) (uf v)); congruence.
Qed.

Lemma represents_union uf es e :
  represents uf es -> represents (uf_union uf (e_u e) (e_v e)) (e :: es).
Proof.
  intros R x y. unfold uf_union. split.
  - intros H.
    assert (Hmono : forall a b, uf a = uf b -> econn (e :: es) a b).
    { intros a b E. apply (econn_incl es); [apply incl_tl, incl_refl|].
      now apply R. }
    assert (Huv : econn (e :: es) (e_u e) (e_v e)).
    { apply (econn_edge _ e); [now left|left; auto]. }
    destruct (String.eqb_spec (uf x) (uf (e_v e))) as [Ex|Ex];
      destruct (String.eqb_spec (uf y) (uf (e_v e))) as [Ey|Ey].
    + apply Hmono. congruence.
    + apply (econn_trans _ _ (e_v e)); [now apply Hmono|].
      apply (econn_trans _ _ (e_u e)); [now apply econn_sym|now apply Hmono].
    + apply (econn_trans _ _ (e_u e)); [apply Hmono; congruence|].
      apply (econn_trans _ _ (e_v e)); [assumption|apply Hmono; congruence].
    + now apply Hmono.
  - intros H. induction H as [x|x y z e' Hxy IH Hin Hl]; [reflexivity|].
    rewrite IH. clear IH Hxy.
    destruct Hin as [<-|Hin].
    + destruct Hl as [[<- <-]|[<- <-]]; rewrite String.eqb_refl;
        destruct (String.eqb_spec (uf (e_u e)) (uf (e_v e))); congruence.
    + assert (E : uf y = uf z) by (apply R; eauto using econn_edge).
      now rewrite E.
Qed.

Lemma kruskal_uf_represents es : forall uf S,
  represents uf S -> represents (kruskal_uf uf es) (es ++ S).
Proof.
  induction es as [|e es IH]; intros uf S R; [assumption|].
  simpl. destruct (String.eqb_spec (uf (e_u e)) (uf (e_v e))) as [E|E].
  - assert (R' : represents uf (e :: S)).
    { intros x y. rewrite (R x y). split.
      - apply econn_incl, incl_tl, incl_refl.
      - apply econn_redundant. now apply R. }
    apply (represents_equiv _ (es ++ e :: S)); [| |now apply IH];
      intros a; simpl; rewrite !in_app_iff; simpl; tauto.
  - apply (represents_equiv _ (es ++ e :: S));
      [| |apply IH; now apply represents_union];
      intros a; simpl; rewrite !in_app_iff; simpl; tauto.
Qed.

(** The accepted edges connect what all the edges connect. *)
Lemma kruskal_loop_represents es : forall uf S,
  represents uf S -> represents (kruskal_uf uf es) (kruskal_loop uf es ++ S).
Proof.
  induction es as [|e es IH]; intros uf S R; [assumption|].
  simpl. destruct (String.eqb_spec (uf (e_u e)) (uf (e_v e))) as [E|E].
  - now apply IH.
  - apply (represents_equiv _
             (kruskal_loop (uf_union uf (e_u e) (e_v e)) es ++ e :: S));
      [| |apply IH; now apply represents_union];
      intros a; simpl; rewrite !in_app_iff; simpl; tauto.
Qed.

Lemma kruskal_loop_app es1 : forall uf es2,
  kruskal_loop uf (es1 ++ es2)
  = kruskal_loop uf es1 ++ kruskal_loop (kruskal_uf uf es1) es2.
Proof.
  induction es1 as [|e es1 IH]; intros uf es2; [reflexivity|].
  simpl. destruct (String.eqb (uf (e_u e)) (uf (e_v e))); simpl;
    now rewrite IH.
Qed.

Lemma kruskal_uf_app es1 : forall uf es2,
  kruskal_uf uf (es1 ++ es2) = kruskal_uf (kruskal_uf uf es1) es2.
Proof.
  induction es1 as [|e es1 IH]; intros uf es2; [reflexivity|].
  simpl. destruct (String.eqb (uf (e_u e)) (uf (e_v e))); now rewrite IH.
Qed.

Lemma kruskal_loop_incl es : forall uf, incl (kruskal_loop uf es) es.
Proof.
  induction es as [|e es IH]; intros uf; [apply incl_refl|].
  simpl. destruct (String.eqb (uf (e_u e)) (uf (e_v e))).
  - apply incl_tl, IH.
  - apply incl_cons; [now left|apply incl_tl, IH].
Qed.

Lemma kruskal_loop_length es : forall uf,
  length (kruskal_loop uf es) <= length es.
Proof.
  induction es as [|e es IH]; intros uf; [apply Nat.le_refl|].
  simpl. destruct (String.eqb (uf (e_u e)) (uf (e_v e))); simpl.
  - specialize (IH uf). lia.
  - specialize (IH (uf_union uf (e_u e) (e_v e))). lia.
Qed.

Lemma kruskal_loop_NoDup {B : Type} (f : edge -> B) es : forall uf,
  NoDup (map f es) -> NoDup (map f (kruskal_loop uf es)).
Proof.
  induction es as [|e es IH]; intros uf Hnd; [constructor|].
  simpl in *. inversion Hnd as [|? ? Hn Hnd']; subst.
  destruct (String.eqb (uf (e_u e)) (uf (e_v e))); [auto|].
  simpl. constructor; [|auto]. intros H. apply Hn.
  apply in_map_iff in H as (e' & <- & He').
  apply in_map. eapply kruskal_loop_incl; eauto.
Qed.

(** ** Counting the sets *)

Lemma uf_ok_init ns : uf_ok ns uf_init.
Proof. split; auto. Qed.

Lemma uf_ok_union ns uf u v :
  uf_ok ns uf -> In u ns -> uf_ok ns (uf_union uf u v).
Proof.
  intros [H1 H2] Hu. unfold uf_union. split.
  - intros x Hx. destruct (String.eqb (uf x) (uf v)); auto.
  - intros x. destruct (String.eqb_spec (uf x) (uf v)) as [E|E].
    + rewrite H2. destruct (String.eqb (uf u) (uf v)); reflexivity.
    + rewrite H2. destruct (String.eqb_spec (uf x) (uf v)); congruence.
Qed.

Lemma filter_remove_absent (ns : list string) a :
  ~ In a ns -> filter (fun x => negb (String.eqb x a)) ns = ns.
Proof.
  induction ns as [|n ns IH]; simpl; intros Hn; [reflexivity|].
  destruct (String.eqb_spec n a) as [->|Hne]; simpl.
  - exfalso. apply Hn. now left.
  - f_equal. apply IH. tauto.
Qed.

Lemma length_filter_remove (ns : list string) a :
  NoDup ns -> In a ns ->
  length (filter (fun x => negb (String.eqb x a)) ns) + 1 = length ns.
Proof.
  induction ns as [|n ns IH]; simpl; intros Hnd Hin; [destruct Hin|].
  inversion Hnd as [|? ? Hn Hnd']; subst.
  destruct (String.eqb_spec n a) as [->|Hne]; simpl.
  - rewrite filter_remove_absent by assumption. lia.
  - destruct Hin as [?|Hin]; [congruence|]. rewrite <- (IH Hnd' Hin). lia.
Qed.

Lemma length_filter_only (ns : list string) a :
  NoDup ns -> In a ns ->
  length (filter (fun x => String.eqb x a) ns) = 1.
Proof.
  intros Hnd Hin.
  pose proof (filter_length (fun x => String.eqb x a) ns) as H.
  pose proof (length_filter_remove ns a Hnd Hin) as H'. lia.
Qed.

Lemma filter_filter {A : Type} (p q : A -> bool) (l : list A) :
  filter p (filter q l) = filter (fun x => q x && p x) l.
Proof.
  induction l as [|a l IH]; simpl; [reflexivity|].
  destruct (q a); simpl; [destruct (p a)|]; now rewrite IH.
Qed.

Lemma uf_roots_union ns uf u v :
  uf_ok ns uf -> uf u <> uf v ->
  uf_roots ns (uf_union uf u v)
  = filter (fun x => negb (String.eqb x (uf v))) (uf_roots ns uf).
Proof.
  intros [H1 H2] Huv. unfold uf_roots. rewrite filter_filter.
  apply filter_ext. intros x. unfold uf_union.
  destruct (String.eqb_spec (uf x) (uf v)) as [E|E].
  - destruct (String.eqb_spec (uf u) x) as [Ex|Ex].
    + exfalso. apply Huv. rewrite <- E, <- Ex. now rewrite H2.
    + destruct (String.eqb_spec (uf x) x) as [Ex'|Ex']; [|reflexivity].
      simpl. destruct (String.eqb_spec x (uf v)); [reflexivity|congruence].
  - destruct (String.eqb_spec (uf x) x) as [Ex|Ex]; [|reflexivity].
    simpl. destruct (String.eqb_spec x (uf v)); [congruence|reflexivity].
Qed.

Lemma classes_union ns uf u v :
  NoDup ns -> uf_ok ns uf -> In v ns -> uf u <> uf v ->
  length (uf_roots ns (uf_union uf u v)) + 1 = length (uf_roots ns uf).
Proof.
  intros Hnd Hok Hv Huv. rewrite uf_roots_union by assumption.
  apply length_filter_remove.
  - now apply NoDup_filter.
  - destruct Hok as [H1 H2]. apply filter_In. split; [auto|].
    rewrite H2. apply String.eqb_refl.
Qed.

(** Every accepted edge merges two sets. *)
Lemma kruskal_count ns es : forall uf,
  NoDup ns -> uf_ok ns uf -> within ns es ->
  length (kruskal_loop uf es) + length (uf_roots ns (kruskal_uf uf es))
  = length (uf_roots ns uf).
Proof.
  induction es as [|e es IH]; intros uf Hnd Hok Hin; [reflexivity|].
  assert (Hin' : within ns es) by (intros e' He'; apply Hin; now right).
  destruct (Hin e (or_introl eq_refl)) as [Hu Hv].
  simpl. destruct (String.eqb_spec (uf (e_u e)) (uf (e_v e))) as [E|E].
  - now apply IH.
  - simpl. rewrite <- (classes_union ns uf (e_u e) (e_v e)) by assumption.
    rewrite <- (IH (uf_union uf (e_u e) (e_v e)));
      auto using uf_ok_union. lia.
Qed.

Lemma kruskal_uf_ok ns es : forall uf,
  uf_ok ns uf -> within ns es -> uf_ok ns (kruskal_uf uf es).
Proof.
  induction es as [|e es IH]; intros uf Hok Hin; [assumption|].
  assert (Hin' : within ns es) by (intros e' He'; apply Hin; now right).
  destruct (Hin e (or_introl eq_refl)) as [Hu Hv].
  simpl. destruct (String.eqb (uf (e_u e)) (uf (e_v e)));
    auto using uf_ok_union.
Qed.

Lemma uf_roots_init ns : uf_roots ns uf_init = ns.
Proof.
  unfold uf_roots, uf_init. induction ns as [|n ns IH]; simpl; [reflexivity|].
  now rewrite String.eqb_refl, IH.
Qed.

(** One set when all the nodes are connected. *)
Lemma classes_one ns uf n0 :
  NoDup ns -> uf_ok ns uf -> In n0 ns ->
  (forall x, In x ns -> uf x = uf n0) ->
  length (uf_roots ns uf) = 1.
Proof.
  intros Hnd [H1 H2] Hn0 Hall. unfold uf_roots.
  rewrite (filter_ext_in _ (fun x => String.eqb x (uf n0))).
  - apply length_filter_only; auto.
  - intros x Hx. now rewrite (Hall x Hx), String.eqb_sym.
Qed.

(** A finer partition has at least as many sets. *)
Lemma classes_refine ns uf1 uf2 :
  NoDup ns -> uf_ok ns uf1 ->
  (forall x y, In x ns -> In y ns -> uf1 x = uf1 y -> uf2 x = uf2 y) ->
  length (uf_roots ns uf2) <= length (uf_roots ns uf1).
Proof.
  intros Hnd [H1 H2] Href.
  rewrite <- (length_map uf1 (uf_roots ns uf2)).
  apply NoDup_incl_length.
  - apply NoDup_map_inj_in; [now apply NoDup_filter|].
    intros x y Hx Hy E. apply filter_In in Hx as [Hx Rx], Hy as [Hy Ry].
    apply String.eqb_eq in Rx, Ry. rewrite <- Rx, <- Ry. now apply Href.
  - intros r Hr. apply in_map_iff in Hr as (x & <- & Hx).
    apply filter_In in Hx as [Hx _]. apply filter_In. split; [auto|].
    rewrite H2. apply String.eqb_refl.
Qed.

(** ** Kruskal's algorithm on a connected graph *)

Section Spanning.
Variable ns : list string.
Variable es : list edge.
Hypothesis ns_NoDup : NoDup ns.
Hypothesis es_within : within ns es.

Lemma kruskal_loop_spans x y :
  econn (kruskal_loop uf_init es) x y <-> econn es x y.
Proof.
  pose proof (kruskal_loop_represents es uf_init [] represents_init) as R1.
  pose proof (kruskal_uf_represents es uf_init [] represents_init) as R2.
  rewrite app_nil_r in R1, R2. rewrite <- (R1 x y). apply R2.
Qed.

Lemma kruskal_loop_size n0 :
  In n0 ns -> (forall x, In x ns -> econn es n0 x) ->
  length (kruskal_loop uf_init es) + 1 = length ns.
Proof.
  intros Hn0 Hall.
  pose proof (kruskal_count ns es uf_init ns_NoDup (uf_ok_init ns) es_within)
    as Hc.
  rewrite uf_roots_init in Hc.
  rewrite (classes_one ns (kruskal_uf uf_init es) n0) in Hc; auto.
  - apply kruskal_uf_ok; auto using uf_ok_init.
  - intros x Hx.
    pose proof (kruskal_uf_represents es uf_init [] represents_init) as R.
    rewrite app_nil_r in R. apply R. apply econn_sym. auto.
Qed.
End Spanning.

(** ** [sorted] *)

Lemma insert_by_weight_perm e l : Permutation (insert_by_weight e l) (e :: l).
Proof.
  induction l as [|x l IH]; simpl; [reflexivity|].
  destruct (Nat.leb (edge_weight e) (edge_weight x)); [reflexivity|].
  rewrite IH. apply perm_swap.
Qed.

Lemma sorted_by_weight_perm l : Permutation (sorted_by_weight l) l.
Proof.
  induction l as [|e l IH]; simpl; [reflexivity|].
  rewrite insert_by_weight_perm. now constructor.
Qed.

Lemma In_sorted_by_weight e l : In e (sorted_by_weight l) <-> In e l.
Proof.
  split; apply Permutation_in;
    [|symmetry]; apply sorted_by_weight_perm.
Qed.

(** ** Selecting by identifier *)

Lemma NoDup_map_filter {A B : Type} (f : A -> B) (p : A -> bool) (l : list A) :
  NoDup (map f l) -> NoDup (map f (filter p l)).
Proof.
  induction l as [|a l IH]; simpl; intros Hnd; [constructor|].
  inversion Hnd as [|? ? Hn Hnd']; subst.
  destruct (p a); simpl; [|auto]. constructor; [|auto].
  intros H. apply Hn. apply in_map_iff in H as (x & <- & Hx).
  apply in_map. now apply filter_In in Hx.
Qed.

Lemma length_filter_mem {B : Type} (f : B -> string) (l : list B) ks :
  NoDup (map f l) -> NoDup ks -> incl ks (map f l) ->
  length (filter (fun b => mem (f b) ks) l) = length ks.
Proof.
  intros Hl Hk Hincl.
  rewrite <- (length_map f (filter _ l)).
  apply Permutation_length, NoDup_Permutation; [now apply NoDup_map_filter|assumption|].
  intros k. rewrite in_map_iff. split.
  - intros (b & <- & Hb). apply filter_In in Hb as [_ Hb].
    now apply mem_true_iff.
  - intros Hin. pose proof (Hincl _ Hin) as Hin'.
    apply in_map_iff in Hin' as (b & <- & Hb). exists b. split; [reflexivity|].
    apply filter_In. split; [assumption|]. now apply mem_true_iff.
Qed.

(** ** The tree selected for a connected circuit *)

Lemma nodes_of_valid cd :
  valid_circuit cd -> Permutation (nodes_of (graph_of cd)) (c_nodes cd).
Proof.
  intros (Hn & _ & Hd). apply NoDup_Permutation; [|assumption|].
  - apply so_nodes, structure_ok_graph_of.
  - intros x. rewrite graph_nodes. unfold is_node. split; [|auto].
    intros [H|(b & Hb & [<-|<-])]; [assumption| |]; now apply Hd.
Qed.

Section SelectTree.
Variable cd : circuit.
Hypothesis ids : unique_ids (c_branches cd).
Hypothesis connected : connected_circuit cd.

Let G := graph_of cd.
Let sorted := sorted_by_weight (edges (assign_weights G)).
Let T := minimum_spanning_edges (assign_weights G).

Lemma weighted_edges : edges (assign_weights G) = map reweight_edge (edges G).
Proof.
  rewrite assign_weights_reweight by apply structure_ok_graph_of.
  apply edges_reweight.
Qed.

Lemma In_sorted e :
  In e sorted <-> exists e0, In e0 (edges G) /\ e = reweight_edge e0.
Proof.
  unfold sorted. rewrite In_sorted_by_weight, weighted_edges, in_map_iff.
  split; intros (e0 & H1 & H2); eauto.
Qed.

Lemma sorted_branch e :
  In e sorted ->
  exists b, In b (c_branches cd) /\ b_id b = e_key e /\
            joins b (e_u e) (e_v e) /\
            edge_weight e = weight_of_type (b_type b).
Proof.
  intros H. apply In_sorted in H as (e0 & H0 & ->).
  destruct (graph_edge_branch cd ids e0 H0) as (b & Hb & Hi & Hj & Hd).
  exists b. repeat split; auto. unfold edge_weight. simpl. now rewrite Hd.
Qed.

Lemma branch_sorted b :
  In b (c_branches cd) ->
  exists e, In e sorted /\ e_key e = b_id b /\ joins b (e_u e) (e_v e) /\
            edge_weight e = weight_of_type (b_type b).
Proof.
  intros Hb. destruct (graph_branch_edge cd ids b Hb) as (e0 & H0 & Hi & Hj & Hd).
  exists (reweight_edge e0). repeat split; auto.
  - apply In_sorted. eauto.
  - unfold edge_weight. simpl. now rewrite Hd.
Qed.

Lemma sorted_within : within (nodes_of G) sorted.
Proof.
  intros e He. destruct (sorted_branch e He) as (b & Hb & _ & Hj & _).
  split; apply graph_nodes; right; exists b;
    (split; [assumption|]); destruct Hj as [[? ?]|[? ?]]; auto.
Qed.

Lemma sorted_keys_NoDup : NoDup (map e_key sorted).
Proof.
  apply (Permutation_NoDup (l := map e_key (edges (assign_weights G)))).
  - apply Permutation_map. symmetry. apply sorted_by_weight_perm.
  - rewrite weighted_edges, map_map. simpl.
    now apply graph_edge_keys_NoDup.
Qed.

Lemma connected_by_econn x y :
  connected_by (c_branches cd) x y <-> econn sorted x y.
Proof.
  split; intros H.
  - induction H as [x|x y z b Hxy IH Hb Hj]; [constructor|].
    destruct (branch_sorted b Hb) as (e & He & _ & Hje & _).
    eapply econn_step; [exact IH|exact He|].
    destruct Hj as [[A B]|[A B]], Hje as [[C D]|[C D]];
      unfold links_nodes; intuition congruence.
  - induction H as [x|x y z e Hxy IH He Hl]; [constructor|].
    destruct (sorted_branch e He) as (b & Hb & _ & Hj & _).
    eapply conn_step; [exact IH|exact Hb|].
    destruct Hl as [[A B]|[A B]], Hj as [[C D]|[C D]];
      unfold joins; intuition congruence.
Qed.

Lemma T_size n0 :
  In n0 (nodes_of G) -> length T + 1 = length (nodes_of G).
Proof.
  intros Hn0. unfold T, minimum_spanning_edges. fold sorted.
  apply (kruskal_loop_size _ _ (so_nodes _ (structure_ok_graph_of cd))
                           sorted_within n0 Hn0).
  intros x Hx. apply connected_by_econn, connected; now apply graph_nodes.
Qed.

Lemma T_keys_NoDup : NoDup (map e_key T).
Proof. apply kruskal_loop_NoDup, sorted_keys_NoDup. Qed.

Lemma T_keys_ids : incl (map e_key T) (map b_id (c_branches cd)).
Proof.
  intros k Hk. apply in_map_iff in Hk as (e & <- & He).
  apply kruskal_loop_incl in He.
  destruct (sorted_branch e He) as (b & Hb & <- & _). now apply in_map.
Qed.

Lemma twigs_size :
  length (filter (fun b => mem (b_id b) (map e_key T)) (c_branches cd))
  = length T.
Proof.
  rewrite (length_filter_mem b_id); auto using T_keys_NoDup, T_keys_ids.
  apply length_map.
Qed.
End SelectTree.

Lemma build_graph_null cd :
  graph_of cd = [] -> build_graph cd = Raise NetworkXPointlessConcept.
Proof. intros E. unfold build_graph. now rewrite E. Qed.

(** What [build_graph] has checked when it returns a graph. *)
Lemma build_graph_Some cd G :
  build_graph cd = Ok (Some G, None) ->
  G = graph_of cd /\ connected_circuit cd /\
  exists n0, In n0 (nodes_of (graph_of cd)).
Proof.
  intros H. destruct (build_graph_cases cd) as [[_ E]|[[Hc E]|[_ E]]];
    rewrite E in H; try discriminate.
  injection H as <-. repeat split; auto.
  destruct (graph_of cd) as [|[n0 nb] G'] eqn:EG.
  - apply build_graph_null in EG. congruence.
  - exists n0. now left.
Qed.

Lemma filter_disjoint {A : Type} (p : A -> bool) (l : list A) x :
  In x (filter p l) -> ~ In x (filter (fun y => negb (p y)) l).
Proof.
  intros H1 H2. apply filter_In in H1 as [_ H1], H2 as [_ H2].
  rewrite H1 in H2. discriminate.
Qed.

Lemma filter_partition_perm {A : Type} (p : A -> bool) (l : list A) :
  Permutation (filter p l ++ filter (fun y => negb (p y)) l) l.
Proof.
  induction l as [|a l IH]; simpl; [constructor|].
  destruct (p a); simpl.
  - now constructor.
  - rewrite <- Permutation_middle. now constructor.
Qed.

Lemma twigs_count cd G G' twigs links sorted_branches :
  valid_circuit cd ->
  build_graph cd = Ok (Some G, None) ->
  select_tree G (c_branches cd) = (G', (twigs, links, sorted_branches)) ->
  length twigs = length (c_nodes cd) - 1.
Proof.
  intros Hvalid Hbuild Hsel.
  destruct (build_graph_Some cd G Hbuild) as (-> & Hconn & n0 & Hn0).
  destruct Hvalid as (Hn & Hids & Hd).
  unfold select_tree in Hsel. injection Hsel as _ <- <- <-.
  pose proof (twigs_size cd Hids) as Ht.
  pose proof (T_size cd Hids Hconn n0 Hn0) as HT.
  rewrite (Permutation_length (nodes_of_valid cd (conj Hn (conj Hids Hd))))
    in HT.
  lia.
Qed.

(** C3.  For a valid connected circuit [select_tree] returns
    [|nodes| - 1] twigs and [|branches| - |nodes| + 1] links; no branch is
    in both lists, and the third component is the twigs followed by the
    links, a rearrangement of the branches. *)
Theorem select_tree_partition cd G G' twigs links sorted_branches :
  valid_circuit cd ->
  build_graph cd = Ok (Some G, None) ->
  select_tree G (c_branches cd) = (G', (twigs, links, sorted_branches)) ->
  length twigs = length (c_nodes cd) - 1 /\
  Z.of_nat (length links)
  = (Z.of_nat (length (c_branches cd)) - Z.of_nat (length (c_nodes cd)) + 1)%Z
  /\ (forall b, In b twigs -> ~ In b links) /\
  sorted_branches = twigs ++ links /\
  Permutation sorted_branches (c_branches cd).
Proof.
  intros Hvalid Hbuild Hsel.
  destruct (build_graph_Some cd G Hbuild) as (-> & Hconn & n0 & Hn0).
  destruct Hvalid as (Hn & Hids & Hd).
  unfold select_tree in Hsel. injection Hsel as _ <- <- <-.
  pose proof (twigs_size cd Hids) as Ht.
  pose proof (T_size cd Hids Hconn n0 Hn0) as HT.
  rewrite (Permutation_length (nodes_of_valid cd (conj Hn (conj Hids Hd))))
    in HT.
  pose proof (filter_length
                (fun b => mem (b_id b)
                   (map e_key
                      (minimum_spanning_edges (assign_weights (graph_of cd)))))
                (c_branches cd)) as Hl.
  repeat split.
  - lia.
  - lia.
  - apply filter_disjoint.
  - apply filter_partition_perm.
Qed.

Lemma series_rlc_valid : valid_circuit series_rlc.
Proof.
  repeat split.
  - repeat constructor; simpl; intuition discriminate.
  - unfold unique_ids. repeat constructor; simpl; intuition discriminate.
  - simpl in H. intuition (subst; simpl; auto).
  - simpl in H. intuition (subst; simpl; auto).
Qed.

Lemma select_tree_partition_witness :
  length [nth 0 (c_branches series_rlc) (mkBranch "" "" "" "" (q 0 1));
          nth 2 (c_branches series_rlc) (mkBranch "" "" "" "" (q 0 1))]
  = length (c_nodes series_rlc) - 1.
Proof.
  refine (proj1 (select_tree_partition series_rlc (graph_of series_rlc)
            _ _ _ _ series_rlc_valid _ _)).
  - vm_compute. reflexivity.
  - vm_compute. reflexivity.
Defined.

(** ** C5: a circuit that is not connected *)

Section Rejection.
Variables Sol Results PlotData TimePoints Images : Type.
Variable solve_equations : list expr -> list string -> result Sol.
Variable convert_to_time_domain
  : Sol -> result (Results * PlotData * TimePoints).
Variable generate_plots : PlotData -> TimePoints -> result Images.

Let solve :=
  solve_circuit Sol Results PlotData TimePoints Images
                solve_equations convert_to_time_domain generate_plots.

(** C5.  When the multigraph of the circuit is not connected,
    [build_graph] returns no graph and the error whose message asks for
    a connected graph with node '0' as reference; [solve_circuit]
    returns that error and enters no phase after the first. *)
Theorem disconnected_rejected cd :
  ~ connected_circuit cd ->
  build_graph cd = Ok (None, Some (mkError "error" unconnected_message)) /\
  unconnected_message
  = "Circuit is not connected. All nodes must form a connected graph with node '0' as reference." /\
  solve cd
  = ([GraphBuilder], Ok (Failure (mkError "error" unconnected_message))).
Proof.
  intros Hnc. destruct (build_graph_cases cd) as [[E _]|[[Hc _]|[_ E]]].
  - exfalso. apply Hnc. intros x y Hx _. apply graph_nodes in Hx.
    rewrite E in Hx. destruct Hx.
  - contradiction.
  - repeat split; [assumption|]. unfold solve, solve_circuit.
    rewrite E. reflexivity.
Qed.
End Rejection.

Lemma two_islands_disconnected : ~ connected_circuit two_islands.
Proof.
  intros H. assert (Hc : connected_by [] "0" "1").
  { apply (H "0" "1"); left; simpl; auto. }
  remember "0" as x. remember "1" as y.
  assert (E : x = y) by (induction Hc; [reflexivity|contradiction]).
  subst. discriminate.
Qed.

Lemma disconnected_rejected_witness :
  build_graph two_islands
  = Ok (None, Some (mkError "error" unconnected_message)).
Proof.
  exact (proj1 (disconnected_rejected unit unit unit unit unit
                  (fun _ _ => Ok tt) (fun _ => Ok (tt, tt, tt))
                  (fun _ _ => Ok tt) two_islands two_islands_disconnected)).
Defined.

(** ** The equations *)

Lemma mapM_length {A B : Type} (f : A -> result B) (l : list A) : forall ys,
  mapM f l = Ok ys -> length ys = length l.
Proof.
  induction l as [|x l IH]; simpl; intros ys H.
  - now injection H as <-.
  - destruct (f x) as [y|]; [|discriminate]. simpl in H.
    destruct (mapM f l) as [ys'|]; [|discriminate]. simpl in H.
    injection H as <-. simpl. f_equal. now apply IH.
Qed.

Lemma constitutive_symbols V_sym I_sym i b :
  nth i V_sym "" = ("V_" ++ b_id b)%string ->
  nth i I_sym "" = ("I_" ++ b_id b)%string ->
  constitutive V_sym I_sym i b = branch_equation b.
Proof.
  intros HV HI. unfold branch_equation, constitutive. simpl nth.
  now rewrite HV, HI.
Qed.

Lemma constitutive_enumerate (f g : branch -> string) bs : forall pre,
  (forall b, f b = ("V_" ++ b_id b)%string) ->
  (forall b, g b = ("I_" ++ b_id b)%string) ->
  flat_map (fun '(i, b) =>
              constitutive (map f (pre ++ bs)) (map g (pre ++ bs)) i b)
           (combine (seq (length pre) (length bs)) bs)
  = flat_map branch_equation bs.
Proof.
  induction bs as [|b bs IH]; intros pre Hf Hg; [reflexivity|].
  simpl. f_equal.
  - apply constitutive_symbols.
    + rewrite map_app, app_nth2; rewrite length_map; [|lia].
      rewrite Nat.sub_diag. simpl. apply Hf.
    + rewrite map_app, app_nth2; rewrite length_map; [|lia].
      rewrite Nat.sub_diag. simpl. apply Hg.
  - specialize (IH (pre ++ [b]) Hf Hg).
    rewrite <- !app_assoc, length_app, Nat.add_1_r in IH. exact IH.
Qed.

(** The shape of what [build_equations] returns. *)
Lemma build_equations_Ok bs Q B nt nl eqs unks :
  build_equations bs Q B nt nl = Ok (eqs, unks) ->
  exists kcl kvl,
    length kcl = nt /\ length kvl = nl /\
    eqs = kcl ++ kvl ++ flat_map branch_equation bs /\
    unks = map (fun b => ("V_" ++ b_id b)%string) bs
           ++ map (fun b => ("I_" ++ b_id b)%string) bs.
Proof.
  unfold build_equations. intros H.
  destruct (mapM _ (seq 0 nt)) as [kcl|] eqn:E1; [|discriminate].
  simpl in H.
  destruct (mapM _ (seq 0 nl)) as [kvl|] eqn:E2; [|discriminate].
  simpl in H. injection H as <- <-.
  apply mapM_length in E1, E2. rewrite length_seq in E1, E2.
  exists kcl, kvl. repeat split; auto. do 2 f_equal.
  apply (constitutive_enumerate _ _ bs []); reflexivity.
Qed.

Lemma branch_equation_known b :
  known_type (b_type b) ->
  exists e t, branch_equation b = [e] /\ table_expression b = Some t /\
              (b_type b <> "C" -> e = t) /\
              forall env, eval env e = eval env t.
Proof.
  unfold branch_equation, constitutive, table_expression. simpl nth.
  intros [E|[E|[E|[E|E]]]]; rewrite E; simpl;
    eexists; eexists; (split; [reflexivity|]); (split; [reflexivity|]);
    (split; [try reflexivity; congruence|]); intros env; try reflexivity.
  simpl. unfold Qcdiv. ring.
Qed.

Lemma branch_equation_unknown b :
  ~ known_type (b_type b) -> branch_equation b = [].
Proof.
  intros H. unfold branch_equation, constitutive, known_type in *.
  destruct (String.eqb_spec (b_type b) "R"); [tauto|].
  destruct (String.eqb_spec (b_type b) "L"); [tauto|].
  destruct (String.eqb_spec (b_type b) "C"); [tauto|].
  destruct (String.eqb_spec (b_type b) "V"); [tauto|].
  destruct (String.eqb_spec (b_type b) "I"); [tauto|].
  reflexivity.
Qed.

Lemma length_branch_equations bs :
  (forall b, In b bs -> known_type (b_type b)) ->
  length (flat_map branch_equation bs) = length bs.
Proof.
  induction bs as [|b bs IH]; intros H; [reflexivity|].
  simpl. rewrite length_app, IH by (intros; apply H; now right).
  destruct (branch_equation_known b (H b (or_introl eq_refl)))
    as (e & _ & -> & _). reflexivity.
Qed.

Lemma length_branch_equations_le bs :
  length (flat_map branch_equation bs) <= length bs.
Proof.
  induction bs as [|b bs IH]; [apply Nat.le_refl|].
  simpl. rewrite length_app.
  assert (length (branch_equation b) <= 1); [|lia].
  unfold branch_equation, constitutive.
  repeat (destruct (String.eqb _ _); [simpl; lia|]). simpl. lia.
Qed.

(** ** C4: the constitutive equations *)

Lemma c1_equation_value env :
  eval env c1_equation
  = (env "V_C1" - env "I_C1" / (q 1 10 * env "s"))%Qc /\
  eval env c1_equation
  = (env "V_C1" - q 10 1 * env "I_C1" / env "s")%Qc.
Proof.
  unfold c1_equation. simpl. unfold Qcdiv.
  rewrite !Qcinv_mult_distr.
  assert (E : (/ q 1 10)%Qc = q 10 1) by (apply Qc_is_canon; reflexivity).
  rewrite E. split; ring.
Qed.

(** C4.  The equations that [build_equations] returns end with one
    constitutive equation per branch, in branch order; for a branch of one
    of the five types it is the expression of the table (for a capacitor
    written [V - I * (1 / (s * C))], which has the value of
    [V - I / (s * C)]).  In the series RLC circuit the equation of [C1] is
    [V_C1 - I_C1 * (1 / (s * 0.1))], the fifth of the six equations, and
    has the value of [V_C1 - I_C1 / (0.1 * s)] and of [V_C1 - 10 * I_C1 / s]. *)
Theorem constitutive_by_type :
  (forall bs Q B nt nl eqs unks,
      build_equations bs Q B nt nl = Ok (eqs, unks) ->
      (exists kcl kvl,
          length kcl = nt /\ length kvl = nl /\
          eqs = kcl ++ kvl ++ flat_map branch_equation bs) /\
      forall b, In b bs -> known_type (b_type b) ->
        exists e t, branch_equation b = [e] /\ table_expression b = Some t /\
                    (b_type b <> "C" -> e = t) /\
                    forall env, eval env e = eval env t) /\
  (exists eqs unks,
      assemble series_rlc = (all_phases, Ok (Success (eqs, unks) tt tt)) /\
      length eqs = 6 /\
      nth_error eqs 4 = Some c1_equation /\
      forall env,
        eval env c1_equation
        = (env "V_C1" - env "I_C1" / (q 1 10 * env "s"))%Qc /\
        eval env c1_equation
        = (env "V_C1" - q 10 1 * env "I_C1" / env "s")%Qc).
Proof.
  split.
  - intros bs Q B nt nl eqs unks H.
    destruct (build_equations_Ok _ _ _ _ _ _ _ H)
      as (kcl & kvl & H1 & H2 & H3 & _).
    split; [eauto|]. intros b _. apply branch_equation_known.
  - eexists. eexists. split; [vm_compute; reflexivity|].
    split; [reflexivity|]. split; [vm_compute; reflexivity|].
    apply c1_equation_value.
Qed.

Lemma constitutive_by_type_witness :
  exists e t,
    branch_equation (mkBranch "R1" "1" "2" "R" (q 5 1)) = [e] /\
    table_expression (mkBranch "R1" "1" "2" "R" (q 5 1)) = Some t /\
    (b_type (mkBranch "R1" "1" "2" "R" (q 5 1)) <> "C" -> e = t) /\
    forall env, eval env e = eval env t.
Proof.
  refine (proj2 (proj1 constitutive_by_type
                   [mkBranch "R1" "1" "2" "R" (q 5 1)]
                   (zeros 0 1) (zeros 0 1) 0 0 _ _ _) _ _ _).
  - vm_compute. reflexivity.
  - simpl. auto.
  - unfold known_type. simpl. auto.
Defined.

(** ** C10: a branch of an unknown type *)

(** C10.  For the circuit [odd_type], whose only branch has type ["X"],
    [build_equations] is reached and returns: the branch has no
    constitutive equation, and the system has one equation for two
    unknowns. *)
Theorem unknown_type_not_square :
  exists b Q B eqs unks,
    c_branches odd_type = [b] /\ ~ known_type (b_type b) /\
    branch_equation b = [] /\
    build_equations [b] Q B 1 0 = Ok (eqs, unks) /\
    assemble odd_type = (all_phases, Ok (Success (eqs, unks) tt tt)) /\
    length eqs = 1 /\ length unks = 2 /\ length eqs < length unks.
Proof.
  exists (mkBranch "X1" "1" "0" "X" (q 1 1)).
  exists (mkArray 1 1 [[1%Qc]]), (mkArray 0 1 []).
  eexists. eexists.
  split; [reflexivity|]. split.
  { unfold known_type. simpl. intuition discriminate. }
  split; [reflexivity|].
  split; [vm_compute; reflexivity|].
  split; [vm_compute; reflexivity|].
  simpl. repeat split; lia.
Qed.

(** ** C9: what [select_tree] does to the graph *)

(** The claim as the specification words it fails on the series RLC
    circuit: the edge [V1] has no weight before and weight 0 after. *)
Lemma select_tree_mutates_graph :
  let G := graph_of series_rlc in
  let G' := fst (select_tree G (c_branches series_rlc)) in
  option_map a_weight (data_at G "1" "0" "V1") = Some None /\
  option_map a_weight (data_at G' "1" "0" "V1") = Some (Some 0) /\
  G' <> G.
Proof.
  assert (H1 : option_map a_weight
                 (data_at (graph_of series_rlc) "1" "0" "V1") = Some None)
    by (vm_compute; reflexivity).
  assert (H2 : option_map a_weight
                 (data_at (fst (select_tree (graph_of series_rlc)
                                  (c_branches series_rlc))) "1" "0" "V1")
               = Some (Some 0))
    by (vm_compute; reflexivity).
  repeat split; auto. intros E. rewrite E, H1 in H2. discriminate.
Qed.

(** C9, amended.  On the graph of any circuit [select_tree] writes the
    weight of every edge (0 for a voltage source, 100 for a current source,
    1 otherwise) and changes nothing else: the nodes, the neighbours, the
    keys, and the type and value of every edge are as before. *)
Theorem select_tree_writes_weights cd bs :
  let G := graph_of cd in
  let G' := fst (select_tree G bs) in
  G' = reweight G /\
  erase_weights G' = erase_weights G /\
  nodes_of G' = nodes_of G /\
  edges G' = map reweight_edge (edges G) /\
  forall u v k,
    data_at G' u v k = option_map with_weight (data_at G u v k).
Proof.
  simpl.
  assert (E : assign_weights (graph_of cd) = reweight (graph_of cd))
    by apply assign_weights_reweight, structure_ok_graph_of.
  rewrite E. split; [reflexivity|]. split; [apply erase_reweight|].
  split; [|split].
  - symmetry. apply same_keys_reweight.
  - apply edges_reweight.
  - intros. apply data_at_reweight.
Qed.

(** ** Finite sums *)

Open Scope Qc_scope.

Lemma sum_upto_ext n f g :
  (forall k, (k < n)%nat -> f k = g k) -> sum_upto n f = sum_upto n g.
Proof.
  induction n as [|n IH]; intros H; [reflexivity|].
  simpl. rewrite IH, H by auto. reflexivity.
Qed.

Lemma sum_upto_zero n f :
  (forall k, (k < n)%nat -> f k = Q2Qc 0) -> sum_upto n f = Q2Qc 0.
Proof.
  induction n as [|n IH]; intros H; [reflexivity|].
  simpl. rewrite IH, H by auto. ring.
Qed.

Lemma sum_upto_plus n f g :
  sum_upto n (fun k => f k + g k) = sum_upto n f + sum_upto n g.
Proof. induction n as [|n IH]; simpl; [ring|rewrite IH; ring]. Qed.

Lemma sum_upto_minus n f g :
  sum_upto n (fun k => f k - g k) = sum_upto n f - sum_upto n g.
Proof. induction n as [|n IH]; simpl; [ring|rewrite IH; ring]. Qed.

Lemma sum_upto_scale n c f :
  sum_upto n (fun k => c * f k) = c * sum_upto n f.
Proof. induction n as [|n IH]; simpl; [ring|rewrite IH; ring]. Qed.

Lemma sum_upto_app n m f :
  sum_upto (n + m) f = sum_upto n f + sum_upto m (fun k => f (n + k)%nat).
Proof.
  induction m as [|m IH]; simpl.
  - rewrite Nat.add_0_r. ring.
  - rewrite Nat.add_succ_r. simpl. rewrite IH. ring.
Qed.

Lemma sum_upto_tail n m f :
  (m <= n)%nat -> (forall k, (m <= k < n)%nat -> f k = Q2Qc 0) ->
  sum_upto n f = sum_upto m f.
Proof.
  intros Hle H. replace n with (m + (n - m))%nat by lia.
  rewrite sum_upto_app, (sum_upto_zero (n - m)); [ring|].
  intros k Hk. apply H. lia.
Qed.

Lemma delta_refl i : delta i i = 1.
Proof. unfold delta. now rewrite Nat.eqb_refl. Qed.

Lemma delta_neq i j : i <> j -> delta i j = Q2Qc 0.
Proof. intros H. unfold delta. apply Nat.eqb_neq in H. now rewrite H. Qed.

Lemma delta_sym i j : delta i j = delta j i.
Proof. unfold delta. now rewrite Nat.eqb_sym. Qed.

Lemma sum_upto_delta n i f :
  (i < n)%nat -> sum_upto n (fun k => delta i k * f k) = f i.
Proof.
  induction n as [|n IH]; intros Hi; [lia|]. simpl.
  destruct (Nat.eq_dec i n) as [->|Hne].
  - rewrite delta_refl, sum_upto_zero; [ring|].
    intros k Hk. rewrite delta_neq by lia. ring.
  - rewrite IH by lia. rewrite delta_neq by assumption. ring.
Qed.

Lemma sum_upto_delta_r n i f :
  (i < n)%nat -> sum_upto n (fun k => f k * delta k i) = f i.
Proof.
  intros Hi. rewrite <- (sum_upto_delta n i f Hi).
  apply sum_upto_ext. intros k _. rewrite (delta_sym k i). ring.
Qed.

Lemma sum_upto_swap n m (f : nat -> nat -> Qc) :
  sum_upto n (fun i => sum_upto m (fun j => f i j))
  = sum_upto m (fun j => sum_upto n (fun i => f i j)).
Proof.
  induction n as [|n IH]; simpl.
  - symmetry. now apply sum_upto_zero.
  - rewrite IH, <- sum_upto_plus. reflexivity.
Qed.

(** ** Rows *)

Lemma nth_vscale k r j :
  nth j (vscale k r) (Q2Qc 0) = k * nth j r (Q2Qc 0).
Proof.
  unfold vscale. replace (Q2Qc 0) with (k * Q2Qc 0) at 1 by ring.
  apply map_nth.
Qed.

Lemma length_vscale k r : length (vscale k r) = length r.
Proof. apply length_map. Qed.

Lemma length_map2 {X Y Z : Type} (f : X -> Y -> Z) l1 : forall l2,
  length (map2 f l1 l2) = Nat.min (length l1) (length l2).
Proof.
  induction l1 as [|x l1 IH]; intros [|y l2]; simpl; auto.
Qed.

Lemma nth_vsub r : forall p j,
  length r = length p ->
  nth j (vsub r p) (Q2Qc 0) = nth j r (Q2Qc 0) - nth j p (Q2Qc 0).
Proof.
  unfold vsub. induction r as [|x r IH]; intros [|y p] j H; try discriminate.
  - destruct j; simpl; ring.
  - destruct j; simpl; [reflexivity|]. apply IH. now injection H.
Qed.

Lemma length_vsub r p : length r = length p -> length (vsub r p) = length r.
Proof. intros H. unfold vsub. rewrite length_map2, H. apply Nat.min_id. Qed.

Lemma length_eliminate c p r :
  length r = length p -> length (eliminate c p r) = length r.
Proof.
  intros H. unfold eliminate. apply length_vsub. now rewrite length_vscale.
Qed.

Lemma nth_eliminate c p r j :
  length r = length p ->
  nth j (eliminate c p r) (Q2Qc 0)
  = nth j r (Q2Qc 0) - nth c r (Q2Qc 0) * nth j p (Q2Qc 0).
Proof.
  intros H. unfold eliminate.
  rewrite nth_vsub by now rewrite length_vscale.
  now rewrite nth_vscale.
Qed.

Lemma rdot_vscale k r z : rdot (vscale k r) z = k * rdot r z.
Proof.
  unfold rdot. rewrite length_vscale, <- sum_upto_scale.
  apply sum_upto_ext. intros j _. rewrite nth_vscale. ring.
Qed.

Lemma rdot_eliminate c p r z :
  length r = length p ->
  rdot (eliminate c p r) z = rdot r z - nth c r (Q2Qc 0) * rdot p z.
Proof.
  intros H. unfold rdot. rewrite length_eliminate by assumption.
  rewrite <- H, <- sum_upto_scale, <- sum_upto_minus.
  apply sum_upto_ext. intros j _. rewrite nth_eliminate by assumption. ring.
Qed.

Close Scope Qc_scope.

(** ** Gauss-Jordan elimination *)

Lemma Qc_eq_bool_false x y : Qc_eq_bool x y = false -> x <> y.
Proof. unfold Qc_eq_bool. destruct (Qc_eq_dec x y); [discriminate|auto]. Qed.

Lemma find_pivot_Some c todo : forall before p after,
  find_pivot c todo = Some (before, p, after) ->
  todo = before ++ p :: after /\ nth c p (Q2Qc 0) <> Q2Qc 0.
Proof.
  induction todo as [|r todo IH]; simpl; intros before p after H;
    [discriminate|].
  destruct (Qc_eq_bool (nth c r (Q2Qc 0)) (Q2Qc 0)) eqn:E.
  - destruct (find_pivot c todo) as [[[b' p'] a']|]; [|discriminate].
    injection H as <- <- <-. destruct (IH _ _ _ eq_refl) as [-> Hp].
    split; [reflexivity|assumption].
  - injection H as <- <- <-. split; [reflexivity|].
    now apply Qc_eq_bool_false.
Qed.

Lemma find_pivot_None c todo :
  find_pivot c todo = None ->
  forall r, In r todo -> nth c r (Q2Qc 0) = Q2Qc 0.
Proof.
  induction todo as [|r0 todo IH]; simpl; intros H r Hr; [destruct Hr|].
  destruct (Qc_eq_bool (nth c r0 (Q2Qc 0)) (Q2Qc 0)) eqn:E.
  - destruct (find_pivot c todo) as [[[b' p'] a']|]; [discriminate|].
    destruct Hr as [<-|Hr]; [now apply Qc_eq_bool_correct|auto].
  - discriminate.
Qed.

Lemma nth_map_default {A B : Type} (f : A -> B) l i d d' :
  i < length l -> nth i (map f l) d' = f (nth i l d).
Proof.
  intros H. rewrite (nth_indep _ d' (f d)) by now rewrite length_map.
  apply map_nth.
Qed.

Open Scope Qc_scope.

Lemma Qcmult_cancel k x : k <> Q2Qc 0 -> k * x = Q2Qc 0 -> x = Q2Qc 0.
Proof.
  intros Hk H. replace x with (/ k * (k * x)).
  - rewrite H. ring.
  - rewrite Qcmult_assoc, Qcmult_inv_l by assumption. ring.
Qed.

Lemma Qcinv_nonzero k : k <> Q2Qc 0 -> / k <> Q2Qc 0.
Proof.
  intros Hk H. assert (E : k * / k = 1) by now apply Qcmult_inv_r.
  rewrite H in E. replace (k * Q2Qc 0) with (Q2Qc 0) in E by ring.
  discriminate.
Qed.

Section Step.
Variables (n w : nat) (rows0 : list (list Qc)).
Variables (c : nat) (done before after : list (list Qc)) (p : list Qc).
Hypothesis inv : gj_inv n w rows0 c done (before ++ p :: after).
Hypothesis pivot : nth c p (Q2Qc 0) <> Q2Qc 0.

Let p' := vscale (/ nth c p (Q2Qc 0)) p.
Let E := eliminate c p'.

Lemma step_p_width : length p = w.
Proof.
  apply (gj_width _ _ _ _ _ _ inv). rewrite !in_app_iff. simpl. auto.
Qed.

Lemma step_p'_width : length p' = w.
Proof. unfold p'. rewrite length_vscale. apply step_p_width. Qed.

Lemma step_p'_low j : (j < c)%nat -> nth j p' (Q2Qc 0) = Q2Qc 0.
Proof.
  intros Hj. unfold p'. rewrite nth_vscale.
  rewrite (gj_zero _ _ _ _ _ _ inv p j); [ring| |assumption].
  apply in_or_app. right. now left.
Qed.

Lemma step_p'_pivot : nth c p' (Q2Qc 0) = 1.
Proof. unfold p'. rewrite nth_vscale. now apply Qcmult_inv_l. Qed.

Lemma step_old_width r :
  In r (done ++ before ++ after) -> length r = length p'.
Proof.
  intros H. rewrite step_p'_width. apply (gj_width _ _ _ _ _ _ inv).
  rewrite !in_app_iff in *. simpl. tauto.
Qed.

Lemma step_rdot_p z : rdot p' z = Q2Qc 0 <-> rdot p z = Q2Qc 0.
Proof.
  unfold p'. rewrite rdot_vscale. split.
  - apply Qcmult_cancel. now apply Qcinv_nonzero.
  - intros ->. ring.
Qed.

Lemma step_null z :
  annihilates ((map E done ++ [p']) ++ map E (before ++ after)) z
  <-> annihilates (done ++ before ++ p :: after) z.
Proof.
  split; intros H.
  - assert (Hp : rdot p z = Q2Qc 0).
    { apply step_rdot_p, H. rewrite !in_app_iff. simpl. auto. }
    assert (Hp' : rdot p' z = Q2Qc 0) by now apply step_rdot_p.
    assert (Hold : forall r, In r (done ++ before ++ after) ->
                             rdot r z = Q2Qc 0).
    { intros r Hr.
      assert (HE : rdot (E r) z = Q2Qc 0).
      { apply H. rewrite map_app, !in_app_iff in *.
        destruct Hr as [Hr|[Hr|Hr]]; auto using in_map. }
      unfold E in HE. rewrite rdot_eliminate, Hp' in HE
        by now apply step_old_width.
      rewrite <- HE. ring. }
    intros r Hr. rewrite !in_app_iff in Hr. simpl in Hr.
    destruct Hr as [Hr|[Hr|[<-|Hr]]]; auto;
      apply Hold; rewrite !in_app_iff; auto.
  - assert (Hp : rdot p z = Q2Qc 0).
    { apply H. rewrite !in_app_iff. simpl. auto. }
    assert (Hp' : rdot p' z = Q2Qc 0) by now apply step_rdot_p.
    assert (Hnew : forall r, In r (done ++ before ++ after) ->
                             rdot (E r) z = Q2Qc 0).
    { intros r Hr. unfold E. rewrite rdot_eliminate, Hp'
        by now apply step_old_width.
      rewrite H; [ring|]. rewrite !in_app_iff in *. simpl. tauto. }
    intros r Hr. rewrite map_app, !in_app_iff in Hr. simpl in Hr.
    destruct Hr as [[Hr|[<-|[]]]|[Hr|Hr]]; auto;
      apply in_map_iff in Hr as (r0 & <- & Hr0);
      apply Hnew; rewrite !in_app_iff; auto.
Qed.

Lemma gj_step :
  gj_inv n w rows0 (S c) (map E done ++ [p']) (map E (before ++ after)).
Proof.
  pose proof (gj_done _ _ _ _ _ _ inv) as Hd.
  pose proof (gj_todo _ _ _ _ _ _ inv) as Ht.
  rewrite length_app in Ht. simpl in Ht.
  split.
  - rewrite length_app, length_map. simpl. lia.
  - rewrite !length_app, !length_map, length_app. simpl. lia.
  - intros r Hr. rewrite map_app, !in_app_iff in Hr. simpl in Hr.
    assert (HE : forall r0, In r0 (done ++ before ++ after) ->
                            length (E r0) = w).
    { intros r0 H0. unfold E. rewrite length_eliminate
        by now apply step_old_width.
      rewrite (step_old_width r0 H0). apply step_p'_width. }
    destruct Hr as [[Hr|[<-|[]]]|[Hr|Hr]];
      try apply step_p'_width;
      apply in_map_iff in Hr as (r0 & <- & Hr0);
      apply HE; rewrite !in_app_iff; auto.
  - intros i j Hi Hj.
    destruct (Nat.eq_dec i c) as [->|Hic].
    + rewrite app_nth2; rewrite length_map, Hd; [|lia].
      rewrite Nat.sub_diag. simpl.
      destruct (Nat.eq_dec j c) as [->|Hjc].
      * rewrite delta_refl. apply step_p'_pivot.
      * rewrite delta_neq by lia. apply step_p'_low. lia.
    + rewrite app_nth1 by (rewrite length_map; lia).
      rewrite (nth_map_default E done i []) by lia.
      unfold E. rewrite nth_eliminate.
      2:{ apply step_old_width. apply in_or_app. left. apply nth_In. lia. }
      destruct (Nat.eq_dec j c) as [->|Hjc].
      * rewrite step_p'_pivot, delta_neq by assumption. ring.
      * rewrite step_p'_low by lia.
        rewrite (gj_unit _ _ _ _ _ _ inv i j) by lia. ring.
  - intros r j Hr Hj. apply in_map_iff in Hr as (r0 & <- & Hr0).
    assert (Hin : In r0 (before ++ p :: after)).
    { rewrite in_app_iff in *. simpl. tauto. }
    unfold E. rewrite nth_eliminate.
    2:{ apply step_old_width. rewrite !in_app_iff in *. tauto. }
    destruct (Nat.eq_dec j c) as [->|Hjc].
    * rewrite step_p'_pivot. ring.
    * rewrite step_p'_low by lia.
      rewrite (gj_zero _ _ _ _ _ _ inv r0 j Hin) by lia. ring.
  - intros z. rewrite step_null. apply (gj_null _ _ _ _ _ _ inv).
Qed.
End Step.

(** The elimination ends with [n] reduced rows, or stops at a column
    without pivot. *)
Lemma gj_run n w rows0 steps : forall c done todo,
  gj_inv n w rows0 c done todo -> (steps + c = n)%nat ->
  match gauss_jordan steps c done todo with
  | Some final => gj_inv n w rows0 n final []
  | None =>
      exists c' done' todo',
        (c' < n)%nat /\ gj_inv n w rows0 c' done' todo' /\
        forall r, In r todo' -> nth c' r (Q2Qc 0) = Q2Qc 0
  end.
Proof.
  induction steps as [|steps IH]; intros c done todo Hinv Hc; simpl.
  - simpl in Hc. subst c.
    pose proof (gj_done _ _ _ _ _ _ Hinv) as Hd.
    pose proof (gj_todo _ _ _ _ _ _ Hinv) as Ht.
    destruct todo; [assumption|simpl in Ht; lia].
  - destruct (find_pivot c todo) as [[[before p] after]|] eqn:E.
    + apply find_pivot_Some in E as [-> Hp].
      apply IH; [|lia]. now apply gj_step.
    + exists c, done, todo. split; [lia|]. split; [assumption|].
      now apply find_pivot_None.
Qed.

Close Scope Qc_scope.

(** ** [np.linalg.inv] *)

Lemma In_map2 {X Y Z : Type} (f : X -> Y -> Z) l1 : forall l2 z,
  In z (map2 f l1 l2) -> exists x y, In x l1 /\ In y l2 /\ z = f x y.
Proof.
  induction l1 as [|x l1 IH]; intros [|y l2] z H; simpl in H; try contradiction.
  destruct H as [<-|H].
  - exists x, y. simpl. auto.
  - destruct (IH _ _ H) as (x' & y' & ? & ? & ?). exists x', y'. simpl. auto.
Qed.

Lemma nth_map2 {X Y Z : Type} (f : X -> Y -> Z) l1 : forall l2 i dx dy dz,
  i < length l1 -> i < length l2 ->
  nth i (map2 f l1 l2) dz = f (nth i l1 dx) (nth i l2 dy).
Proof.
  induction l1 as [|x l1 IH]; intros [|y l2] i dx dy dz H1 H2;
    simpl in *; try lia.
  destruct i; [reflexivity|]. apply IH; lia.
Qed.

Lemma annihilates_nth rows z :
  annihilates rows z
  <-> forall i, i < length rows -> rdot (nth i rows []) z = Q2Qc 0.
Proof.
  split.
  - intros H i Hi. apply H. now apply nth_In.
  - intros H r Hr. apply (In_nth _ _ []) in Hr as (i & Hi & <-). auto.
Qed.

Lemma wf_row A i :
  wf_array A -> i < nrows A -> length (nth i (cells A) []) = ncols A.
Proof. intros [H1 H2] Hi. apply H2. apply nth_In. lia. Qed.

Lemma wf_eye n : wf_array (eye n).
Proof.
  split; simpl.
  - now rewrite length_map, length_seq.
  - intros r Hr. apply in_map_iff in Hr as (i & <- & _).
    now rewrite length_map, length_seq.
Qed.

Lemma eye_row n i :
  i < n -> nth i (cells (eye n)) [] = map (delta i) (seq 0 n).
Proof.
  intros Hi. simpl.
  rewrite (nth_map_default _ (seq 0 n) i 0) by now rewrite length_seq.
  now rewrite seq_nth.
Qed.

Lemma nth_unit_row n i k :
  k < n -> nth k (map (delta i) (seq 0 n)) (Q2Qc 0) = delta i k.
Proof.
  intros Hk. rewrite (nth_map_default _ (seq 0 n) k 0) by now rewrite length_seq.
  now rewrite seq_nth.
Qed.

Lemma get_eye n i j : i < n -> j < n -> get (eye n) i j = delta i j.
Proof.
  intros Hi Hj. unfold get. rewrite eye_row by assumption.
  now apply nth_unit_row.
Qed.

Open Scope Qc_scope.

Lemma rdot_app l1 l2 z :
  rdot (l1 ++ l2) z
  = rdot l1 z + rdot l2 (fun k => z (length l1 + k)%nat).
Proof.
  unfold rdot. rewrite length_app, sum_upto_app. f_equal.
  - apply sum_upto_ext. intros k Hk. now rewrite app_nth1.
  - apply sum_upto_ext. intros k Hk.
    rewrite app_nth2 by lia. do 2 f_equal. lia.
Qed.

Section Inverse.
Variable A : ndarray.
Variable n : nat.
Hypothesis A_wf : wf_array A.
Hypothesis A_rows : nrows A = n.
Hypothesis A_cols : ncols A = n.

Lemma augmented_length : length (augmented A) = n.
Proof.
  unfold augmented. rewrite length_map2, (proj1 A_wf), A_rows.
  rewrite (proj1 (wf_eye n)). simpl. apply Nat.min_id.
Qed.

Lemma augmented_row i :
  (i < n)%nat ->
  nth i (augmented A) []
  = nth i (cells A) [] ++ map (delta i) (seq 0 n).
Proof.
  intros Hi. unfold augmented. rewrite A_rows.
  rewrite (nth_map2 _ _ _ i [] []).
  - now rewrite eye_row.
  - rewrite (proj1 A_wf). lia.
  - rewrite (proj1 (wf_eye n)). simpl. lia.
Qed.

Lemma rdot_augmented i z :
  (i < n)%nat ->
  rdot (nth i (augmented A) []) z
  = sum_upto n (fun k => get A i k * z k) + z (n + i)%nat.
Proof.
  intros Hi. rewrite augmented_row, rdot_app by assumption.
  rewrite wf_row by (auto; lia). rewrite A_cols. f_equal.
  - unfold rdot. rewrite wf_row by (auto; lia). now rewrite A_cols.
  - unfold rdot. rewrite length_map, length_seq.
    rewrite <- (sum_upto_delta n i (fun k => z (n + k)%nat)) by assumption.
    apply sum_upto_ext. intros k Hk. now rewrite nth_unit_row.
Qed.

Lemma gj_start : gj_inv n (n + n) (augmented A) 0 [] (augmented A).
Proof.
  split; simpl; try lia.
  - apply augmented_length.
  - intros r Hr. apply In_map2 in Hr as (a & e & Ha & He & ->).
    rewrite length_app, (proj2 A_wf a Ha), A_cols.
    rewrite A_rows in He. now rewrite (proj2 (wf_eye n) e He).
  - reflexivity.
Qed.

Section Reduced.
Variable final : list (list Qc).
Hypothesis final_inv : gj_inv n (n + n) (augmented A) n final [].

Let B := mkArray n n (map (skipn n) final).

Lemma final_length : length final = n.
Proof. apply (gj_done _ _ _ _ _ _ final_inv). Qed.

Lemma final_width i :
  (i < n)%nat -> length (nth i final []) = (n + n)%nat.
Proof.
  intros Hi. apply (gj_width _ _ _ _ _ _ final_inv).
  rewrite app_nil_r. apply nth_In. now rewrite final_length.
Qed.

Lemma inverse_wf : wf_array B.
Proof.
  split; simpl.
  - now rewrite length_map, final_length.
  - intros r Hr. apply in_map_iff in Hr as (r0 & <- & Hr0).
    rewrite length_skipn.
    rewrite (gj_width _ _ _ _ _ _ final_inv r0); [lia|].
    now rewrite app_nil_r.
Qed.

Lemma get_inverse i k :
  (i < n)%nat -> get B i k = nth (n + k) (nth i final []) (Q2Qc 0).
Proof.
  intros Hi. unfold get, B. simpl.
  rewrite (nth_map_default _ final i []) by now rewrite final_length.
  apply nth_skipn.
Qed.

Lemma rdot_final i z :
  (i < n)%nat ->
  rdot (nth i final []) z
  = z i + sum_upto n (fun k => get B i k * z (n + k)%nat).
Proof.
  intros Hi. unfold rdot. rewrite final_width, sum_upto_app by assumption.
  f_equal.
  - rewrite <- (sum_upto_delta n i z) by assumption.
    apply sum_upto_ext. intros k Hk.
    now rewrite (gj_unit _ _ _ _ _ _ final_inv i k).
  - apply sum_upto_ext. intros k Hk. now rewrite get_inverse.
Qed.

Lemma final_null z :
  (forall i, (i < n)%nat ->
     z i + sum_upto n (fun k => get B i k * z (n + k)%nat) = Q2Qc 0)
  <-> (forall i, (i < n)%nat ->
         sum_upto n (fun k => get A i k * z k) + z (n + i)%nat = Q2Qc 0).
Proof.
  pose proof (gj_null _ _ _ _ _ _ final_inv z) as H.
  rewrite app_nil_r, !annihilates_nth in H.
  rewrite final_length, augmented_length in H.
  split; intros Hz.
  - intros i Hi. rewrite <- rdot_augmented by assumption.
    apply H; [|assumption]. intros i' Hi'. rewrite rdot_final; auto.
  - intros i Hi. rewrite <- rdot_final by assumption.
    apply H; [|assumption]. intros i' Hi'. rewrite rdot_augmented; auto.
Qed.

Lemma inverse_left i j :
  (i < n)%nat -> (j < n)%nat -> mul_at B A i j = delta i j.
Proof.
  intros Hi Hj.
  set (z := fun k => if (k <? n)%nat then delta k j
                     else - get A (k - n) j).
  assert (Hz : forall i', (i' < n)%nat ->
             sum_upto n (fun k => get A i' k * z k) + z (n + i')%nat
             = Q2Qc 0).
  { intros i' Hi'. unfold z.
    replace (n + i' <? n)%nat with false
      by (symmetry; apply Nat.ltb_ge; lia).
    replace (n + i' - n)%nat with i' by lia.
    rewrite (sum_upto_ext n _ (fun k => get A i' k * delta k j)).
    - rewrite sum_upto_delta_r by assumption. ring.
    - intros k Hk. apply Nat.ltb_lt in Hk. now rewrite Hk. }
  pose proof (proj2 (final_null z) Hz i Hi) as Hz'.
  clear Hz. rename Hz' into Hz. unfold z in Hz.
  apply Nat.ltb_lt in Hi as Hi'. rewrite Hi' in Hz.
  rewrite (sum_upto_ext n _ (fun k => (- (1)) * (get B i k * get A k j)))
    in Hz.
  - rewrite sum_upto_scale in Hz. unfold mul_at. simpl.
    rewrite <- (Qcplus_0_r (sum_upto n _)), <- Hz. ring.
  - intros k Hk.
    replace (n + k <? n)%nat with false
      by (symmetry; apply Nat.ltb_ge; lia).
    replace (n + k - n)%nat with k by lia. ring.
Qed.

Lemma inverse_right i j :
  (i < n)%nat -> (j < n)%nat -> mul_at A B i j = delta i j.
Proof.
  intros Hi Hj.
  set (z := fun k => if (k <? n)%nat then - get B k j
                     else delta (k - n) j).
  assert (Hz : forall i', (i' < n)%nat ->
             z i' + sum_upto n (fun k => get B i' k * z (n + k)%nat)
             = Q2Qc 0).
  { intros i' Hi'. unfold z.
    apply Nat.ltb_lt in Hi' as Hi''. rewrite Hi''.
    rewrite (sum_upto_ext n _ (fun k => get B i' k * delta k j)).
    - rewrite sum_upto_delta_r by assumption. ring.
    - intros k Hk.
      replace (n + k <? n)%nat with false
        by (symmetry; apply Nat.ltb_ge; lia).
      now replace (n + k - n)%nat with k by lia. }
  pose proof (proj1 (final_null z) Hz i Hi) as Hz'.
  clear Hz. rename Hz' into Hz. unfold z in Hz.
  replace (n + i <? n)%nat with false in Hz
    by (symmetry; apply Nat.ltb_ge; lia).
  replace (n + i - n)%nat with i in Hz by lia.
  rewrite (sum_upto_ext n _ (fun k => (- (1)) * (get A i k * get B k j)))
    in Hz.
  - rewrite sum_upto_scale in Hz. unfold mul_at. rewrite A_cols.
    rewrite <- (Qcplus_0_r (sum_upto n _)), <- Hz. ring.
  - intros k Hk. apply Nat.ltb_lt in Hk. rewrite Hk. ring.
Qed.

Lemma final_inverse : inverse_of A B.
Proof.
  split; [congruence|]. split; [apply inverse_wf|].
  split; [simpl; congruence|]. split; [simpl; congruence|].
  rewrite A_rows. intros i j Hi Hj.
  split; [now apply inverse_left|now apply inverse_right].
Qed.
End Reduced.

Section Stuck.
Variables (c : nat) (done todo : list (list Qc)).
Hypothesis stuck_col : (c < n)%nat.
Hypothesis stuck_inv : gj_inv n (n + n) (augmented A) c done todo.
Hypothesis stuck_zero :
  forall r, In r todo -> nth c r (Q2Qc 0) = Q2Qc 0.

Let z : nat -> Qc :=
  fun k => if (k <? c)%nat then nth c (nth k done []) (Q2Qc 0)
           else if (k =? c)%nat then - (1) else Q2Qc 0.

Lemma stuck_rdot r :
  length r = (n + n)%nat ->
  rdot r z
  = sum_upto c (fun k => nth k r (Q2Qc 0) * z k) - nth c r (Q2Qc 0).
Proof.
  intros Hr. unfold rdot. rewrite Hr.
  rewrite (sum_upto_tail (n + n) (S c)); [|lia|].
  - simpl. unfold z at 2. rewrite Nat.ltb_irrefl, Nat.eqb_refl. ring.
  - intros k Hk. unfold z.
    replace (k <? c)%nat with false by (symmetry; apply Nat.ltb_ge; lia).
    replace (k =? c)%nat with false by (symmetry; apply Nat.eqb_neq; lia).
    ring.
Qed.

Lemma stuck_annihilates : annihilates (done ++ todo) z.
Proof.
  pose proof (gj_done _ _ _ _ _ _ stuck_inv) as Hd.
  intros r Hr.
  rewrite stuck_rdot by now apply (gj_width _ _ _ _ _ _ stuck_inv).
  apply in_app_or in Hr as [Hr|Hr].
  - apply (In_nth _ _ []) in Hr as (i & Hi & <-). rewrite Hd in Hi.
    rewrite (sum_upto_ext c _
               (fun k => delta i k * nth c (nth k done []) (Q2Qc 0))).
    + rewrite sum_upto_delta by assumption. ring.
    + intros k Hk. rewrite (gj_unit _ _ _ _ _ _ stuck_inv i k) by lia.
      unfold z. apply Nat.ltb_lt in Hk. now rewrite Hk.
  - rewrite stuck_zero by assumption.
    rewrite sum_upto_zero; [ring|]. intros k Hk.
    rewrite (gj_zero _ _ _ _ _ _ stuck_inv r k) by assumption. ring.
Qed.

Lemma stuck_kernel i :
  (i < n)%nat -> sum_upto n (fun k => get A i k * z k) = Q2Qc 0.
Proof.
  intros Hi.
  pose proof (proj1 (gj_null _ _ _ _ _ _ stuck_inv z) stuck_annihilates)
    as H0.
  pose proof (proj1 (annihilates_nth _ _) H0 i) as H.
  rewrite augmented_length in H. specialize (H Hi).
  rewrite rdot_augmented in H by assumption.
  assert (E : z (n + i)%nat = Q2Qc 0).
  { unfold z.
    replace (n + i <? c)%nat with false
      by (symmetry; apply Nat.ltb_ge; lia).
    replace (n + i =? c)%nat with false
      by (symmetry; apply Nat.eqb_neq; lia).
    reflexivity. }
  rewrite E in H. rewrite <- H. ring.
Qed.

Lemma stuck_singular : ~ invertible A.
Proof.
  intros (B & _ & _ & HBr & HBc & HB).
  assert (H1 : sum_upto n (fun i =>
                 get B c i * sum_upto n (fun k => get A i k * z k))
               = Q2Qc 0).
  { apply sum_upto_zero. intros i Hi. rewrite stuck_kernel by assumption.
    ring. }
  assert (H2 : sum_upto n (fun i =>
                 get B c i * sum_upto n (fun k => get A i k * z k))
               = z c).
  { rewrite (sum_upto_ext n _
               (fun i => sum_upto n
                           (fun k => get B c i * get A i k * z k))).
    2:{ intros i _. rewrite <- sum_upto_scale. apply sum_upto_ext.
        intros k _. ring. }
    rewrite sum_upto_swap.
    rewrite (sum_upto_ext n _ (fun k => delta c k * z k)).
    - now apply sum_upto_delta.
    - intros k Hk.
      rewrite (sum_upto_ext n _ (fun i => z k * (get B c i * get A i k)))
        by (intros; ring).
      rewrite sum_upto_scale.
      destruct (HB c k) as [HBA _]; try lia.
      unfold mul_at in HBA. rewrite HBc, A_rows in HBA.
      rewrite HBA. ring. }
  rewrite H1 in H2. unfold z in H2.
  rewrite Nat.ltb_irrefl, Nat.eqb_refl in H2. discriminate.
Qed.
End Stuck.

(** [np.linalg.inv] returns the inverse of a square array that has one. *)
Lemma augmented_eq :
  map2 (@app Qc) (cells A) (cells (eye n)) = augmented A.
Proof. unfold augmented. now rewrite A_rows. Qed.

Lemma linalg_inv_Ok B : linalg_inv A = Ok B -> inverse_of A B.
Proof.
  unfold linalg_inv. rewrite A_rows, A_cols, Nat.eqb_refl, augmented_eq.
  pose proof (gj_run n (n + n) (augmented A) n 0 [] (augmented A)
                gj_start (Nat.add_0_r n)) as H.
  destruct (gauss_jordan n 0 [] (augmented A)) as [final|]; [|discriminate].
  intros E. injection E as <-. now apply final_inverse.
Qed.

(** It fails on a square array exactly when the array has no inverse. *)
Lemma linalg_inv_Raise e :
  linalg_inv A = Raise e ->
  e = LinAlgError "Singular matrix" /\ ~ invertible A.
Proof.
  unfold linalg_inv. rewrite A_rows, A_cols, Nat.eqb_refl, augmented_eq.
  pose proof (gj_run n (n + n) (augmented A) n 0 [] (augmented A)
                gj_start (Nat.add_0_r n)) as H.
  destruct (gauss_jordan n 0 [] (augmented A)) as [final|]; [discriminate|].
  intros E. injection E as <-. split; [reflexivity|].
  destruct H as (c & done & todo & Hc & Hinv & Hz).
  eapply stuck_singular; eauto.
Qed.
End Inverse.

Close Scope Qc_scope.

(** ** Operations on arrays *)

Open Scope Qc_scope.

Lemma nth_map_fix {X Y : Type} (f : X -> Y) l i d d' :
  f d = d' -> nth i (map f l) d' = f (nth i l d).
Proof. intros <-. apply map_nth. Qed.

Lemma nth_nil_Qc j : nth j (@nil Qc) (Q2Qc 0) = Q2Qc 0.
Proof. now destruct j. Qed.

Lemma get_outside_rows A i j :
  (length (cells A) <= i)%nat -> get A i j = Q2Qc 0.
Proof.
  intros H. unfold get. rewrite (nth_overflow (cells A)) by assumption.
  apply nth_nil_Qc.
Qed.

Lemma wf_cols_to A k : wf_array A -> wf_array (cols_to A k).
Proof.
  intros [H1 H2]. split; simpl.
  - now rewrite length_map.
  - intros r Hr. apply in_map_iff in Hr as (r0 & <- & Hr0).
    now rewrite length_firstn, (H2 r0 Hr0).
Qed.

Lemma get_cols_to A k i j : (j < k)%nat -> get (cols_to A k) i j = get A i j.
Proof.
  intros Hj. unfold get. simpl.
  rewrite (nth_map_fix (firstn k) _ i [] []) by apply firstn_nil.
  rewrite nth_firstn. apply Nat.ltb_lt in Hj. now rewrite Hj.
Qed.

Lemma wf_cols_from A k : wf_array A -> wf_array (cols_from A k).
Proof.
  intros [H1 H2]. split; simpl.
  - now rewrite length_map.
  - intros r Hr. apply in_map_iff in Hr as (r0 & <- & Hr0).
    now rewrite length_skipn, (H2 r0 Hr0).
Qed.

Lemma get_cols_from A k i j : get (cols_from A k) i j = get A i (k + j).
Proof.
  unfold get. simpl.
  rewrite (nth_map_fix (skipn k) _ i [] []) by apply skipn_nil.
  apply nth_skipn.
Qed.

Lemma wf_neg A : wf_array A -> wf_array (neg A).
Proof.
  intros [H1 H2]. split; simpl.
  - now rewrite length_map.
  - intros r Hr. apply in_map_iff in Hr as (r0 & <- & Hr0).
    now rewrite length_map, (H2 r0 Hr0).
Qed.

Lemma get_neg A i j : get (neg A) i j = - get A i j.
Proof.
  unfold get. simpl.
  rewrite (nth_map_fix (map Qcopp) _ i [] []) by reflexivity.
  apply nth_map_fix. ring.
Qed.

Lemma nth_column A j k : nth k (column A j) (Q2Qc 0) = get A k j.
Proof.
  unfold column, get.
  apply (nth_map_fix (fun r => nth j r (Q2Qc 0))). apply nth_nil_Qc.
Qed.

Lemma wf_transpose A : wf_array A -> wf_array (transpose A).
Proof.
  intros [H1 H2]. split; simpl.
  - now rewrite length_map, length_seq.
  - intros r Hr. apply in_map_iff in Hr as (j & <- & _).
    unfold column. now rewrite length_map.
Qed.

Lemma get_transpose A i j :
  (i < ncols A)%nat -> get (transpose A) i j = get A j i.
Proof.
  intros Hi. unfold get at 1. simpl.
  rewrite (nth_map_default _ (seq 0 (ncols A)) i 0%nat)
    by now rewrite length_seq.
  rewrite seq_nth by assumption. apply nth_column.
Qed.

Lemma dotv_sum r : forall c,
  dotv r c
  = sum_upto (length r) (fun k => nth k r (Q2Qc 0) * nth k c (Q2Qc 0)).
Proof.
  induction r as [|x r IH]; intros c; [reflexivity|].
  destruct c as [|y c].
  - simpl dotv. symmetry. apply sum_upto_zero. intros k _.
    rewrite nth_nil_Qc. ring.
  - simpl dotv. rewrite IH. change (length (x :: r)) with (1 + length r)%nat.
    rewrite sum_upto_app. simpl. ring.
Qed.

Lemma dot_Ok A B :
  ncols A = nrows B ->
  exists C, dot A B = Ok C /\ nrows C = nrows A /\ ncols C = ncols B /\
            (wf_array A -> wf_array C) /\
            (wf_array A -> forall i j,
               (i < nrows A)%nat -> (j < ncols B)%nat ->
               get C i j = mul_at A B i j).
Proof.
  intros E. unfold dot. apply Nat.eqb_eq in E. rewrite E.
  eexists. split; [reflexivity|]. simpl. repeat split.
  - simpl. rewrite length_map. apply H.
  - simpl. intros r Hr. apply in_map_iff in Hr as (r0 & <- & _).
    now rewrite length_map, length_seq.
  - intros HA i j Hi Hj. unfold get. simpl.
    rewrite (nth_map_default _ (cells A) i [])
      by (rewrite (proj1 HA); assumption).
    rewrite (nth_map_default _ (seq 0 (ncols B)) j 0%nat)
      by now rewrite length_seq.
    rewrite seq_nth by assumption. simpl.
    rewrite dotv_sum, wf_row by assumption. unfold mul_at.
    apply sum_upto_ext. intros k _. now rewrite nth_column.
Qed.

Lemma hstack_Ok A B :
  nrows A = nrows B -> wf_array A -> wf_array B ->
  exists C, hstack A B = Ok C /\ nrows C = nrows A /\
            ncols C = (ncols A + ncols B)%nat /\ wf_array C /\
            forall i j, (i < nrows A)%nat ->
              get C i j = if (j <? ncols A)%nat then get A i j
                          else get B i (j - ncols A).
Proof.
  intros E HA HB. unfold hstack. apply Nat.eqb_eq in E as E'. rewrite E'.
  eexists. split; [reflexivity|]. simpl. repeat split.
  - simpl. rewrite length_map2, (proj1 HA), (proj1 HB), E. apply Nat.min_id.
  - simpl. intros r Hr. apply In_map2 in Hr as (a & b & Ha & Hb & ->).
    now rewrite length_app, (proj2 HA a Ha), (proj2 HB b Hb).
  - intros i j Hi. unfold get. simpl.
    rewrite (nth_map2 _ _ _ i [] [])
      by (rewrite ?(proj1 HA), ?(proj1 HB); lia).
    destruct (Nat.ltb_spec j (ncols A)) as [Hj|Hj].
    + apply app_nth1. now rewrite wf_row.
    + rewrite app_nth2; rewrite wf_row by assumption; [reflexivity|lia].
Qed.

Lemma hstack_Raise A B : nrows A <> nrows B -> hstack A B = Raise ValueError.
Proof.
  intros E. unfold hstack. apply Nat.eqb_neq in E. now rewrite E.
Qed.

(** The inverse of an array is unique. *)
Lemma inverse_unique A B B' i j :
  inverse_of A B -> inverse_of A B' ->
  (i < nrows A)%nat -> (j < nrows A)%nat -> get B i j = get B' i j.
Proof.
  intros (Hsq & _ & HBr & HBc & HB) (_ & _ & HBr' & HBc' & HB') Hi Hj.
  set (n := nrows A) in *.
  transitivity (sum_upto n (fun k => get B i k * delta k j)).
  { now rewrite sum_upto_delta_r. }
  rewrite (sum_upto_ext n _
             (fun k => sum_upto n
                         (fun l => get B i k * get A k l * get B' l j))).
  2:{ intros k Hk. destruct (HB' k j Hk Hj) as [_ <-].
      unfold mul_at. rewrite <- Hsq. fold n. rewrite <- sum_upto_scale.
      apply sum_upto_ext. intros; ring. }
  rewrite sum_upto_swap.
  rewrite (sum_upto_ext n _ (fun l => delta i l * get B' l j)).
  { now rewrite sum_upto_delta. }
  intros l Hl. destruct (HB i l Hi Hl) as [<- _].
  unfold mul_at. rewrite HBc. fold n.
  rewrite (sum_upto_ext n _ (fun k => get B' l j * (get B i k * get A k l)))
    by (intros; ring).
  rewrite sum_upto_scale. ring.
Qed.

Close Scope Qc_scope.

(** ** C2 and C6: the cut-set and tie-set matrices *)

Open Scope Qc_scope.

Lemma not_square_singular A : nrows A <> ncols A -> ~ invertible A.
Proof. intros H (B & Hsq & _). contradiction. Qed.

Lemma linalg_inv_cases A :
  wf_array A ->
  (exists B, linalg_inv A = Ok B /\ inverse_of A B) \/
  (exists msg, linalg_inv A = Raise (LinAlgError msg) /\ ~ invertible A).
Proof.
  intros HA. destruct (Nat.eq_dec (nrows A) (ncols A)) as [E|E].
  - destruct (linalg_inv A) as [B|e] eqn:EI.
    + left. exists B. split; [reflexivity|].
      now apply (linalg_inv_Ok A (nrows A)).
    + right. destruct (linalg_inv_Raise A (nrows A) HA eq_refl (eq_sym E) e EI)
        as [-> Hs]. eauto.
  - right. unfold linalg_inv. apply Nat.eqb_neq in E as E'. rewrite E'.
    eexists. split; [reflexivity|]. now apply not_square_singular.
Qed.

Lemma mul_at_ext_l A A' B i j :
  ncols A = ncols A' ->
  (forall k, (k < ncols A)%nat -> get A i k = get A' i k) ->
  mul_at A B i j = mul_at A' B i j.
Proof.
  intros Hc H. unfold mul_at. rewrite <- Hc. apply sum_upto_ext.
  intros k Hk. now rewrite H.
Qed.

(** The outcome of [get_cutset_matrix] on an array whose twig columns have
    no inverse. *)
Lemma cutset_singular A_red nt nl :
  wf_array A_red -> ~ invertible (cols_to A_red nt) ->
  exists details,
    get_cutset_matrix A_red nt nl
    = Ok (None, Some (mkError "error" (singular_message details))).
Proof.
  intros HA Hs. unfold get_cutset_matrix.
  destruct (linalg_inv_cases (cols_to A_red nt) (wf_cols_to _ _ HA))
    as [(B & _ & HB)|(msg & -> & _)].
  - exfalso. apply Hs. now exists B.
  - now exists msg.
Qed.

(** ... and on one whose twig columns have the inverse [Ainv]. *)
Lemma cutset_regular A_red nt nl Ainv :
  wf_array A_red -> (nt <= ncols A_red)%nat ->
  inverse_of (cols_to A_red nt) Ainv ->
  exists Q,
    get_cutset_matrix A_red nt nl = Ok (Some Q, None) /\
    wf_array Q /\ nrows Q = nt /\ ncols Q = ncols A_red /\
    (forall i j, (i < nt)%nat -> (j < nt)%nat -> get Q i j = delta i j) /\
    (forall i j, (i < nt)%nat -> (j < ncols A_red - nt)%nat ->
       get Q i (nt + j) = - mul_at Ainv (cols_from A_red nt) i j).
Proof.
  intros HA Hle Hinv.
  pose proof (wf_cols_to A_red nt HA) as HAt.
  pose proof (wf_cols_from A_red nt HA) as HAl.
  assert (Hrows : nrows A_red = nt).
  { destruct Hinv as (Hsq & _). simpl in Hsq. lia. }
  unfold get_cutset_matrix.
  destruct (linalg_inv_cases (cols_to A_red nt) HAt)
    as [(B0 & -> & HB0)|(msg & _ & Hs)]; [|exfalso; apply Hs; now exists Ainv].
  pose proof HB0 as (_ & HB0wf & HB0r & HB0c & _).
  simpl in HB0r, HB0c. rewrite Hrows in HB0r, HB0c.
  destruct (dot_Ok B0 (cols_from A_red nt)) as (P & -> & HPr & HPc & HPwf & HP).
  { simpl. congruence. }
  simpl. specialize (HPwf HB0wf). specialize (HP HB0wf).
  destruct (hstack_Ok (eye nt) (neg P)) as (Q & -> & HQr & HQc & HQwf & HQ).
  { simpl. congruence. }
  { apply wf_eye. }
  { now apply wf_neg. }
  simpl in *. exists Q. split; [reflexivity|]. split; [assumption|].
  split; [assumption|]. split; [lia|]. split.
  - intros i j Hi Hj. rewrite HQ by assumption.
    apply Nat.ltb_lt in Hj as Hj'. rewrite Hj'. now apply get_eye.
  - intros i j Hi Hj. rewrite HQ by assumption.
    replace (nt + j <? nt)%nat with false by (symmetry; apply Nat.ltb_ge; lia).
    replace (nt + j - nt)%nat with j by lia.
    rewrite get_neg, HP by lia. f_equal.
    apply mul_at_ext_l.
    + destruct Hinv as (_ & _ & _ & Hc & _). simpl in Hc. lia.
    + intros k Hk. apply (inverse_unique (cols_to A_red nt)); auto; simpl; lia.
Qed.

Lemma tieset_Ok Q_l nt nl :
  wf_array Q_l -> ncols Q_l = nl ->
  exists B,
    get_tieset_matrix Q_l nt nl = Ok B /\
    wf_array B /\ nrows B = nl /\ ncols B = (nrows Q_l + nl)%nat /\
    (forall i j, (i < nl)%nat -> (j < nrows Q_l)%nat ->
       get B i j = - get Q_l j i) /\
    (forall i j, (i < nl)%nat -> (j < nl)%nat ->
       get B i (nrows Q_l + j) = delta i j).
Proof.
  intros HQ Hc. unfold get_tieset_matrix.
  destruct (hstack_Ok (neg (transpose Q_l)) (eye nl))
    as (B & -> & HBr & HBc & HBwf & HB).
  { simpl. assumption. }
  { now apply wf_neg, wf_transpose. }
  { apply wf_eye. }
  simpl in *. exists B. split; [reflexivity|]. split; [assumption|].
  split; [lia|]. split; [assumption|]. split.
  - intros i j Hi Hj. rewrite HB by lia.
    apply Nat.ltb_lt in Hj as Hj'. rewrite Hj'.
    rewrite get_neg, get_transpose by lia. reflexivity.
  - intros i j Hi Hj. rewrite HB by lia.
    replace (nrows Q_l + j <? nrows Q_l)%nat with false
      by (symmetry; apply Nat.ltb_ge; lia).
    replace (nrows Q_l + j - nrows Q_l)%nat with j by lia.
    now apply get_eye.
Qed.

(** C2.  When the twig columns [A_t] of the reduced incidence matrix have
    the inverse [Ainv], [get_cutset_matrix] returns [Q] whose first
    [n_twigs] columns are the identity and whose other columns are
    [- Ainv . A_l], and [get_tieset_matrix] on those columns [Q_l] returns
    [B] whose first [n_twigs] columns are [- Q_l] transposed and whose last
    [n_links] columns are the identity. *)
Theorem cutset_tieset_blocks A_red n_twigs n_links Ainv :
  wf_array A_red ->
  ncols A_red = (n_twigs + n_links)%nat ->
  inverse_of (cols_to A_red n_twigs) Ainv ->
  exists Q B,
    get_cutset_matrix A_red n_twigs n_links = Ok (Some Q, None) /\
    get_tieset_matrix (cols_from Q n_twigs) n_twigs n_links = Ok B /\
    (nrows Q = n_twigs /\ ncols Q = (n_twigs + n_links)%nat) /\
    (forall i j, (i < n_twigs)%nat -> (j < n_twigs)%nat ->
       get Q i j = delta i j) /\
    (forall i j, (i < n_twigs)%nat -> (j < n_links)%nat ->
       get Q i (n_twigs + j)
       = - mul_at Ainv (cols_from A_red n_twigs) i j) /\
    (nrows B = n_links /\ ncols B = (n_twigs + n_links)%nat) /\
    (forall i j, (i < n_links)%nat -> (j < n_twigs)%nat ->
       get B i j = - get Q j (n_twigs + i)) /\
    (forall i j, (i < n_links)%nat -> (j < n_links)%nat ->
       get B i (n_twigs + j) = delta i j).
Proof.
  intros HA Hc Hinv.
  destruct (cutset_regular A_red n_twigs n_links Ainv HA) as
    (Q & HQ & HQwf & HQr & HQc & HQ1 & HQ2); [lia|assumption|].
  destruct (tieset_Ok (cols_from Q n_twigs) n_twigs n_links)
    as (B & HB & HBwf & HBr & HBc & HB1 & HB2).
  { now apply wf_cols_from. }
  { simpl. lia. }
  simpl in HBc, HB1, HB2. rewrite HQr in HBc, HB1, HB2.
  exists Q, B. split; [assumption|]. split; [assumption|].
  split; [split; lia|]. split; [assumption|]. split.
  { intros i j Hi Hj. apply HQ2; lia. }
  split; [split; lia|]. split; [|assumption].
  intros i j Hi Hj. rewrite HB1 by assumption. now rewrite get_cols_from.
Qed.

Lemma rlc_A_red_wf : wf_array rlc_A_red.
Proof.
  split; [reflexivity|]. simpl. intros r [<-|[<-|[]]]; reflexivity.
Qed.

Lemma rlc_twigs_inverse : inverse_of (cols_to rlc_A_red 2) (eye 2).
Proof.
  split; [reflexivity|]. split; [apply wf_eye|].
  split; [reflexivity|]. split; [reflexivity|].
  simpl. intros i j Hi Hj.
  destruct i as [|[|i]]; [| |lia]; (destruct j as [|[|j]]; [| |lia]);
    split; apply Qc_is_canon; reflexivity.
Qed.

Lemma cutset_tieset_blocks_witness :
  exists Q B,
    get_cutset_matrix rlc_A_red 2 1 = Ok (Some Q, None) /\
    get_tieset_matrix (cols_from Q 2) 2 1 = Ok B /\
    (nrows Q = 2%nat /\ ncols Q = (2 + 1)%nat) /\
    (forall i j, (i < 2)%nat -> (j < 2)%nat -> get Q i j = delta i j) /\
    (forall i j, (i < 2)%nat -> (j < 1)%nat ->
       get Q i (2 + j) = - mul_at (eye 2) (cols_from rlc_A_red 2) i j) /\
    (nrows B = 1%nat /\ ncols B = (2 + 1)%nat) /\
    (forall i j, (i < 1)%nat -> (j < 2)%nat ->
       get B i j = - get Q j (2 + i)) /\
    (forall i j, (i < 1)%nat -> (j < 1)%nat -> get B i (2 + j) = delta i j).
Proof.
  exact (cutset_tieset_blocks rlc_A_red 2 1 (eye 2)
           rlc_A_red_wf eq_refl rlc_twigs_inverse).
Defined.

(** C6.  [get_cutset_matrix] returns the error exactly when the twig
    columns have no inverse; what it returns is either no matrix and the
    error, or a matrix and no error. *)
Theorem cutset_error_iff_singular A_red n_twigs n_links :
  wf_array A_red ->
  ((exists error,
       get_cutset_matrix A_red n_twigs n_links = Ok (None, Some error))
   <-> ~ invertible (cols_to A_red n_twigs)) /\
  (forall Q error,
      get_cutset_matrix A_red n_twigs n_links = Ok (Q, error) ->
      (Q = None /\
       (exists details,
           error = Some (mkError "error" (singular_message details))) /\
       ~ invertible (cols_to A_red n_twigs)) \/
      (exists M, Q = Some M /\ error = None /\
                 invertible (cols_to A_red n_twigs))).
Proof.
  intros HA.
  assert (Hret : forall Q error,
             get_cutset_matrix A_red n_twigs n_links = Ok (Q, error) ->
             (Q = None /\
              (exists details,
                  error = Some (mkError "error" (singular_message details)))
              /\ ~ invertible (cols_to A_red n_twigs)) \/
             (exists M, Q = Some M /\ error = None /\
                        invertible (cols_to A_red n_twigs))).
  { intros Q error. unfold get_cutset_matrix.
    destruct (linalg_inv_cases (cols_to A_red n_twigs) (wf_cols_to _ _ HA))
      as [(B0 & -> & HB0)|(msg & -> & Hs)].
    - destruct (dot B0 (cols_from A_red n_twigs)) as [P|]; [|discriminate].
      simpl. destruct (hstack (eye n_twigs) (neg P)) as [M|]; [|discriminate].
      simpl. intros E. injection E as <- <-. right. exists M.
      repeat split. now exists B0.
    - intros E. injection E as <- <-. left. eauto. }
  split; [|exact Hret]. split.
  - intros (error & E). destruct (Hret _ _ E) as [(_ & _ & Hs)|(M & HM & _)];
      [assumption|discriminate].
  - intros Hs. destruct (cutset_singular A_red n_twigs n_links HA Hs)
      as (details & E). eauto.
Qed.

Lemma cutset_error_iff_singular_witness :
  (exists error, get_cutset_matrix rlc_A_red 2 1 = Ok (None, Some error))
  <-> ~ invertible (cols_to rlc_A_red 2).
Proof.
  exact (proj1 (cutset_error_iff_singular rlc_A_red 2 1 rlc_A_red_wf)).
Defined.

Close Scope Qc_scope.

(** ** The incidence matrix *)

Lemma index_fold xs : forall k (d : list (string * nat)) x,
  let d' := fold_left (fun d '(i, y) => dict_set y i d)
                      (combine (seq k (length xs)) xs) d in
  (In x xs -> exists i, dict_get x d' = Some i /\ k <= i < k + length xs) /\
  (~ In x xs -> dict_get x d' = dict_get x d).
Proof.
  induction xs as [|y ys IH]; intros k d x; simpl.
  - split; [intros []|reflexivity].
  - destruct (IH (S k) (dict_set y k d) x) as [IH1 IH2].
    destruct (in_dec string_dec x ys) as [Hin|Hnin].
    + split; [|tauto]. intros _. destruct (IH1 Hin) as (i & Hi & Hb).
      exists i. split; [assumption|lia].
    + rewrite (IH2 Hnin), dict_get_set. split.
      * intros [->|?]; [|contradiction]. rewrite String.eqb_refl.
        exists k. split; [reflexivity|lia].
      * intros H. destruct (String.eqb_spec x y) as [->|]; tauto.
Qed.

Lemma index_map_In xs x :
  In x xs -> exists i, dict_get x (index_map xs) = Some i /\ i < length xs.
Proof.
  intros H. destruct (proj1 (index_fold xs 0 [] x) H) as (i & Hi & Hb).
  exists i. split; [assumption|lia].
Qed.

Lemma index_map_notin xs x : ~ In x xs -> dict_get x (index_map xs) = None.
Proof. intros H. apply (proj2 (index_fold xs 0 [] x) H). Qed.

Lemma index_map_bound xs x i :
  dict_get x (index_map xs) = Some i -> i < length xs.
Proof.
  intros H. destruct (in_dec string_dec x xs) as [Hin|Hnin].
  - destruct (index_map_In xs x Hin) as (i' & Hi' & Hb). congruence.
  - rewrite index_map_notin in H by assumption. discriminate.
Qed.

Lemma length_update_nth {T : Type} (f : T -> T) l : forall i,
  length (update_nth i f l) = length l.
Proof.
  induction l as [|x l IH]; intros [|i]; simpl; auto.
Qed.

Lemma In_update_nth {T : Type} (f : T -> T) l : forall i y,
  In y (update_nth i f l) -> In y l \/ exists x, In x l /\ y = f x.
Proof.
  induction l as [|x l IH]; intros [|i] y H; simpl in *; try tauto.
  - destruct H as [<-|H]; eauto.
  - destruct H as [<-|H]; auto.
    destruct (IH _ _ H) as [?|(x' & ? & ?)]; eauto.
Qed.

Lemma wf_zeros n m : wf_array (zeros n m).
Proof.
  split; simpl.
  - apply repeat_length.
  - intros r Hr. apply repeat_spec in Hr. subst. apply repeat_length.
Qed.

Lemma setitem_Ok A i j x :
  wf_array A -> i < nrows A -> j < ncols A ->
  exists A', setitem A i j x = Ok A' /\ wf_array A' /\
             nrows A' = nrows A /\ ncols A' = ncols A.
Proof.
  intros [H1 H2] Hi Hj. unfold setitem.
  apply Nat.ltb_lt in Hi, Hj. rewrite Hi, Hj. simpl.
  eexists. split; [reflexivity|]. repeat split; simpl.
  - now rewrite length_update_nth.
  - intros r Hr. apply In_update_nth in Hr as [Hr|(r0 & Hr0 & ->)]; auto.
    rewrite length_update_nth. auto.
Qed.

Lemma In_firstn_In {T : Type} (l : list T) n x : In x (firstn n l) -> In x l.
Proof.
  intros H. rewrite <- (firstn_skipn n l). apply in_or_app. now left.
Qed.

Lemma In_skipn_In {T : Type} (l : list T) n x : In x (skipn n l) -> In x l.
Proof.
  intros H. rewrite <- (firstn_skipn n l). apply in_or_app. now right.
Qed.

Lemma delete_row_Ok A r :
  wf_array A -> r < nrows A ->
  exists A', delete_row A r = Ok A' /\ wf_array A' /\
             nrows A' = nrows A - 1 /\ ncols A' = ncols A.
Proof.
  intros [H1 H2] Hr. unfold delete_row.
  apply Nat.ltb_lt in Hr as Hr'. rewrite Hr'.
  eexists. split; [reflexivity|]. repeat split; cbn [cells nrows ncols].
  - rewrite length_app, length_firstn, length_skipn. lia.
  - intros x Hx. apply in_app_or in Hx as [Hx|Hx]; apply H2.
    + eapply In_firstn_In; eauto.
    + eapply In_skipn_In; eauto.
Qed.

Section Incidence.
Variable nodes : list string.
Variable branches : list branch.

Let node_map := index_map nodes.
Let branch_map := index_map (map b_id branches).

Let shaped := array_shape (length nodes) (length branches).

Lemma lookup_branch b :
  In b branches ->
  exists i, lookup branch_map (b_id b) = Ok i /\ i < length branches.
Proof.
  intros Hb. destruct (index_map_In (map b_id branches) (b_id b))
    as (i & Hi & Hlt); [now apply in_map|].
  exists i. unfold lookup, branch_map. rewrite Hi.
  split; [reflexivity|]. now rewrite length_map in Hlt.
Qed.

Lemma fill_branch_Ok A b :
  shaped A -> In b branches ->
  In (b_from b) nodes -> In (b_to b) nodes ->
  exists A', fill_branch node_map branch_map A b = Ok A' /\ shaped A'.
Proof.
  intros (HA & Hr & Hc) Hb Hu Hv. unfold fill_branch.
  destruct (lookup_branch b Hb) as (bi & -> & Hbi).
  destruct (index_map_In nodes _ Hu) as (ui & Hui & Hlu).
  destruct (index_map_In nodes _ Hv) as (vi & Hvi & Hlv).
  unfold lookup, node_map. rewrite Hui, Hvi. simpl.
  destruct (setitem_Ok A ui bi 1%Qc HA) as (A1 & -> & HA1 & Hr1 & Hc1);
    [lia|lia|].
  simpl.
  destruct (setitem_Ok A1 vi bi (- (1))%Qc HA1) as (A2 & -> & HA2 & Hr2 & Hc2);
    [lia|lia|].
  exists A2. split; [reflexivity|]. repeat split; try apply HA2; lia.
Qed.

Lemma fill_branch_KeyError A b :
  In b branches ->
  ~ (In (b_from b) nodes /\ In (b_to b) nodes) ->
  exists k, fill_branch node_map branch_map A b = Raise (KeyError k) /\
            ~ In k nodes /\ (k = b_from b \/ k = b_to b).
Proof.
  intros Hb Hbad. unfold fill_branch.
  destruct (lookup_branch b Hb) as (bi & -> & Hbi). simpl.
  unfold lookup at 1, node_map.
  destruct (in_dec string_dec (b_from b) nodes) as [Hu|Hu].
  - destruct (index_map_In nodes _ Hu) as (ui & -> & _). simpl.
    assert (Hv : ~ In (b_to b) nodes) by tauto.
    unfold lookup. rewrite (index_map_notin nodes _ Hv). simpl. eauto.
  - rewrite (index_map_notin nodes _ Hu). simpl. eauto.
Qed.

Lemma fill_branches_Ok bs : forall A,
  shaped A -> incl bs branches ->
  (forall b, In b bs -> In (b_from b) nodes /\ In (b_to b) nodes) ->
  exists A', fill_branches node_map branch_map A bs = Ok A' /\
             shaped A'.
Proof.
  induction bs as [|b bs IH]; intros A HA Hincl Hd; simpl; [eauto|].
  destruct (Hd b (or_introl eq_refl)) as [Hu Hv].
  destruct (fill_branch_Ok A b HA (Hincl b (or_introl eq_refl)) Hu Hv)
    as (A1 & -> & HA1).
  simpl. apply IH; auto.
  - intros b' Hb'. apply Hincl. now right.
  - intros b' Hb'. apply Hd. now right.
Qed.

Lemma fill_branches_KeyError bs : forall A,
  shaped A -> incl bs branches ->
  (exists b, In b bs /\ ~ (In (b_from b) nodes /\ In (b_to b) nodes)) ->
  exists k, fill_branches node_map branch_map A bs = Raise (KeyError k) /\
            ~ In k nodes.
Proof.
  induction bs as [|b bs IH]; intros A HA Hincl (b0 & Hb0 & Hbad);
    [destruct Hb0|].
  simpl.
  destruct (in_dec string_dec (b_from b) nodes) as [Hu|Hu];
    [destruct (in_dec string_dec (b_to b) nodes) as [Hv|Hv]|].
  - destruct (fill_branch_Ok A b HA (Hincl b (or_introl eq_refl)) Hu Hv)
      as (A1 & -> & HA1).
    simpl. apply IH; auto.
    + intros b' Hb'. apply Hincl. now right.
    + destruct Hb0 as [<-|Hb0]; [tauto|eauto].
  - destruct (fill_branch_KeyError A b (Hincl b (or_introl eq_refl)))
      as (k & -> & Hk & _); [tauto|]. simpl. eauto.
  - destruct (fill_branch_KeyError A b (Hincl b (or_introl eq_refl)))
      as (k & -> & Hk & _); [tauto|]. simpl. eauto.
Qed.

Lemma zeros_shape : shaped (zeros (length nodes) (length branches)).
Proof. repeat split; try apply wf_zeros. Qed.

(** With declared endpoints the incidence matrix is built, with a row
    less than there are nodes. *)
Lemma get_incidence_matrix_Ok graph :
  nodes <> [] ->
  (forall b, In b branches -> In (b_from b) nodes /\ In (b_to b) nodes) ->
  exists A_red A_full ref,
    get_incidence_matrix graph nodes branches = Ok (A_red, A_full, ref) /\
    wf_array A_red /\ nrows A_red = length nodes - 1 /\
    ncols A_red = length branches.
Proof.
  intros Hne Hd. unfold get_incidence_matrix.
  destruct (fill_branches_Ok branches _ zeros_shape (incl_refl _) Hd)
    as (A_full & HF & HA & Hr & Hc).
  fold node_map branch_map. rewrite HF. simpl.
  assert (Hdel : forall r, r < length nodes ->
            exists A_red,
              (A <- delete_row A_full r ;; Ok (A, A_full, r))
              = Ok (A_red, A_full, r) /\
              wf_array A_red /\ nrows A_red = length nodes - 1 /\
              ncols A_red = length branches).
  { intros r Hlt. destruct (delete_row_Ok A_full r HA) as (A' & -> & ? & ? & ?);
      [lia|]. exists A'. simpl.
    split; [reflexivity|]. split; [assumption|]. split; lia. }
  destruct (dict_get "0" node_map) as [i|] eqn:E0.
  - destruct (Hdel i (index_map_bound nodes "0" i E0)) as (A_red & -> & H).
    eauto.
  - destruct nodes as [|n0 ns] eqn:En; [congruence|]. simpl length.
    destruct (Hdel (length ns)) as (A_red & HE & H); [simpl; lia|].
    simpl length in HE. rewrite HE. eauto.
Qed.

(** With an endpoint that is not declared it raises [KeyError]. *)
Lemma get_incidence_matrix_KeyError graph :
  (exists b, In b branches /\
             ~ (In (b_from b) nodes /\ In (b_to b) nodes)) ->
  exists k, get_incidence_matrix graph nodes branches = Raise (KeyError k) /\
            ~ In k nodes.
Proof.
  intros Hbad. unfold get_incidence_matrix.
  destruct (fill_branches_KeyError branches _ zeros_shape (incl_refl _) Hbad)
    as (k & HF & Hk).
  fold node_map branch_map. rewrite HF. simpl. eauto.
Qed.
End Incidence.

(** ** Assembling the system *)

Lemma mapM_Ok {A B : Type} (f : A -> result B) (l : list A) :
  (forall x, In x l -> exists y, f x = Ok y) -> exists ys, mapM f l = Ok ys.
Proof.
  induction l as [|x l IH]; intros H; simpl; [eauto|].
  destruct (H x (or_introl eq_refl)) as (y & ->).
  destruct IH as (ys & ->); [intros; apply H; now right|].
  simpl. eauto.
Qed.

Lemma row_sum_Ok M sym i js : forall eqn,
  i < nrows M -> (forall j, In j js -> j < ncols M) ->
  exists e, row_sum M sym i js eqn = Ok e.
Proof.
  induction js as [|j js IH]; intros eqn Hi Hj; simpl; [eauto|].
  unfold getitem. apply Nat.ltb_lt in Hi as Hi'. rewrite Hi'.
  assert (Hj' : (j <? ncols M) = true)
    by (apply Nat.ltb_lt, Hj; now left).
  rewrite Hj'. simpl. apply IH; [assumption|]. intros; apply Hj; now right.
Qed.

Lemma build_equations_total bs Q B nt nl :
  nt <= nrows Q -> length bs <= ncols Q ->
  nl <= nrows B -> length bs <= ncols B ->
  exists eqs unks, build_equations bs Q B nt nl = Ok (eqs, unks).
Proof.
  intros H1 H2 H3 H4. unfold build_equations.
  destruct (mapM_Ok (row_equation Q (map (fun b => ("I_" ++ b_id b)%string) bs)
                                  (length bs)) (seq 0 nt)) as (kcl & ->).
  { intros i Hi. apply in_seq in Hi. apply row_sum_Ok; [lia|].
    intros j Hj. apply in_seq in Hj. lia. }
  destruct (mapM_Ok (row_equation B (map (fun b => ("V_" ++ b_id b)%string) bs)
                                  (length bs)) (seq 0 nl)) as (kvl & ->).
  { intros i Hi. apply in_seq in Hi. apply row_sum_Ok; [lia|].
    intros j Hj. apply in_seq in Hj. lia. }
  simpl. eauto.
Qed.

(** With all the types known, a system that is returned is square when the
    rows requested are as many as the branches. *)
Lemma build_equations_square bs Q B nt nl eqs unks :
  build_equations bs Q B nt nl = Ok (eqs, unks) ->
  (forall b, In b bs -> known_type (b_type b)) ->
  nt + nl = length bs ->
  length eqs = 2 * length bs /\ length unks = 2 * length bs.
Proof.
  intros H Hk Hn.
  destruct (build_equations_Ok _ _ _ _ _ _ _ H)
    as (kcl & kvl & H1 & H2 & -> & ->).
  rewrite !length_app, !length_map, length_branch_equations by assumption.
  lia.
Qed.

(** [get_cutset_matrix] on an array with as many rows as twigs. *)
Lemma cutset_total A_red nt nl :
  wf_array A_red -> nrows A_red = nt ->
  (exists details,
      get_cutset_matrix A_red nt nl
      = Ok (None, Some (mkError "error" (singular_message details)))) \/
  (exists Q,
      get_cutset_matrix A_red nt nl = Ok (Some Q, None) /\
      array_shape nt (nt + (ncols A_red - nt)) Q).
Proof.
  intros HA Hr. unfold get_cutset_matrix.
  destruct (linalg_inv_cases (cols_to A_red nt) (wf_cols_to _ _ HA))
    as [(B0 & -> & HB0)|(msg & -> & _)]; [right|left; eauto].
  destruct HB0 as (_ & HB0wf & HB0r & HB0c & _). simpl in HB0r, HB0c.
  destruct (dot_Ok B0 (cols_from A_red nt)) as (P & -> & HPr & HPc & HPwf & _).
  { simpl. congruence. }
  simpl.
  destruct (hstack_Ok (eye nt) (neg P)) as (Q & -> & HQr & HQc & HQwf & _).
  { simpl. congruence. }
  { apply wf_eye. }
  { apply wf_neg. auto. }
  simpl in *. exists Q. split; [reflexivity|].
  split; [assumption|]. split; lia.
Qed.

Lemma select_tree_eq G bs :
  exists twigs links,
    select_tree G bs = (assign_weights G, (twigs, links, twigs ++ links)) /\
    length twigs + length links = length bs /\
    Permutation (twigs ++ links) bs /\
    twigs = filter (fun b => mem (b_id b)
                     (map e_key (minimum_spanning_edges (assign_weights G))))
                   bs.
Proof.
  eexists. eexists. split; [reflexivity|]. split; [apply filter_length|].
  split; [apply filter_partition_perm|reflexivity].
Qed.

(** ** C1: the size of the system *)

(** The claim as the specification words it fails: [build_equations]
    checks nothing.  Asked for no Kirchhoff row it returns one equation
    for the two unknowns of a resistor. *)
Lemma build_equations_no_check :
  exists eqs unks,
    build_equations [mkBranch "R1" "1" "0" "R" (q 5 1)]
                    (zeros 0 1) (zeros 0 1) 0 0 = Ok (eqs, unks) /\
    length eqs = 1 /\ length unks = 2.
Proof. eexists. eexists. split; [vm_compute; reflexivity|]. split; reflexivity. Qed.

(** ... and in the pipeline: for [with_diode] a system of three equations
    in four unknowns is assembled and handed to the solver. *)
Lemma assembled_not_square :
  exists eqs unks,
    assemble with_diode = (all_phases, Ok (Success (eqs, unks) tt tt)) /\
    length eqs = 3 /\ length unks = 4.
Proof. eexists. eexists. split; [vm_compute; reflexivity|]. split; reflexivity. Qed.

(** C1, amended.  For a valid connected circuit whose branches have known
    types, the pipeline either stops at the cut-set matrix with the
    singular-matrix error, or [build_equations] returns, and then with
    [2 * |branches|] equations and [2 * |branches|] unknowns. *)
Theorem assembled_system_square cd G :
  valid_circuit cd ->
  (forall b, In b (c_branches cd) -> known_type (b_type b)) ->
  build_graph cd = Ok (Some G, None) ->
  (exists details,
      assemble cd
      = ([GraphBuilder; TreeSelector; IncidenceMatrix; CutsetMatrix],
         Ok (Failure (mkError "error" (singular_message details))))) \/
  (exists twigs links Q B eqs unks,
      snd (select_tree G (c_branches cd)) = (twigs, links, twigs ++ links) /\
      build_equations (twigs ++ links) Q B (length twigs) (length links)
      = Ok (eqs, unks) /\
      assemble cd = (all_phases, Ok (Success (eqs, unks) tt tt)) /\
      length eqs = length twigs + length links + length (c_branches cd) /\
      length eqs = 2 * length (c_branches cd) /\
      length unks = 2 * length (c_branches cd)).
Proof.
  intros Hvalid Htypes Hbuild.
  destruct (select_tree_eq G (c_branches cd))
    as (twigs & links & Hsel & Hlen & Hperm & Htw).
  pose proof (twigs_count cd G _ _ _ _ Hvalid Hbuild Hsel) as Hnt.
  destruct (build_graph_Some cd G Hbuild) as (-> & Hconn & n0 & Hn0).
  assert (Hne : c_nodes cd <> []).
  { intros E. apply (Permutation_in _ (nodes_of_valid cd Hvalid)) in Hn0.
    rewrite E in Hn0. destruct Hn0. }
  destruct Hvalid as (Hnd & Hids & Hdecl).
  destruct (get_incidence_matrix_Ok (c_nodes cd) (twigs ++ links)
              (assign_weights (graph_of cd)) Hne)
    as (A_red & A_full & ref & Hinc & HAwf & HAr & HAc).
  { intros b Hb. apply Hdecl. eapply Permutation_in; eauto. }
  rewrite length_app in HAc.
  unfold assemble, solve_circuit. rewrite Hbuild. cbn [enter tbind].
  rewrite Hsel. cbn [enter tbind]. rewrite Hinc. cbn [enter tbind].
  destruct (cutset_total A_red (length twigs) (length links) HAwf)
    as [(details & ->)|(Q & -> & HQwf & HQr & HQc)]; [lia| |].
  - left. exists details. reflexivity.
  - right. cbn [enter tbind].
    destruct (tieset_Ok (cols_from Q (length twigs)) (length twigs)
                        (length links))
      as (B & HB & HBwf & HBr & HBc & _).
    { now apply wf_cols_from. }
    { simpl. lia. }
    simpl in HBc. rewrite HB. cbn [enter tbind].
    destruct (build_equations_total (twigs ++ links) Q B (length twigs)
                                    (length links))
      as (eqs & unks & Heq); try (rewrite ?length_app; lia).
    rewrite Heq. cbn [enter tbind app].
    destruct (build_equations_square _ _ _ _ _ _ _ Heq) as [H1 H2].
    { intros b Hb. apply Htypes. eapply Permutation_in; eauto. }
    { now rewrite length_app. }
    rewrite length_app in H1, H2.
    exists twigs, links, Q, B, eqs, unks.
    split; [reflexivity|]. split; [assumption|].
    split; [reflexivity|]. repeat split; lia.
Qed.

Lemma series_rlc_types :
  forall b, In b (c_branches series_rlc) -> known_type (b_type b).
Proof.
  unfold known_type. simpl. intros b [<-|[<-|[<-|[]]]]; simpl; auto.
Qed.

Lemma assembled_system_square_witness :
  (exists details,
      assemble series_rlc
      = ([GraphBuilder; TreeSelector; IncidenceMatrix; CutsetMatrix],
         Ok (Failure (mkError "error" (singular_message details))))) \/
  (exists twigs links Q B eqs unks,
      snd (select_tree (graph_of series_rlc) (c_branches series_rlc))
      = (twigs, links, twigs ++ links) /\
      build_equations (twigs ++ links) Q B (length twigs) (length links)
      = Ok (eqs, unks) /\
      assemble series_rlc = (all_phases, Ok (Success (eqs, unks) tt tt)) /\
      length eqs
      = length twigs + length links + length (c_branches series_rlc) /\
      length eqs = 2 * length (c_branches series_rlc) /\
      length unks = 2 * length (c_branches series_rlc)).
Proof.
  apply (assembled_system_square series_rlc (graph_of series_rlc)
           series_rlc_valid series_rlc_types).
  vm_compute. reflexivity.
Defined.

(** ** C8: an endpoint that is not declared *)

(** The claim as the specification words it fails on [dangling]: nothing
    rejects the circuit before matrix construction; [get_incidence_matrix]
    is entered and raises [KeyError] for the node ["2"]. *)
Lemma dangling_reaches_matrix :
  declared_endpoints dangling -> False.
Proof.
  intros H. destruct (H (mkBranch "R2" "1" "2" "R" (q 5 1))) as [_ H2].
  - simpl. auto.
  - simpl in H2. intuition discriminate.
Qed.

Lemma dangling_not_rejected_early :
  ~ declared_endpoints dangling /\
  build_graph dangling = Ok (Some (graph_of dangling), None) /\
  assemble dangling
  = ([GraphBuilder; TreeSelector; IncidenceMatrix], Raise (KeyError "2")).
Proof.
  split; [exact dangling_reaches_matrix|].
  split; vm_compute; reflexivity.
Qed.

Section Dangling.
Variables Sol Results PlotData TimePoints Images : Type.
Variable solve_equations : list expr -> list string -> result Sol.
Variable convert_to_time_domain
  : Sol -> result (Results * PlotData * TimePoints).
Variable generate_plots : PlotData -> TimePoints -> result Images.

Let solve :=
  solve_circuit Sol Results PlotData TimePoints Images
                solve_equations convert_to_time_domain generate_plots.

(** C8, amended.  A circuit with a branch whose endpoint is not declared
    never yields an incidence matrix: either [build_graph] reports the
    graph unconnected, or [get_incidence_matrix] raises [KeyError] for a
    node that is not declared; no later phase is entered. *)
Theorem undeclared_endpoint_fails cd :
  ~ declared_endpoints cd ->
  (solve cd
   = ([GraphBuilder], Ok (Failure (mkError "error" unconnected_message))))
  \/
  (exists k,
      ~ In k (c_nodes cd) /\
      build_graph cd = Ok (Some (graph_of cd), None) /\
      solve cd
      = ([GraphBuilder; TreeSelector; IncidenceMatrix],
         Raise (KeyError k))).
Proof.
  intros Hbad.
  assert (Hex : exists b, In b (c_branches cd) /\
                          ~ (In (b_from b) (c_nodes cd) /\
                             In (b_to b) (c_nodes cd))).
  { unfold declared_endpoints in Hbad.
    induction (c_branches cd) as [|b bs IH].
    - exfalso. apply Hbad. intros b [].
    - destruct (in_dec string_dec (b_from b) (c_nodes cd)) as [Hu|Hu];
        [destruct (in_dec string_dec (b_to b) (c_nodes cd)) as [Hv|Hv]|].
      + destruct IH as (b0 & Hb0 & H0).
        * intros H. apply Hbad. intros b' [<-|Hb']; auto.
        * exists b0. split; [now right|assumption].
      + exists b. split; [now left|tauto].
      + exists b. split; [now left|tauto]. }
  destruct Hex as (b & Hb & Hbb).
  destruct (build_graph_cases cd) as [[E _]|[[Hc E]|[_ E]]].
  - exfalso.
    assert (Hn : In (b_from b) (nodes_of (graph_of cd))).
    { apply graph_nodes. right. eauto. }
    rewrite E in Hn. destruct Hn.
  - right.
    destruct (select_tree_eq (graph_of cd) (c_branches cd))
      as (twigs & links & Hsel & _ & Hperm & _).
    destruct (get_incidence_matrix_KeyError (c_nodes cd) (twigs ++ links)
                (assign_weights (graph_of cd))) as (k & Hk & Hnk).
    { exists b. split; [|assumption].
      eapply Permutation_in; [symmetry; exact Hperm|assumption]. }
    exists k. split; [assumption|]. split; [assumption|].
    unfold solve, solve_circuit. rewrite E. cbn [enter tbind].
    rewrite Hsel. cbn [enter tbind]. rewrite Hk. reflexivity.
  - left. unfold solve, solve_circuit. rewrite E. reflexivity.
Qed.
End Dangling.

Lemma undeclared_endpoint_fails_witness :
  (assemble dangling
   = ([GraphBuilder], Ok (Failure (mkError "error" unconnected_message))))
  \/
  (exists k,
      ~ In k (c_nodes dangling) /\
      build_graph dangling = Ok (Some (graph_of dangling), None) /\
      assemble dangling
      = ([GraphBuilder; TreeSelector; IncidenceMatrix], Raise (KeyError k))).
Proof.
  exact (undeclared_endpoint_fails _ _ _ _ _ _ _ _ dangling
           dangling_reaches_matrix).
Defined.

(** ** Sorted edges *)

Lemma insert_by_weight_In e x l :
  In x (insert_by_weight e l) <-> x = e \/ In x l.
Proof.
  split; intros H.
  - apply (Permutation_in _ (insert_by_weight_perm e l)) in H.
    destruct H; auto.
  - apply (Permutation_in _ (Permutation_sym (insert_by_weight_perm e l))).
    destruct H; [left|right]; auto.
Qed.

Lemma insert_by_weight_sorted e l :
  StronglySorted by_weight l -> StronglySorted by_weight (insert_by_weight e l).
Proof.
  induction l as [|x l IH]; simpl; intros Hs.
  - repeat constructor.
  - inversion Hs as [|? ? Hs' Hx]; subst.
    destruct (Nat.leb_spec (edge_weight e) (edge_weight x)) as [Hle|Hgt].
    + constructor; [assumption|]. constructor; [assumption|].
      rewrite Forall_forall in *. intros y Hy. specialize (Hx y Hy).
      unfold by_weight in *. lia.
    + constructor; [auto|]. rewrite Forall_forall in *.
      intros y Hy. apply insert_by_weight_In in Hy as [->|Hy]; auto.
      unfold by_weight. lia.
Qed.

Lemma sorted_by_weight_sorted l : StronglySorted by_weight (sorted_by_weight l).
Proof.
  induction l as [|e l IH]; simpl; [constructor|].
  now apply insert_by_weight_sorted.
Qed.

(** In a sorted list the light edges come first. *)
Lemma sorted_split k l :
  StronglySorted by_weight l -> l = light k l ++ heavy k l.
Proof.
  unfold light, heavy.
  induction l as [|x l IH]; intros Hs; [reflexivity|].
  inversion Hs as [|? ? Hs' Hx]; subst. simpl.
  destruct (Nat.leb_spec (edge_weight x) k) as [Hle|Hgt]; simpl.
  - f_equal. auto.
  - rewrite (proj2 (filter_ext_in_iff _ (fun _ => false) l)).
    + assert (E : filter (fun _ : edge => false) l = []).
      { clear. induction l; simpl; auto. }
      rewrite E. simpl. f_equal.
      rewrite (proj2 (filter_ext_in_iff _ (fun _ => true) l)).
      * clear. induction l; simpl; [reflexivity|]. now f_equal.
      * intros y Hy. rewrite Forall_forall in Hx. specialize (Hx y Hy).
        unfold by_weight in Hx. apply negb_true_iff, Nat.leb_gt. lia.
    + intros y Hy. rewrite Forall_forall in Hx. specialize (Hx y Hy).
      unfold by_weight in Hx. apply Nat.leb_gt. lia.
Qed.

Lemma light_heavy_nil k l : heavy k (light k l) = [].
Proof.
  unfold heavy, light. rewrite filter_filter.
  induction l as [|x l IH]; simpl; [reflexivity|].
  destruct (Nat.leb (edge_weight x) k); simpl; auto.
Qed.

Lemma heavy_heavy k l : heavy k (heavy k l) = heavy k l.
Proof.
  unfold heavy. rewrite filter_filter. apply filter_ext. intros x.
  now destruct (Nat.leb (edge_weight x) k).
Qed.

(** ** The edges that Kruskal's loop accepts and rejects *)

Lemma kruskal_loop_filter (p : edge -> bool) es : forall uf,
  filter p es = es -> filter p (kruskal_loop uf es) = kruskal_loop uf es.
Proof.
  induction es as [|e es IH]; intros uf H; [reflexivity|].
  simpl in *. destruct (p e) eqn:E.
  - injection H as H.
    destruct (String.eqb (uf (e_u e)) (uf (e_v e))); [auto|].
    simpl. rewrite E. f_equal. auto.
  - exfalso. assert (Hin : In e (filter p es)) by (rewrite H; now left).
    apply filter_In in Hin as [_ Hp]. congruence.
Qed.

Lemma kruskal_loop_filter_nil (p : edge -> bool) es : forall uf,
  filter p es = [] -> filter p (kruskal_loop uf es) = [].
Proof.
  induction es as [|e es IH]; intros uf H; [reflexivity|].
  simpl in *. destruct (p e) eqn:E; [discriminate|].
  destruct (String.eqb (uf (e_u e)) (uf (e_v e))); [auto|].
  simpl. rewrite E. auto.
Qed.

(** An edge that is left out joins two nodes that the accepted edges
    connect. *)
Lemma kruskal_rejected e es : forall uf S,
  represents uf S -> In e es -> ~ In e (kruskal_loop uf es) ->
  econn (kruskal_loop uf es ++ S) (e_u e) (e_v e).
Proof.
  induction es as [|e0 es IH]; intros uf S R Hin Hout; [destruct Hin|].
  simpl in *.
  destruct (String.eqb_spec (uf (e_u e0)) (uf (e_v e0))) as [E|E].
  - destruct Hin as [->|Hin]; [|now apply IH].
    apply (econn_incl S); [apply incl_appr, incl_refl|]. now apply R.
  - destruct Hin as [->|Hin]; [exfalso; apply Hout; now left|].
    apply (econn_incl (kruskal_loop (uf_union uf (e_u e0) (e_v e0)) es
                         ++ e0 :: S)).
    + intros a. simpl. rewrite !in_app_iff. simpl. tauto.
    + apply IH; [now apply represents_union|assumption|].
      intros H. apply Hout. now right.
Qed.

(** An edge that is accepted joins two nodes that were not connected. *)
Lemma kruskal_accepted e es : forall uf S,
  represents uf S -> In e (kruskal_loop uf es) ->
  ~ econn S (e_u e) (e_v e).
Proof.
  induction es as [|e0 es IH]; intros uf S R Hin; [destruct Hin|].
  simpl in Hin.
  destruct (String.eqb_spec (uf (e_u e0)) (uf (e_v e0))) as [E|E].
  - now apply (IH uf).
  - destruct Hin as [->|Hin].
    + intros H. apply E. now apply R.
    + intros H. apply (IH _ (e0 :: S) (represents_union uf S e0 R) Hin).
      apply (econn_incl S); [apply incl_tl, incl_refl|assumption].
Qed.

(** Connectivity passes from one set of edges to another that connects
    the endpoints of each of its edges. *)
Lemma econn_subsumed S1 S2 x y :
  (forall e, In e S1 -> econn S2 (e_u e) (e_v e)) ->
  econn S1 x y -> econn S2 x y.
Proof.
  intros H Hc. induction Hc as [x|x y z e Hxy IH He Hl]; [constructor|].
  eapply econn_trans; [exact IH|].
  destruct Hl as [[<- <-]|[<- <-]]; auto using econn_sym.
Qed.

(** ** The exchange bound

    Among the edges heavier than [k], a Kruskal tree has no more than any
    other set of edges that connects the nodes. *)
Section Threshold.
Variable ns : list string.
Variable n0 : string.
Variable sorted others : list edge.
Variable k : nat.
Hypothesis ns_NoDup : NoDup ns.
Hypothesis n0_node : In n0 ns.
Hypothesis sorted_ok : StronglySorted by_weight sorted.
Hypothesis sorted_within : within ns sorted.
Hypothesis sorted_spans : forall x, In x ns -> econn sorted n0 x.
Hypothesis others_within : within ns others.
Hypothesis others_span : forall x, In x ns -> econn others n0 x.
Hypothesis others_light :
  forall e, In e (light k others) -> econn (light k sorted) (e_u e) (e_v e).

Let P := kruskal_uf uf_init (light k sorted).
Let P' := kruskal_uf uf_init (light k others).

Lemma within_filter p es : within ns es -> within ns (filter p es).
Proof. intros H e He. apply H. now apply filter_In in He. Qed.

Lemma heavy_tree :
  heavy k (kruskal_loop uf_init sorted)
  = kruskal_loop P (heavy k sorted).
Proof.
  rewrite (sorted_split k sorted sorted_ok) at 1.
  rewrite kruskal_loop_app. unfold heavy at 1. rewrite filter_app.
  fold (heavy k (kruskal_loop uf_init (light k sorted))).
  fold (heavy k (kruskal_loop P (heavy k sorted))).
  unfold heavy at 1. rewrite kruskal_loop_filter_nil by apply light_heavy_nil.
  unfold heavy at 1. rewrite kruskal_loop_filter by apply heavy_heavy.
  reflexivity.
Qed.

Lemma classes_all_connected es uf :
  uf_ok ns uf -> represents uf es ->
  (forall x, In x ns -> econn es n0 x) ->
  length (uf_roots ns uf) = 1.
Proof.
  intros Hok R Hall. apply (classes_one ns uf n0); auto.
  intros x Hx. apply R. apply econn_sym. auto.
Qed.

Lemma heavy_tree_count :
  length (heavy k (kruskal_loop uf_init sorted)) + 1
  = length (uf_roots ns P).
Proof.
  rewrite heavy_tree.
  rewrite <- (kruskal_count ns (heavy k sorted) P); auto.
  - f_equal. symmetry.
    apply (classes_all_connected (heavy k sorted ++ light k sorted)).
    + apply kruskal_uf_ok; [|now apply within_filter].
      apply kruskal_uf_ok; [apply uf_ok_init|now apply within_filter].
    + apply kruskal_uf_represents.
      pose proof (kruskal_uf_represents (light k sorted) uf_init []
                    represents_init) as R.
      now rewrite app_nil_r in R.
    + intros x Hx. apply (econn_incl sorted); [|auto].
      intros e He. rewrite (sorted_split k sorted sorted_ok) in He.
      rewrite in_app_iff in *. tauto.
  - apply kruskal_uf_ok; [apply uf_ok_init|now apply within_filter].
  - now apply within_filter.
Qed.

Lemma others_count :
  length (uf_roots ns P') <= length (heavy k others) + 1.
Proof.
  pose proof (kruskal_count ns (heavy k others) P' ns_NoDup) as Hc.
  rewrite (classes_all_connected (heavy k others ++ light k others)) in Hc.
  - pose proof (kruskal_loop_length (heavy k others) P'). 
    rewrite <- Hc; [lia| |now apply within_filter].
    apply kruskal_uf_ok; [apply uf_ok_init|now apply within_filter].
  - apply kruskal_uf_ok; [|now apply within_filter].
    apply kruskal_uf_ok; [apply uf_ok_init|now apply within_filter].
  - apply kruskal_uf_represents.
    pose proof (kruskal_uf_represents (light k others) uf_init []
                  represents_init) as R.
    now rewrite app_nil_r in R.
  - intros x Hx. apply (econn_incl others); [|auto].
    intros e He. unfold heavy, light. rewrite in_app_iff, !filter_In.
    destruct (Nat.leb (edge_weight e) k); simpl; tauto.
Qed.

Lemma refinement : length (uf_roots ns P) <= length (uf_roots ns P').
Proof.
  apply classes_refine; auto.
  - apply kruskal_uf_ok; [apply uf_ok_init|now apply within_filter].
  - intros x y _ _ E.
    pose proof (kruskal_uf_represents (light k others) uf_init []
                  represents_init) as R'.
    pose proof (kruskal_uf_represents (light k sorted) uf_init []
                  represents_init) as R.
    rewrite app_nil_r in R, R'.
    apply R. apply (econn_subsumed (light k others)); [assumption|].
    now apply R'.
Qed.

Lemma heavy_bound :
  length (heavy k (kruskal_loop uf_init sorted))
  <= length (heavy k others).
Proof.
  pose proof heavy_tree_count. pose proof others_count.
  pose proof refinement. lia.
Qed.
End Threshold.

(** ** C7: the selected tree is a minimum spanning tree *)

Lemma weight_of_type_cases ty :
  (ty = "V" /\ weight_of_type ty = 0) \/
  (ty = "I" /\ weight_of_type ty = 100) \/
  (ty <> "V" /\ ty <> "I" /\ weight_of_type ty = 1).
Proof.
  unfold weight_of_type.
  destruct (String.eqb_spec ty "V") as [->|HV]; [auto|].
  destruct (String.eqb_spec ty "I") as [->|HI]; auto.
Qed.

Lemma total_weight_heavy bs :
  total_weight bs
  = length (heavy_branches 0 bs) + 99 * length (heavy_branches 1 bs).
Proof.
  induction bs as [|b bs IH]; [reflexivity|].
  change (total_weight (b :: bs)) with (branch_weight b + total_weight bs).
  rewrite IH. unfold heavy_branches. cbn [filter].
  assert (Hw : branch_weight b = 0 \/ branch_weight b = 100 \/
               branch_weight b = 1).
  { unfold branch_weight. destruct (weight_of_type_cases (b_type b))
      as [[_ ->]|[[_ ->]|(_ & _ & ->)]]; auto. }
  destruct Hw as [-> | [-> | ->]]; simpl; lia.
Qed.

Lemma edge_weight_of_branch b : edge_weight (edge_of_branch b) = branch_weight b.
Proof. reflexivity. Qed.

Lemma heavy_edge_of_branch k bs :
  heavy k (map edge_of_branch bs) = map edge_of_branch (heavy_branches k bs).
Proof.
  unfold heavy, heavy_branches.
  induction bs as [|b bs IH]; [reflexivity|].
  simpl. rewrite edge_weight_of_branch.
  destruct (Nat.leb (branch_weight b) k); simpl; now rewrite IH.
Qed.

Lemma connected_by_edges bs x y :
  connected_by bs x y -> econn (map edge_of_branch bs) x y.
Proof.
  intros H. induction H as [x|x y z b Hxy IH Hb Hj]; [constructor|].
  eapply econn_step; [exact IH|apply in_map; exact Hb|exact Hj].
Qed.

Lemma filter_all {A : Type} (l : list A) : filter (fun _ => true) l = l.
Proof. induction l as [|a l IH]; simpl; [reflexivity|]. now f_equal. Qed.

Section MinimumTree.
Variable cd : circuit.
Variable n0 : string.
Hypothesis ids : unique_ids (c_branches cd).
Hypothesis connected : connected_circuit cd.
Hypothesis n0_node : In n0 (nodes_of (graph_of cd)).

Let G := graph_of cd.
Let sorted := sorted_by_weight (edges (assign_weights G)).
Let T := minimum_spanning_edges (assign_weights G).
Let twigs :=
  filter (fun b => mem (b_id b) (map e_key T)) (c_branches cd).

Lemma T_sorted e : In e T -> In e sorted.
Proof. apply kruskal_loop_incl. Qed.

(** The edge and the branch of one identifier. *)
Lemma edge_is_branch e b :
  In e sorted -> In b (c_branches cd) -> e_key e = b_id b ->
  joins b (e_u e) (e_v e) /\ edge_weight e = branch_weight b.
Proof.
  intros He Hb Hk.
  destruct (sorted_branch cd ids e He) as (b' & Hb' & Hi & Hj & Hw).
  assert (b' = b).
  { apply (NoDup_map_eq b_id (c_branches cd));
      [exact ids|assumption|assumption|congruence]. }
  subst b'. auto.
Qed.

Lemma twig_edge b :
  In b twigs <-> In b (c_branches cd) /\ exists e, In e T /\ e_key e = b_id b.
Proof.
  unfold twigs. rewrite filter_In, mem_true_iff, in_map_iff.
  split; intros (Hb & e & H1 & H2); eauto.
Qed.

Lemma heavy_twigs k :
  length (heavy_branches k twigs) = length (heavy k T).
Proof.
  unfold heavy_branches, twigs. rewrite filter_filter.
  rewrite (filter_ext_in _
             (fun b => mem (b_id b) (map e_key (heavy k T)))).
  - rewrite length_filter_mem; [apply length_map|exact ids| |].
    + apply NoDup_map_filter, T_keys_NoDup, ids.
    + intros i Hi. apply (T_keys_ids cd ids).
      apply in_map_iff in Hi as (e & <- & He).
      apply in_map. now apply filter_In in He.
  - intros b Hb.
    destruct (mem (b_id b) (map e_key (heavy k T))) eqn:E.
    + apply mem_true_iff, in_map_iff in E as (e & Hk & He).
      apply filter_In in He as [He Hw].
      destruct (edge_is_branch e b (T_sorted e He) Hb Hk) as [_ Hwb].
      rewrite <- Hwb, Hw, andb_true_r. apply mem_true_iff.
      rewrite <- Hk. now apply in_map.
    + destruct (mem (b_id b) (map e_key T)) eqn:E'; [|reflexivity].
      simpl. apply mem_true_iff, in_map_iff in E' as (e & Hk & He).
      destruct (edge_is_branch e b (T_sorted e He) Hb Hk) as [_ Hwb].
      destruct (Nat.leb (branch_weight b) k) eqn:Ew; [reflexivity|].
      exfalso. apply mem_false_iff in E. apply E.
      rewrite <- Hk. apply in_map. apply filter_In. split; [assumption|].
      now rewrite Hwb, Ew.
Qed.

Lemma light_branch_connected k b :
  In b (c_branches cd) -> branch_weight b <= k ->
  econn (light k sorted) (b_from b) (b_to b).
Proof.
  intros Hb Hw.
  destruct (branch_sorted cd ids b Hb) as (e & He & _ & Hj & Hwe).
  apply (econn_edge _ e).
  - apply filter_In. split; [assumption|]. apply Nat.leb_le.
    unfold branch_weight in Hw. lia.
  - destruct Hj as [[? ?]|[? ?]]; [left|right]; auto.
Qed.

Lemma heavy_tree_bound k others :
  incl others (c_branches cd) -> spans cd others ->
  length (heavy k T) <= length (heavy_branches k others).
Proof.
  intros Hincl Hspan.
  rewrite <- (length_map edge_of_branch (heavy_branches k others)).
  rewrite <- heavy_edge_of_branch.
  apply (heavy_bound (nodes_of G) n0 sorted (map edge_of_branch others) k).
  - apply so_nodes, structure_ok_graph_of.
  - exact n0_node.
  - apply sorted_by_weight_sorted.
  - apply (sorted_within cd ids).
  - intros x Hx. apply (connected_by_econn cd ids).
    apply connected; now apply graph_nodes.
  - intros e He. apply in_map_iff in He as (b & <- & Hb). simpl.
    split; apply graph_nodes; right; exists b; auto.
  - intros x Hx. apply connected_by_edges.
    apply Hspan; now apply graph_nodes.
  - intros e He. apply filter_In in He as [He Hw].
    apply in_map_iff in He as (b & <- & Hb).
    rewrite edge_weight_of_branch in Hw. apply Nat.leb_le in Hw.
    simpl. apply light_branch_connected; auto.
Qed.

Lemma twigs_minimum others :
  incl others (c_branches cd) -> spans cd others ->
  total_weight twigs <= total_weight others.
Proof.
  intros Hincl Hspan. rewrite !total_weight_heavy, !heavy_twigs.
  pose proof (heavy_tree_bound 0 others Hincl Hspan).
  pose proof (heavy_tree_bound 1 others Hincl Hspan). lia.
Qed.

Lemma tree_edge_twig (p : edge -> bool) (f : branch -> bool) x y :
  (forall e b, In e T -> In b twigs -> e_key e = b_id b ->
               p e = true -> f b = true) ->
  econn (filter p T) x y -> connected_by (filter f twigs) x y.
Proof.
  intros Hpf H. induction H as [x|x y z e Hxy IH He Hl]; [constructor|].
  apply filter_In in He as [He Hp].
  destruct (sorted_branch cd ids e (T_sorted e He)) as (b & Hb & Hi & Hj & _).
  assert (Hbt : In b twigs) by (apply twig_edge; eauto).
  eapply conn_step; [exact IH| |].
  - apply filter_In. split; [exact Hbt|]. eapply Hpf; eauto.
  - destruct Hl as [[A B]|[A B]], Hj as [[C D]|[C D]];
      unfold joins; intuition congruence.
Qed.

Lemma twigs_span : spans cd twigs.
Proof.
  intros x y Hx Hy.
  assert (H : econn (filter (fun _ => true) T) x y).
  { rewrite filter_all. unfold T, minimum_spanning_edges. fold sorted.
    apply kruskal_loop_spans. apply (connected_by_econn cd ids).
    now apply connected. }
  apply (tree_edge_twig _ (fun _ => true)) in H; [|reflexivity].
  now rewrite filter_all in H.
Qed.

Lemma light_tree k :
  light k T = kruskal_loop uf_init (light k sorted).
Proof.
  unfold T, minimum_spanning_edges. fold sorted.
  rewrite (sorted_split k sorted (sorted_by_weight_sorted _)) at 1.
  rewrite kruskal_loop_app. unfold light at 1. rewrite filter_app.
  rewrite kruskal_loop_filter.
  - rewrite (kruskal_loop_filter_nil _ (heavy k sorted)).
    + now rewrite app_nil_r.
    + unfold heavy. rewrite filter_filter.
      clear. induction sorted as [|a l IH]; simpl; [reflexivity|].
      destruct (Nat.leb (edge_weight a) k); simpl; auto.
  - unfold light. rewrite filter_filter. apply filter_ext.
    intros a. now destruct (Nat.leb (edge_weight a) k).
Qed.

(** A voltage source that is left out closes a loop of voltage sources
    of the tree. *)
Lemma voltage_source_link b :
  In b (c_branches cd) -> ~ In b twigs -> b_type b = "V" ->
  connected_by (filter is_voltage_source twigs) (b_from b) (b_to b).
Proof.
  intros Hb Hlink HV.
  destruct (branch_sorted cd ids b Hb) as (e & He & Hk & Hj & Hw).
  rewrite HV in Hw. change (weight_of_type "V") with 0 in Hw.
  assert (Hout : ~ In e (light 0 T)).
  { intros H. apply filter_In in H as [H _]. apply Hlink.
    apply twig_edge. eauto. }
  rewrite light_tree in Hout.
  assert (Hc : econn (light 0 T) (e_u e) (e_v e)).
  { rewrite light_tree.
    pose proof (kruskal_rejected e (light 0 sorted) uf_init []
                  represents_init) as H.
    rewrite app_nil_r in H. apply H; [|assumption].
    apply filter_In. split; [assumption|]. now rewrite Hw. }
  apply (tree_edge_twig _ is_voltage_source) in Hc.
  - destruct Hj as [[A B]|[A B]]; rewrite A, B;
      [assumption|now apply connected_by_sym].
  - intros e' b' He' Hb' Hk' Hp. apply Nat.leb_le in Hp.
    apply twig_edge in Hb' as [Hb' _].
    destruct (edge_is_branch e' b' (T_sorted e' He') Hb' Hk') as [_ Hwb].
    unfold is_voltage_source, branch_weight in *.
    destruct (weight_of_type_cases (b_type b'))
      as [[-> _]|[[_ E]|(_ & _ & E)]]; [reflexivity|lia|lia].
Qed.

(** The endpoints of a current source of the tree are not connected by
    the branches that are not current sources. *)
Lemma current_source_twig b :
  In b twigs -> b_type b = "I" ->
  ~ connected_by
      (filter (fun b => negb (is_current_source b)) (c_branches cd))
      (b_from b) (b_to b).
Proof.
  intros Hb HI Hconn.
  apply twig_edge in Hb as (Hb & e & He & Hk).
  destruct (edge_is_branch e b (T_sorted e He) Hb Hk) as [Hj Hw].
  unfold branch_weight in Hw. rewrite HI in Hw.
  change (weight_of_type "I") with 100 in Hw.
  assert (Hheavy : In e (kruskal_loop (kruskal_uf uf_init (light 1 sorted))
                                      (heavy 1 sorted))).
  { rewrite <- (heavy_tree sorted 1 (sorted_by_weight_sorted _)).
    apply filter_In. split; [exact He|]. now rewrite Hw. }
  pose proof (kruskal_uf_represents (light 1 sorted) uf_init []
                represents_init) as R.
  rewrite app_nil_r in R.
  apply (kruskal_accepted e _ _ _ R Hheavy).
  assert (Hc : econn (light 1 sorted) (b_from b) (b_to b)).
  { clear Hheavy. induction Hconn as [x|x y z b' Hxy IH Hb' Hj'];
      [constructor|].
    apply filter_In in Hb' as [Hb' Ht].
    eapply econn_trans; [exact IH|].
    assert (Hl : econn (light 1 sorted) (b_from b') (b_to b')).
    { apply light_branch_connected; [assumption|].
      unfold is_current_source, branch_weight in *.
      destruct (weight_of_type_cases (b_type b'))
        as [[_ E]|[[E _]|(_ & _ & E)]]; try lia.
      rewrite E in Ht. discriminate. }
    destruct Hj' as [[A B]|[A B]]; rewrite <- A, <- B;
      auto using econn_sym. }
  destruct Hj as [[A B]|[A B]]; rewrite <- A, <- B; auto using econn_sym.
Qed.
End MinimumTree.

(** C7.  For a valid connected circuit the twigs that [select_tree]
    returns are a spanning tree of minimum total weight under the weights
    V -> 0, I -> 100, other -> 1: they connect all the nodes with
    [|nodes| - 1] branches, and no set of branches that connects all the
    nodes weighs less.  In particular a voltage source is left out only
    when it closes a loop of voltage sources of the tree, and a current
    source is taken only when the other branches that are not current
    sources do not connect its endpoints. *)
Theorem selected_tree_minimum cd G G' twigs links sorted_branches :
  valid_circuit cd ->
  build_graph cd = Ok (Some G, None) ->
  select_tree G (c_branches cd) = (G', (twigs, links, sorted_branches)) ->
  (spans cd twigs /\ incl twigs (c_branches cd) /\
   length twigs + 1 = length (c_nodes cd)) /\
  (forall others,
      incl others (c_branches cd) -> spans cd others ->
      total_weight twigs <= total_weight others) /\
  (forall b,
      In b links -> b_type b = "V" ->
      connected_by (filter is_voltage_source twigs) (b_from b) (b_to b)) /\
  (forall b,
      In b twigs -> b_type b = "I" ->
      ~ connected_by
          (filter (fun b => negb (is_current_source b)) (c_branches cd))
          (b_from b) (b_to b)).
Proof.
  intros Hvalid Hbuild Hsel.
  pose proof (twigs_count cd G _ _ _ _ Hvalid Hbuild Hsel) as Hnt.
  destruct (build_graph_Some cd G Hbuild) as (-> & Hconn & n0 & Hn0).
  assert (Hne : length (c_nodes cd) <> 0).
  { rewrite <- (Permutation_length (nodes_of_valid cd Hvalid)).
    destruct (nodes_of (graph_of cd)); [destruct Hn0|discriminate]. }
  destruct Hvalid as (Hnd & Hids & Hdecl).
  unfold select_tree in Hsel. injection Hsel as _ <- <- _.
  split; [split; [|split]|split; [|split]].
  - now apply twigs_span.
  - intros b Hb. now apply filter_In in Hb.
  - lia.
  - intros others. now apply (twigs_minimum cd n0).
  - intros b Hb. apply filter_In in Hb as [Hb Hmem].
    apply voltage_source_link; auto.
    intros H. apply filter_In in H as [_ H]. rewrite H in Hmem. discriminate.
  - intros b. now apply current_source_twig.
Qed.

Lemma series_rlc_built :
  build_graph series_rlc = Ok (Some (graph_of series_rlc), None).
Proof. vm_compute. reflexivity. Qed.

Lemma selected_tree_minimum_witness :
  total_weight [mkBranch "V1" "1" "0" "V" (q 10 1);
                mkBranch "C1" "2" "0" "C" (q 1 10)]
  <= total_weight (c_branches series_rlc).
Proof.
  refine (proj1 (proj2 (selected_tree_minimum series_rlc
            (graph_of series_rlc) _ _ _ _ series_rlc_valid series_rlc_built _))
            (c_branches series_rlc) (incl_refl _) _).
  - vm_compute. reflexivity.
  - exact (proj1 (proj2 (build_graph_Some _ _ series_rlc_built))).
Defined.

(** * Further properties of the code *)

(** ** The entries of the incidence matrix *)

Open Scope Qc_scope.

Lemma nth_update_nth {T : Type} (f : T -> T) l : forall i i' d,
  nth i' (update_nth i f l) d
  = if Nat.eqb i' i && Nat.ltb i (length l) then f (nth i' l d)
    else nth i' l d.
Proof.
  induction l as [|x l IH]; intros [|i] [|i'] d; simpl; try reflexivity.
  - now rewrite andb_false_r.
  - rewrite IH. reflexivity.
Qed.

Lemma setitem_get A i j x A' :
  wf_array A -> setitem A i j x = Ok A' ->
  forall i' j',
    get A' i' j' = if Nat.eqb i' i && Nat.eqb j' j then x else get A i' j'.
Proof.
  intros [H1 H2] E i' j'. unfold setitem in E.
  destruct (Nat.ltb_spec i (nrows A)) as [Hi|Hi]; [|discriminate].
  destruct (Nat.ltb_spec j (ncols A)) as [Hj|Hj]; [|discriminate].
  simpl in E. injection E as <-. unfold get. simpl.
  rewrite nth_update_nth.
  assert (Hi' : (i <? length (cells A))%nat = true)
    by (apply Nat.ltb_lt; lia).
  rewrite Hi', andb_true_r.
  destruct (Nat.eqb_spec i' i) as [->|Hne]; [|reflexivity].
  rewrite nth_update_nth.
  assert (Hj' : (j <? length (nth i (cells A) []))%nat = true).
  { apply Nat.ltb_lt. rewrite H2; [assumption|]. apply nth_In. lia. }
  rewrite Hj', andb_true_r. simpl.
  now destruct (Nat.eqb j' j).
Qed.

Lemma nth_delete {T : Type} (l : list T) : forall r i d,
  nth i (firstn r l ++ skipn (S r) l) d
  = if (i <? r)%nat then nth i l d else nth (S i) l d.
Proof.
  induction l as [|x l IH]; intros r i d.
  - rewrite firstn_nil, skipn_nil. simpl.
    destruct (i <? r)%nat; now destruct i.
  - destruct r as [|r]; [reflexivity|].
    destruct i as [|i]; [reflexivity|].
    change (nth i (firstn r l ++ skipn (S r) l) d
            = if (i <? r)%nat then nth i l d else nth (S i) l d).
    apply IH.
Qed.

Lemma delete_row_get A r A' :
  delete_row A r = Ok A' ->
  forall i j, get A' i j = if (i <? r)%nat then get A i j else get A (S i) j.
Proof.
  intros E i j. unfold delete_row in E.
  destruct (r <? nrows A)%nat; [|discriminate].
  assert (H : cells A' = firstn r (cells A) ++ skipn (S r) (cells A))
    by (injection E as <-; reflexivity).
  unfold get. rewrite H, nth_delete. now destruct (i <? r)%nat.
Qed.

Lemma index_fold_nth xs : forall k (d : list (string * nat)) i x,
  NoDup xs -> nth_error xs i = Some x ->
  dict_get x (fold_left (fun d '(i, y) => dict_set y i d)
                        (combine (seq k (length xs)) xs) d)
  = Some (k + i)%nat.
Proof.
  induction xs as [|y ys IH]; intros k d i x Hnd Hi; [now destruct i|].
  inversion Hnd as [|? ? Hy Hys]; subst. simpl.
  destruct i as [|i]; simpl in Hi.
  - injection Hi as ->.
    rewrite (proj2 (index_fold ys (S k) (dict_set x k d) x) Hy).
    rewrite dict_get_set, String.eqb_refl. f_equal. lia.
  - rewrite (IH (S k) _ i x Hys Hi). f_equal. lia.
Qed.

Lemma index_map_nth xs i x :
  NoDup xs -> nth_error xs i = Some x ->
  dict_get x (index_map xs) = Some i.
Proof. intros Hnd Hi. apply (index_fold_nth xs 0 [] i x Hnd Hi). Qed.

Lemma NoDup_nth_error_inj {T : Type} (l : list T) i j x :
  NoDup l -> nth_error l i = Some x -> nth_error l j = Some x -> i = j.
Proof.
  intros Hnd Hi Hj. apply (proj1 (NoDup_nth_error l) Hnd).
  - apply nth_error_Some. congruence.
  - congruence.
Qed.

Lemma index_fold_inv xs : forall k (d : list (string * nat)) x i,
  dict_get x (fold_left (fun d '(i, y) => dict_set y i d)
                        (combine (seq k (length xs)) xs) d) = Some i ->
  ((k <= i)%nat /\ nth_error xs (i - k) = Some x) \/
  (dict_get x d = Some i /\ ~ In x xs).
Proof.
  induction xs as [|y ys IH]; intros k d x i H; simpl in H.
  - right. split; [assumption|intros []].
  - destruct (IH _ _ _ _ H) as [[Hk Hn]|[Hd Hn]].
    + left. split; [lia|].
      replace (i - k)%nat with (S (i - S k)) by lia. assumption.
    + rewrite dict_get_set in Hd.
      destruct (String.eqb_spec x y) as [->|Hne].
      * injection Hd as <-. left. split; [lia|].
        now rewrite Nat.sub_diag.
      * right. split; [assumption|]. intros [E|E]; [now subst|contradiction].
Qed.

Lemma index_map_inv xs x i :
  dict_get x (index_map xs) = Some i -> nth_error xs i = Some x.
Proof.
  intros H. destruct (index_fold_inv xs 0 [] x i H) as [[_ Hn]|[Hd _]].
  - now rewrite Nat.sub_0_r in Hn.
  - discriminate.
Qed.

Lemma get_zeros n m i j : get (zeros n m) i j = Q2Qc 0.
Proof.
  unfold get, zeros. cbn [cells].
  destruct (Nat.lt_ge_cases i n) as [Hi|Hi].
  - rewrite nth_indep with (d' := repeat (Q2Qc 0) m)
      by now rewrite repeat_length.
    rewrite nth_repeat.
    destruct (Nat.lt_ge_cases j m) as [Hj|Hj].
    + apply nth_repeat.
    + apply nth_overflow. now rewrite repeat_length.
  - rewrite (nth_overflow (repeat (repeat (Q2Qc 0) m) n))
      by now rewrite repeat_length.
    apply nth_nil_Qc.
Qed.

Lemma setitem_shape A i j x A' n m :
  array_shape n m A -> setitem A i j x = Ok A' -> array_shape n m A'.
Proof.
  intros (HA & Hr & Hc) E. pose proof E as E'. unfold setitem in E'.
  destruct (Nat.ltb_spec i (nrows A)) as [Hi|Hi]; [|discriminate].
  destruct (Nat.ltb_spec j (ncols A)) as [Hj|Hj]; [|discriminate].
  destruct (setitem_Ok A i j x HA Hi Hj) as (A'' & E'' & H1 & H2 & H3).
  rewrite E in E''. injection E'' as <-.
  split; [assumption|]. split; congruence.
Qed.

Section IncidenceEntries.
Variable nodes : list string.
Variable branches : list branch.
Hypothesis nodes_NoDup : NoDup nodes.
Hypothesis ids_NoDup : unique_ids branches.

Let node_map := index_map nodes.
Let branch_map := index_map (map b_id branches).
Let shaped := array_shape (length nodes) (length branches).

(** What one round of the loop writes over [old]. *)
Let written (x : string) (b : branch) (old : Qc) : Qc :=
  if String.eqb x (b_to b) then - (1)
  else if String.eqb x (b_from b) then 1
  else old.

Lemma branches_NoDup : NoDup branches.
Proof. exact (NoDup_map_inv b_id branches ids_NoDup). Qed.

Lemma branch_index j b :
  nth_error branches j = Some b -> dict_get (b_id b) branch_map = Some j.
Proof.
  intros H. apply index_map_nth; [exact ids_NoDup|].
  now apply map_nth_error.
Qed.

Lemma node_at i x k :
  nth_error nodes i = Some x -> dict_get k node_map = Some i -> k = x.
Proof. intros Hi Hk. apply index_map_inv in Hk. congruence. Qed.

Lemma node_index_eqb i x k vi :
  nth_error nodes i = Some x -> dict_get k node_map = Some vi ->
  Nat.eqb i vi = String.eqb x k.
Proof.
  intros Hi Hk. apply index_map_inv in Hk.
  destruct (Nat.eqb_spec i vi) as [->|Hne];
    destruct (String.eqb_spec x k) as [->|Hne']; try reflexivity.
  - congruence.
  - exfalso. apply Hne.
    exact (NoDup_nth_error_inj nodes i vi k nodes_NoDup Hi Hk).
Qed.

Lemma fill_branch_get A A' b j :
  shaped A -> nth_error branches j = Some b ->
  fill_branch node_map branch_map A b = Ok A' ->
  shaped A' /\
  forall i x j', nth_error nodes i = Some x ->
    get A' i j' = if Nat.eqb j' j then written x b (get A i j')
                  else get A i j'.
Proof.
  intros HA Hj E. unfold fill_branch, lookup in E.
  rewrite (branch_index j b Hj) in E. simpl in E.
  destruct (dict_get (b_from b) node_map) as [ui|] eqn:Eu; [|discriminate].
  destruct (dict_get (b_to b) node_map) as [vi|] eqn:Ev; [|discriminate].
  simpl in E.
  destruct (setitem A ui j 1) as [A1|] eqn:E1; [|discriminate].
  simpl in E.
  pose proof (setitem_shape _ _ _ _ _ _ _ HA E1) as HA1.
  split; [exact (setitem_shape _ _ _ _ _ _ _ HA1 E)|].
  intros i x j' Hi.
  rewrite (setitem_get A1 vi j _ A' (proj1 HA1) E).
  rewrite (setitem_get A ui j _ A1 (proj1 HA) E1).
  rewrite (node_index_eqb i x _ vi Hi Ev), (node_index_eqb i x _ ui Hi Eu).
  unfold written.
  destruct (Nat.eqb j' j); rewrite ?andb_true_r, ?andb_false_r; reflexivity.
Qed.

Lemma fill_branches_get bs : forall A A',
  shaped A -> incl bs branches -> NoDup bs ->
  fill_branches node_map branch_map A bs = Ok A' ->
  shaped A' /\
  forall i j x b,
    nth_error nodes i = Some x -> nth_error branches j = Some b ->
    (In b bs -> get A' i j = written x b (get A i j)) /\
    (~ In b bs -> get A' i j = get A i j).
Proof.
  induction bs as [|b0 bs IH]; intros A A' HA Hincl Hnd E; simpl in E.
  - injection E as <-. split; [assumption|]. intros i j x b _ _.
    split; [intros []|reflexivity].
  - destruct (fill_branch node_map branch_map A b0) as [A1|] eqn:E1;
      [|discriminate].
    simpl in E. inversion Hnd as [|? ? Hb0 Hbs]; subst.
    destruct (In_nth_error branches b0 (Hincl b0 (or_introl eq_refl)))
      as (j0 & Hj0).
    destruct (fill_branch_get A A1 b0 j0 HA Hj0 E1) as (HA1 & H1).
    destruct (IH A1 A' HA1 (fun b Hb => Hincl b (or_intror Hb)) Hbs E)
      as (HA' & H').
    split; [assumption|]. intros i j x b Hi Hj.
    destruct (H' i j x b Hi Hj) as [Hin Hout].
    assert (Hcol : b <> b0 -> Nat.eqb j j0 = false).
    { intros Hne. apply Nat.eqb_neq. intros ->. congruence. }
    split.
    + intros [<-|Hb].
      * rewrite (Hout Hb0), (H1 i x j Hi).
        assert (j = j0)
          by exact (NoDup_nth_error_inj branches j j0 b0
                      branches_NoDup Hj Hj0).
        subst. now rewrite Nat.eqb_refl.
      * rewrite (Hin Hb), (H1 i x j Hi), Hcol; [reflexivity|].
        intros ->. contradiction.
    + intros Hb. rewrite Hout by (intros ?; apply Hb; now right).
      rewrite (H1 i x j Hi), Hcol; [reflexivity|].
      intros ->. apply Hb. now left.
Qed.

Lemma full_matrix_entries graph A_red A_full ref :
  get_incidence_matrix graph nodes branches = Ok (A_red, A_full, ref) ->
  array_shape (length nodes) (length branches) A_full /\
  forall i j x b,
    nth_error nodes i = Some x -> nth_error branches j = Some b ->
    get A_full i j = incidence_entry x b.
Proof.
  intros E. unfold get_incidence_matrix in E.
  fold node_map branch_map in E.
  destruct (fill_branches node_map branch_map
              (zeros (length nodes) (length branches)) branches)
    as [A|] eqn:EF; [|discriminate].
  simpl in E.
  assert (A = A_full) as ->.
  { destruct (dict_get "0" node_map) as [r|]; [|destruct (length nodes)];
      try discriminate;
      (destruct (delete_row A _); [|discriminate]); simpl in E; congruence. }
  destruct (fill_branches_get branches _ _
              (zeros_shape nodes branches) (incl_refl _) branches_NoDup EF)
    as (HA & H).
  split; [assumption|]. intros i j x b Hi Hj.
  rewrite (proj1 (H i j x b Hi Hj)) by (eapply nth_error_In; eauto).
  now rewrite get_zeros.
Qed.
End IncidenceEntries.

Close Scope Qc_scope.

(** ** The reference row *)

Open Scope Qc_scope.

Lemma fill_branches_shape nm bm n m bs : forall A A',
  array_shape n m A -> fill_branches nm bm A bs = Ok A' ->
  array_shape n m A'.
Proof.
  induction bs as [|b bs IH]; intros A A' HA E; simpl in E.
  - now injection E as <-.
  - destruct (fill_branch nm bm A b) as [A1|] eqn:E1; [|discriminate].
    simpl in E. apply (IH A1 A'); [|assumption].
    unfold fill_branch in E1.
    destruct (lookup bm (b_id b)); [|discriminate].
    destruct (lookup nm (b_from b)); [|discriminate].
    destruct (lookup nm (b_to b)); [|discriminate]. simpl in E1.
    destruct (setitem A a0 a 1) as [A0|] eqn:E0; [|discriminate].
    simpl in E1.
    eapply setitem_shape; [|exact E1]. eapply setitem_shape; eauto.
Qed.

Lemma delete_row_shape A r A' n m :
  array_shape n m A -> delete_row A r = Ok A' ->
  (r < n)%nat /\ array_shape (n - 1) m A'.
Proof.
  intros (HA & Hr & Hc) E. pose proof E as E'. unfold delete_row in E'.
  destruct (Nat.ltb_spec r (nrows A)) as [Hlt|Hlt]; [|discriminate].
  destruct (delete_row_Ok A r HA Hlt) as (A'' & E'' & H1 & H2 & H3).
  rewrite E in E''. injection E'' as <-.
  split; [lia|]. split; [assumption|]. split; congruence.
Qed.

(** What [get_incidence_matrix] returns beside the full matrix: the index
    of node ['0'], or of the last node when ['0'] is not declared, and the
    full matrix without that row. *)
Lemma reduced_matrix_rows graph nodes branches A_red A_full ref :
  get_incidence_matrix graph nodes branches = Ok (A_red, A_full, ref) ->
  (ref < length nodes)%nat /\
  (In "0" nodes -> nth_error nodes ref = Some "0") /\
  (~ In "0" nodes -> ref = (length nodes - 1)%nat) /\
  array_shape (length nodes - 1) (length branches) A_red /\
  forall i j, get A_red i j = if (i <? ref)%nat then get A_full i j
                              else get A_full (S i) j.
Proof.
  intros E. unfold get_incidence_matrix in E.
  destruct (fill_branches (index_map nodes) (index_map (map b_id branches))
              (zeros (length nodes) (length branches)) branches)
    as [A|] eqn:EF; [|discriminate].
  simpl in E.
  pose proof (fill_branches_shape _ _ _ _ _ _ _
                (zeros_shape nodes branches) EF) as HA.
  assert (H : forall r,
             (A0 <- delete_row A r ;; Ok (A0, A, r)) = Ok (A_red, A_full, ref) ->
             r = ref /\ (ref < length nodes)%nat /\
             array_shape (length nodes - 1) (length branches) A_red /\
             forall i j, get A_red i j = if (i <? ref)%nat then get A_full i j
                                         else get A_full (S i) j).
  { intros r Er. destruct (delete_row A r) as [A0|] eqn:Ed; [|discriminate].
    simpl in Er. injection Er as <- <- <-.
    destruct (delete_row_shape _ _ _ _ _ HA Ed) as [Hlt HA0].
    split; [reflexivity|]. split; [assumption|]. split; [assumption|].
    exact (delete_row_get _ _ _ Ed). }
  destruct (dict_get "0" (index_map nodes)) as [r|] eqn:E0.
  - destruct (H r E) as (-> & Hlt & Hs & Hg).
    split; [assumption|]. split; [|split; [|split; assumption]].
    + intros _. now apply index_map_inv.
    + intros Hn. rewrite (index_map_notin nodes "0" Hn) in E0. discriminate.
  - destruct (length nodes) as [|r] eqn:En; [discriminate|].
    destruct (H r E) as (-> & Hlt & Hs & Hg).
    split; [assumption|]. split; [|split; [|split; assumption]].
    + intros Hin. destruct (index_map_In nodes "0" Hin) as (i & Hi & _).
      congruence.
    + intros _. lia.
Qed.

(** ** Arrays without an inverse *)

(** When [np.linalg.inv] fails on a square array, a combination of the
    columns, not all coefficients zero, vanishes. *)
Lemma singular_kernel A n e :
  wf_array A -> nrows A = n -> ncols A = n -> linalg_inv A = Raise e ->
  exists (z : nat -> Qc) c,
    (c < n)%nat /\ z c <> Q2Qc 0 /\
    forall i, (i < n)%nat -> sum_upto n (fun k => get A i k * z k) = Q2Qc 0.
Proof.
  intros HA Hr Hc. unfold linalg_inv.
  rewrite Hr, Hc, Nat.eqb_refl, (augmented_eq A n Hr).
  pose proof (gj_run n (n + n) (augmented A) n 0 [] (augmented A)
                (gj_start A n HA Hr Hc) (Nat.add_0_r n)) as H.
  destruct (gauss_jordan n 0 [] (augmented A)) as [final|]; [discriminate|].
  intros _. destruct H as (c & done & todo & Hlt & Hinv & Hz).
  exists (fun k => if (k <? c)%nat then nth c (nth k done []) (Q2Qc 0)
                   else if (k =? c)%nat then - (1) else Q2Qc 0), c.
  split; [assumption|]. split.
  - rewrite Nat.ltb_irrefl, Nat.eqb_refl. discriminate.
  - intros i Hi.
    exact (stuck_kernel A n HA Hr Hc c done todo Hlt Hinv Hz i Hi).
Qed.

Lemma inverse_of_transpose A B :
  wf_array A -> inverse_of (transpose A) B -> inverse_of A (transpose B).
Proof.
  intros HA (Hsq & HB & HBr & HBc & H). simpl in Hsq, HBr, HBc, H.
  split; [congruence|]. split; [now apply wf_transpose|].
  split; [simpl; congruence|]. split; [simpl; congruence|].
  intros i j Hi Hj. rewrite (delta_sym i j).
  destruct (H j i) as [H1 H2]; try lia.
  split.
  - rewrite <- H2. unfold mul_at. cbn [transpose ncols nrows].
    rewrite HBr, Hsq. apply sum_upto_ext. intros k Hk.
    rewrite !get_transpose by lia. ring.
  - rewrite <- H1. unfold mul_at. rewrite HBc.
    apply sum_upto_ext. intros k Hk.
    rewrite !get_transpose by lia. ring.
Qed.

Close Scope Qc_scope.

(** ** The twig columns of a spanning tree *)

Open Scope Qc_scope.

Lemma incidence_entry_split x b :
  b_from b <> b_to b ->
  incidence_entry x b
  = (if String.eqb x (b_from b) then 1 else Q2Qc 0)
    - (if String.eqb x (b_to b) then 1 else Q2Qc 0).
Proof.
  intros Hne. unfold incidence_entry.
  destruct (String.eqb_spec x (b_to b)) as [->|H1].
  - destruct (String.eqb_spec (b_to b) (b_from b)) as [E|_];
      [now symmetry in E|].
    apply Qc_is_canon. reflexivity.
  - destruct (String.eqb x (b_from b)); apply Qc_is_canon; reflexivity.
Qed.

Lemma sum_upto_first m f :
  sum_upto (S m) f = f 0%nat + sum_upto m (fun k => f (S k)).
Proof.
  change (S m) with (1 + m)%nat. rewrite sum_upto_app. simpl. ring.
Qed.

Section TreeColumns.
Variable graph : MultiGraph.
Variable nodes : list string.
Variable branches : list branch.
Variable n_twigs : nat.
Variables A_red A_full : ndarray.
Variable ref : nat.
Hypothesis nodes_NoDup : NoDup nodes.
Hypothesis ids_NoDup : unique_ids branches.
Hypothesis built :
  get_incidence_matrix graph nodes branches = Ok (A_red, A_full, ref).
Hypothesis tree_size : (n_twigs + 1 = length nodes)%nat.
Hypothesis tree_spans :
  forall x y, In x nodes -> In y nodes ->
              connected_by (firstn n_twigs branches) x y.

Lemma endpoints_declared b :
  In b branches -> In (b_from b) nodes /\ In (b_to b) nodes.
Proof.
  intros Hb.
  destruct (in_dec string_dec (b_from b) nodes) as [Hu|Hu];
    [destruct (in_dec string_dec (b_to b) nodes) as [Hv|Hv]|];
    [now split| |];
    (destruct (get_incidence_matrix_KeyError nodes branches graph)
       as (k & E & _); [exists b; tauto|congruence]).
Qed.

Lemma ref_bound : (ref <= n_twigs)%nat.
Proof.
  destruct (reduced_matrix_rows _ _ _ _ _ _ built) as (H & _). lia.
Qed.

(** Coefficients [z] for the rows of [A_red], as a potential on the
    nodes: the reference node has potential zero. *)
Variable z : nat -> Qc.
Hypothesis z_null :
  forall j, (j < n_twigs)%nat ->
            sum_upto n_twigs (fun k => z k * get A_red k j) = Q2Qc 0.

Let phi (p : nat) : Qc :=
  if (p <? ref)%nat then z p
  else if (p =? ref)%nat then Q2Qc 0 else z (p - 1)%nat.

Lemma sum_rows j :
  sum_upto (length nodes) (fun p => phi p * get A_full p j)
  = sum_upto n_twigs (fun k => z k * get A_red k j).
Proof.
  pose proof ref_bound as Hr.
  destruct (reduced_matrix_rows _ _ _ _ _ _ built) as (_ & _ & _ & _ & Hg).
  rewrite <- tree_size.
  replace (n_twigs + 1)%nat with (ref + S (n_twigs - ref))%nat by lia.
  replace n_twigs with (ref + (n_twigs - ref))%nat at 2 by lia.
  rewrite !sum_upto_app, sum_upto_first. unfold phi.
  rewrite Nat.add_0_r, Nat.ltb_irrefl, Nat.eqb_refl.
  rewrite (sum_upto_ext ref _ (fun k => z k * get A_red k j)).
  2:{ intros k Hk. rewrite Hg. apply Nat.ltb_lt in Hk. now rewrite Hk. }
  rewrite (sum_upto_ext (n_twigs - ref) _
             (fun k => z (ref + k)%nat * get A_red (ref + k)%nat j)).
  2:{ intros k Hk. rewrite Hg.
      replace (ref + S k <? ref)%nat with false
        by (symmetry; apply Nat.ltb_ge; lia).
      replace (ref + S k =? ref)%nat with false
        by (symmetry; apply Nat.eqb_neq; lia).
      replace (ref + k <? ref)%nat with false
        by (symmetry; apply Nat.ltb_ge; lia).
      replace (ref + S k - 1)%nat with (ref + k)%nat by lia.
      replace (S (ref + k)) with (ref + S k)%nat by lia. reflexivity. }
  ring.
Qed.

Lemma sum_at_node (f : nat -> Qc) a x :
  nth_error nodes a = Some x ->
  sum_upto (length nodes)
    (fun p => f p * (if String.eqb (nth p nodes "") x then 1 else Q2Qc 0))
  = f a.
Proof.
  intros Ha.
  assert (Hlt : (a < length nodes)%nat)
    by (apply nth_error_Some; congruence).
  rewrite <- (sum_upto_delta_r (length nodes) a f Hlt).
  apply sum_upto_ext. intros p Hp. f_equal. unfold delta.
  assert (Hpn : nth_error nodes p = Some (nth p nodes ""))
    by now apply nth_error_nth'.
  destruct (String.eqb_spec (nth p nodes "") x) as [E|E];
    destruct (Nat.eqb_spec p a) as [->|Hpa]; try reflexivity.
  - exfalso. apply Hpa. rewrite E in Hpn.
    exact (NoDup_nth_error_inj nodes p a x nodes_NoDup Hpn Ha).
  - congruence.
Qed.

Lemma twig_potential j b ia ib :
  (j < n_twigs)%nat -> nth_error branches j = Some b ->
  nth_error nodes ia = Some (b_from b) ->
  nth_error nodes ib = Some (b_to b) ->
  phi ia = phi ib.
Proof.
  intros Hj Hb Ha Hbi.
  destruct (String.eqb_spec (b_from b) (b_to b)) as [E|Hne].
  - rewrite E in Ha.
    now rewrite (NoDup_nth_error_inj nodes ia ib _ nodes_NoDup Ha Hbi).
  - pose proof (z_null j Hj) as H0. rewrite <- sum_rows in H0.
    destruct (full_matrix_entries nodes branches nodes_NoDup ids_NoDup
                graph A_red A_full ref built) as (_ & Hent).
    rewrite (sum_upto_ext _ _
               (fun p => phi p * (if String.eqb (nth p nodes "") (b_from b)
                                  then 1 else Q2Qc 0)
                         - phi p * (if String.eqb (nth p nodes "") (b_to b)
                                    then 1 else Q2Qc 0))) in H0.
    2:{ intros p Hp.
        rewrite (Hent p j (nth p nodes "") b) by
          (try assumption; now apply nth_error_nth').
        rewrite incidence_entry_split by assumption. ring. }
    rewrite sum_upto_minus, (sum_at_node phi ia), (sum_at_node phi ib) in H0
      by assumption.
    rewrite <- (Qcplus_0_l (phi ib)), <- H0. ring.
Qed.

Lemma connected_potential x y ia ib :
  connected_by (firstn n_twigs branches) x y ->
  nth_error nodes ia = Some x -> nth_error nodes ib = Some y ->
  phi ia = phi ib.
Proof.
  intros H. revert ib. induction H as [x|x y w b Hxy IH Hb Hj];
    intros ib Ha Hbi.
  - now rewrite (NoDup_nth_error_inj nodes ia ib _ nodes_NoDup Ha Hbi).
  - destruct (In_nth_error _ _ Hb) as (j & Hjn).
    assert (Hlt : (j < n_twigs)%nat).
    { assert (j < length (firstn n_twigs branches))%nat
        by (apply nth_error_Some; congruence).
      rewrite length_firstn in H. lia. }
    rewrite nth_error_firstn in Hjn.
    apply Nat.ltb_lt in Hlt as Hlt'. rewrite Hlt' in Hjn.
    assert (Hbb : In b branches) by (eapply nth_error_In; eauto).
    destruct (endpoints_declared b Hbb) as [Hu Hv].
    apply In_nth_error in Hu as (iu & Hu), Hv as (iv & Hv).
    pose proof (twig_potential j b iu iv Hlt Hjn Hu Hv) as Huv.
    destruct Hj as [[E1 E2]|[E1 E2]].
    + rewrite E1 in Hu. rewrite E2 in Hv.
      rewrite (IH iu Ha Hu), Huv.
      now rewrite (NoDup_nth_error_inj nodes iv ib _ nodes_NoDup Hv Hbi).
    + rewrite E1 in Hu. rewrite E2 in Hv.
      rewrite (IH iv Ha Hv), <- Huv.
      now rewrite (NoDup_nth_error_inj nodes iu ib _ nodes_NoDup Hu Hbi).
Qed.

Lemma potential_zero p : (p < length nodes)%nat -> phi p = Q2Qc 0.
Proof.
  intros Hp.
  destruct (reduced_matrix_rows _ _ _ _ _ _ built) as (Hr & _).
  assert (Href : nth_error nodes ref = Some (nth ref nodes ""))
    by now apply nth_error_nth'.
  assert (Hpn : nth_error nodes p = Some (nth p nodes ""))
    by now apply nth_error_nth'.
  rewrite <- (connected_potential _ _ ref p
                (tree_spans _ _ (nth_error_In _ _ Href)
                            (nth_error_In _ _ Hpn)) Href Hpn).
  unfold phi. now rewrite Nat.ltb_irrefl, Nat.eqb_refl.
Qed.

Lemma tree_null k : (k < n_twigs)%nat -> z k = Q2Qc 0.
Proof.
  intros Hk. destruct (Nat.ltb_spec k ref) as [Hlt|Hge].
  - rewrite <- (potential_zero k) by lia. unfold phi.
    apply Nat.ltb_lt in Hlt. now rewrite Hlt.
  - rewrite <- (potential_zero (S k)) by lia. unfold phi.
    replace (S k <? ref)%nat with false by (symmetry; apply Nat.ltb_ge; lia).
    replace (S k =? ref)%nat with false by (symmetry; apply Nat.eqb_neq; lia).
    f_equal. lia.
Qed.
End TreeColumns.

(** The twig columns of the reduced incidence matrix have an inverse when
    the twigs connect all the nodes and are one less than the nodes. *)
Lemma tree_columns_regular graph nodes branches n_twigs A_red A_full ref :
  NoDup nodes -> unique_ids branches ->
  get_incidence_matrix graph nodes branches = Ok (A_red, A_full, ref) ->
  (n_twigs + 1 = length nodes)%nat ->
  (n_twigs <= length branches)%nat ->
  (forall x y, In x nodes -> In y nodes ->
               connected_by (firstn n_twigs branches) x y) ->
  exists Ainv, linalg_inv (cols_to A_red n_twigs) = Ok Ainv /\
               inverse_of (cols_to A_red n_twigs) Ainv.
Proof.
  intros Hn Hids Hb Hsz Hle Hspan.
  destruct (reduced_matrix_rows _ _ _ _ _ _ Hb)
    as (_ & _ & _ & (HA & Hr & Hc) & _).
  set (M := cols_to A_red n_twigs).
  assert (HM : wf_array M) by now apply wf_cols_to.
  assert (HMr : nrows M = n_twigs) by (simpl; lia).
  assert (HMc : ncols M = n_twigs) by (simpl; lia).
  assert (Hinv : invertible M).
  { destruct (linalg_inv (transpose M)) as [B|e] eqn:E.
    - exists (transpose B). apply inverse_of_transpose; [assumption|].
      apply (linalg_inv_Ok (transpose M) n_twigs); auto.
      now apply wf_transpose.
    - exfalso.
      destruct (singular_kernel (transpose M) n_twigs e)
        as (z & c & Hlt & Hz & Hker); auto.
      { now apply wf_transpose. }
      apply Hz.
      apply (tree_null graph nodes branches n_twigs A_red A_full ref
               Hn Hids Hb Hsz Hspan z); [|assumption].
      intros j Hj. rewrite <- (Hker j Hj).
      apply sum_upto_ext. intros k Hk.
      rewrite get_transpose by lia. unfold M.
      rewrite get_cols_to by assumption. ring. }
  destruct (linalg_inv_cases M HM) as [(B & E & HB)|(msg & _ & Hs)];
    [eauto|contradiction].
Qed.

Close Scope Qc_scope.

(** ** The matrices of a valid connected circuit *)

Lemma firstn_length_app {T : Type} (l1 l2 : list T) :
  firstn (length l1) (l1 ++ l2) = l1.
Proof.
  rewrite firstn_app, Nat.sub_diag, firstn_all. simpl. apply app_nil_r.
Qed.

(** For a valid connected circuit the three matrices are built: the twig
    columns of the reduced incidence matrix have an inverse. *)
Lemma valid_matrices cd G G' twigs links sorted_branches :
  valid_circuit cd ->
  build_graph cd = Ok (Some G, None) ->
  select_tree G (c_branches cd) = (G', (twigs, links, sorted_branches)) ->
  sorted_branches = twigs ++ links /\
  Permutation sorted_branches (c_branches cd) /\
  exists A_red A_full ref Ainv Q B,
    get_incidence_matrix G' (c_nodes cd) sorted_branches
    = Ok (A_red, A_full, ref) /\
    inverse_of (cols_to A_red (length twigs)) Ainv /\
    get_cutset_matrix A_red (length twigs) (length links)
    = Ok (Some Q, None) /\
    array_shape (length twigs) (length twigs + length links) Q /\
    get_tieset_matrix (cols_from Q (length twigs)) (length twigs)
                      (length links) = Ok B /\
    array_shape (length links) (length twigs + length links) B.
Proof.
  intros Hvalid Hbuild Hsel.
  pose proof (twigs_count cd G _ _ _ _ Hvalid Hbuild Hsel) as Hnt.
  destruct (select_tree_eq G (c_branches cd))
    as (twigs' & links' & Hsel' & Hlen & Hperm & Htw).
  rewrite Hsel in Hsel'. injection Hsel' as -> <- <- ->.
  destruct (build_graph_Some cd G Hbuild) as (-> & Hconn & n0 & Hn0).
  assert (Hne : c_nodes cd <> []).
  { intros E. apply (Permutation_in _ (nodes_of_valid cd Hvalid)) in Hn0.
    rewrite E in Hn0. destruct Hn0. }
  assert (Hsz : length twigs + 1 = length (c_nodes cd)).
  { destruct (c_nodes cd); [congruence|simpl in *; lia]. }
  pose proof Hvalid as (Hnd & Hids & Hdecl).
  split; [reflexivity|]. split; [assumption|].
  destruct (get_incidence_matrix_Ok (c_nodes cd) (twigs ++ links)
              (assign_weights (graph_of cd)) Hne)
    as (A_red & A_full & ref & Hinc & HAwf & HAr & HAc).
  { intros b Hb. apply Hdecl. eapply Permutation_in; eauto. }
  rewrite length_app in HAc.
  destruct (tree_columns_regular _ _ _ (length twigs) _ _ _ Hnd
              (Permutation_NoDup
                 (Permutation_map b_id (Permutation_sym Hperm)) Hids)
              Hinc Hsz)
    as (Ainv & _ & Hinv).
  { rewrite length_app. lia. }
  { intros x y Hx Hy. rewrite firstn_length_app, Htw.
    apply (twigs_span cd Hids Hconn); now left. }
  destruct (cutset_regular A_red (length twigs) (length links) Ainv HAwf)
    as (Q & HQ & HQwf & HQr & HQc & _); [lia|assumption|].
  destruct (tieset_Ok (cols_from Q (length twigs)) (length twigs)
                      (length links))
    as (B & HB & HBwf & HBr & HBc & _).
  { now apply wf_cols_from. }
  { simpl. lia. }
  simpl in HBc.
  exists A_red, A_full, ref, Ainv, Q, B.
  repeat (split; [assumption|]).
  split; [split; [assumption|split; lia]|].
  split; [assumption|]. split; [assumption|split; lia].
Qed.

(** X1.  For any order of the branches that starts with a spanning tree, the
    incidence matrix is built, its twig columns have an inverse, and
    [get_cutset_matrix] returns a matrix and no error. *)
Theorem spanning_tree_cutset graph nodes branches n_twigs n_links :
  NoDup nodes -> unique_ids branches ->
  (forall b, In b branches -> In (b_from b) nodes /\ In (b_to b) nodes) ->
  n_twigs + 1 = length nodes ->
  n_twigs + n_links = length branches ->
  (forall x y, In x nodes -> In y nodes ->
               connected_by (firstn n_twigs branches) x y) ->
  exists A_red A_full ref Q,
    get_incidence_matrix graph nodes branches = Ok (A_red, A_full, ref) /\
    invertible (cols_to A_red n_twigs) /\
    get_cutset_matrix A_red n_twigs n_links = Ok (Some Q, None) /\
    nrows Q = n_twigs /\ ncols Q = n_twigs + n_links.
Proof.
  intros Hnd Hids Hdecl Hsz Hlen Hspan.
  assert (Hne : nodes <> []) by (intros ->; simpl in Hsz; lia).
  destruct (get_incidence_matrix_Ok nodes branches graph Hne Hdecl)
    as (A_red & A_full & ref & Hinc & HAwf & HAr & HAc).
  destruct (tree_columns_regular _ _ _ n_twigs _ _ _ Hnd Hids Hinc Hsz)
    as (Ainv & _ & Hinv); [lia|assumption|].
  destruct (cutset_regular A_red n_twigs n_links Ainv HAwf)
    as (Q & HQ & _ & HQr & HQc & _); [lia|assumption|].
  exists A_red, A_full, ref, Q. split; [assumption|].
  split; [now exists Ainv|]. split; [assumption|]. split; lia.
Qed.

Lemma rlc_tree_spans x y :
  In x ["0"; "1"; "2"] -> In y ["0"; "1"; "2"] ->
  connected_by
    (firstn 2 [mkBranch "V1" "1" "0" "V" (q 10 1);
               mkBranch "C1" "2" "0" "C" (q 1 10);
               mkBranch "R1" "1" "2" "R" (q 5 1)]) x y.
Proof.
  set (V1 := mkBranch "V1" "1" "0" "V" (q 10 1)).
  set (C1 := mkBranch "C1" "2" "0" "C" (q 1 10)).
  assert (H : forall z, In z ["0"; "1"; "2"] ->
                        connected_by [V1; C1] "0" z).
  { intros z [<-|[<-|[<-|[]]]].
    - constructor.
    - apply (conn_step _ "0" "0" "1" V1); [constructor|simpl; auto|].
      right. split; reflexivity.
    - apply (conn_step _ "0" "0" "2" C1); [constructor|simpl; auto|].
      right. split; reflexivity. }
  intros Hx Hy. apply connected_by_trans with "0".
  - apply connected_by_sym. now apply H.
  - now apply H.
Qed.

Lemma spanning_tree_cutset_witness :
  exists A_red A_full ref Q,
    get_incidence_matrix [] ["0"; "1"; "2"]
      [mkBranch "V1" "1" "0" "V" (q 10 1);
       mkBranch "C1" "2" "0" "C" (q 1 10);
       mkBranch "R1" "1" "2" "R" (q 5 1)] = Ok (A_red, A_full, ref) /\
    invertible (cols_to A_red 2) /\
    get_cutset_matrix A_red 2 1 = Ok (Some Q, None) /\
    nrows Q = 2 /\ ncols Q = 2 + 1.
Proof.
  apply (spanning_tree_cutset [] ["0"; "1"; "2"] _ 2 1).
  - repeat constructor; simpl; intuition discriminate.
  - unfold unique_ids. repeat constructor; simpl; intuition discriminate.
  - simpl. intros b [<-|[<-|[<-|[]]]]; simpl; auto.
  - reflexivity.
  - reflexivity.
  - exact rlc_tree_spans.
Defined.

(** ** The pipeline on a valid circuit *)

Section ValidCircuit.
Variables Sol Results PlotData TimePoints Images : Type.
Variable solve_equations : list expr -> list string -> result Sol.
Variable convert_to_time_domain
  : Sol -> result (Results * PlotData * TimePoints).
Variable generate_plots : PlotData -> TimePoints -> result Images.

Let solve :=
  solve_circuit Sol Results PlotData TimePoints Images
                solve_equations convert_to_time_domain generate_plots.

(** X2.  On a valid circuit the only error that [solve_circuit] returns is
    the one of [build_graph] for a circuit that is not connected: the
    singular-matrix error of [get_cutset_matrix] is never returned. *)
Theorem valid_failure_unconnected cd error :
  valid_circuit cd ->
  snd (solve cd) = Ok (Failure error) ->
  ~ connected_circuit cd /\
  error = mkError "error" unconnected_message /\
  fst (solve cd) = [GraphBuilder].
Proof.
  intros Hvalid.
  destruct (build_graph_cases cd) as [[_ E]|[[Hc E]|[Hnc E]]].
  - unfold solve, solve_circuit. rewrite E. discriminate.
  - destruct (select_tree (graph_of cd) (c_branches cd))
      as [G' [[twigs links] sb]] eqn:Hsel.
    destruct (valid_matrices cd _ _ _ _ _ Hvalid E Hsel)
      as (-> & Hperm & A_red & A_full & ref & Ainv & Q & B &
          Hinc & _ & HQ & (_ & HQr & HQc) & HB & (_ & HBr & HBc)).
    destruct (build_equations_total (twigs ++ links) Q B (length twigs)
                                    (length links))
      as (eqs & unks & Heq); try (rewrite ?length_app; lia).
    unfold solve, solve_circuit. rewrite E. cbn [enter tbind].
    rewrite Hsel. cbn [enter tbind]. rewrite Hinc. cbn [enter tbind].
    rewrite HQ. cbn [enter tbind]. rewrite HB. cbn [enter tbind].
    rewrite Heq. cbn [enter tbind].
    destruct (solve_equations eqs unks) as [sol|e]; [|discriminate].
    cbn [enter tbind].
    destruct (convert_to_time_domain sol) as [[[results pd] tp]|e];
      [|discriminate].
    cbn [enter tbind].
    destruct (generate_plots pd tp) as [images|e]; discriminate.
  - unfold solve, solve_circuit. rewrite E. cbn [enter tbind snd fst app].
    intros H. injection H as <-. auto.
Qed.
End ValidCircuit.

Lemma two_islands_valid : valid_circuit two_islands.
Proof.
  repeat split.
  - repeat constructor; simpl; intuition discriminate.
  - constructor.
  - destruct H.
  - destruct H.
Qed.

Lemma valid_failure_unconnected_witness :
  ~ connected_circuit two_islands /\
  mkError "error" unconnected_message = mkError "error" unconnected_message /\
  fst (assemble two_islands) = [GraphBuilder].
Proof.
  apply (valid_failure_unconnected _ _ _ _ _ _ _ _ two_islands _
           two_islands_valid).
  vm_compute. reflexivity.
Defined.

Lemma valid_assembled cd :
  valid_circuit cd -> connected_circuit cd -> c_nodes cd <> [] ->
  exists eqs unks,
    assemble cd = (all_phases, Ok (Success (eqs, unks) tt tt)) /\
    length unks = 2 * length (c_branches cd) /\
    length eqs
    = length (c_branches cd) + length (flat_map branch_equation (c_branches cd)).
Proof.
  intros Hvalid Hconn Hne.
  destruct (build_graph_cases cd) as [[E0 _]|[[_ E]|[Hnc _]]];
    [| |contradiction].
  { exfalso. destruct (c_nodes cd) as [|n0 ns] eqn:En; [congruence|].
    assert (H : In n0 (nodes_of (graph_of cd)))
      by (apply graph_nodes; left; rewrite En; now left).
    rewrite E0 in H. destruct H. }
  destruct (select_tree (graph_of cd) (c_branches cd))
    as [G' [[twigs links] sb]] eqn:Hsel.
  destruct (valid_matrices cd _ _ _ _ _ Hvalid E Hsel)
    as (-> & Hperm & A_red & A_full & ref & Ainv & Q & B &
        Hinc & _ & HQ & (_ & HQr & HQc) & HB & (_ & HBr & HBc)).
  destruct (build_equations_total (twigs ++ links) Q B (length twigs)
                                  (length links))
    as (eqs & unks & Heq); try (rewrite ?length_app; lia).
  exists eqs, unks. split.
  - unfold assemble, solve_circuit. rewrite E. cbn [enter tbind].
    rewrite Hsel. cbn [enter tbind]. rewrite Hinc. cbn [enter tbind].
    rewrite HQ. cbn [enter tbind]. rewrite HB. cbn [enter tbind].
    rewrite Heq. reflexivity.
  - destruct (build_equations_Ok _ _ _ _ _ _ _ Heq)
      as (kcl & kvl & H1 & H2 & -> & ->).
    pose proof (Permutation_length Hperm) as Hl.
    rewrite length_app in Hl.
    rewrite !length_app, !length_map, H1, H2, length_app.
    split; [lia|].
    assert (Hf : forall l1 l2, Permutation l1 l2 ->
              length (flat_map branch_equation l1)
              = length (flat_map branch_equation l2)).
    { intros l1 l2 HP. apply Permutation_length.
      now apply Permutation_flat_map. }
    rewrite (Hf _ _ Hperm). lia.
Qed.



Lemma branch_equations_all_known bs :
  length (flat_map branch_equation bs) = length bs ->
  forall b, In b bs -> known_type (b_type b).
Proof.
  induction bs as [|b0 bs IH]; intros H b Hb; [destruct Hb|].
  simpl in H. rewrite length_app in H.
  pose proof (length_branch_equations_le bs) as Hle.
  pose proof (length_branch_equations_le [b0]) as Hle0.
  simpl in Hle0. rewrite app_nil_r in Hle0.
  assert (Hk : known_type (b_type b0) \/ branch_equation b0 = []).
  { unfold known_type, branch_equation, constitutive. cbv zeta.
    destruct (String.eqb_spec (b_type b0) "R"); [tauto|].
    destruct (String.eqb_spec (b_type b0) "L"); [tauto|].
    destruct (String.eqb_spec (b_type b0) "C"); [tauto|].
    destruct (String.eqb_spec (b_type b0) "V"); [tauto|].
    destruct (String.eqb_spec (b_type b0) "I"); [tauto|].
    now right. }
  destruct Hb as [<-|Hb].
  - destruct Hk as [Hk|Hk]; [assumption|].
    rewrite Hk in H. simpl in H. lia.
  - apply IH; [lia|assumption].
Qed.

(** X4.  For a valid connected circuit the system handed to the solver has as
    many equations as unknowns exactly when the type of every branch is one of
    R, L, C, V and I. *)
Theorem square_iff_known_types cd :
  valid_circuit cd -> connected_circuit cd -> c_nodes cd <> [] ->
  exists eqs unks,
    assemble cd = (all_phases, Ok (Success (eqs, unks) tt tt)) /\
    (length eqs = length unks <->
     forall b, In b (c_branches cd) -> known_type (b_type b)).
Proof.
  intros Hvalid Hconn Hne.
  destruct (valid_assembled cd Hvalid Hconn Hne)
    as (eqs & unks & E & Hu & He).
  exists eqs, unks. split; [assumption|]. rewrite Hu, He. split.
  - intros H. apply branch_equations_all_known. lia.
  - intros H. rewrite (length_branch_equations _ H). lia.
Qed.

Lemma square_iff_known_types_witness :
  exists eqs unks,
    assemble with_diode = (all_phases, Ok (Success (eqs, unks) tt tt)) /\
    (length eqs = length unks <->
     forall b, In b (c_branches with_diode) -> known_type (b_type b)).
Proof.
  apply square_iff_known_types.
  - repeat split.
    + repeat constructor; simpl; intuition discriminate.
    + unfold unique_ids. repeat constructor; simpl; intuition discriminate.
    + simpl in H. intuition (subst; simpl; auto).
    + simpl in H. intuition (subst; simpl; auto).
  - intros x y Hx Hy.
    assert (H : forall z, is_node with_diode z ->
                          connected_by (c_branches with_diode) "0" z).
    { intros z [Hz|(b & Hb & Hz)].
      - simpl in Hz. destruct Hz as [<-|[<-|[]]]; [constructor|].
        apply (conn_step _ "0" "0" "1" (mkBranch "V1" "1" "0" "V" (q 5 1)));
          [constructor|simpl; auto|right; split; reflexivity].
      - simpl in Hb. destruct Hb as [<-|[<-|[]]];
          simpl in Hz; destruct Hz as [<-|<-]; try constructor;
          apply (conn_step _ "0" "0" "1" (mkBranch "V1" "1" "0" "V" (q 5 1)));
          try constructor; simpl; auto; right; split; reflexivity. }
    apply connected_by_trans with "0";
      [apply connected_by_sym|]; now apply H.
  - discriminate.
Defined.

(** ** What [get_incidence_matrix] returns *)

Open Scope Qc_scope.

(** X5.  For distinct nodes, distinct branch ids and declared endpoints, the
    full incidence matrix has a row per node and a column per branch, with [1]
    at the 'from' node of the branch, [-1] at its 'to' node ([-1] alone for a
    branch from a node to itself) and [0] elsewhere; the reduced matrix is the
    full one without the row of node ['0'], or without the last row when ['0']
    is not declared. *)
Theorem incidence_matrix_entries graph nodes branches :
  NoDup nodes -> unique_ids branches -> nodes <> [] ->
  (forall b, In b branches -> In (b_from b) nodes /\ In (b_to b) nodes) ->
  exists A_red A_full ref,
    get_incidence_matrix graph nodes branches = Ok (A_red, A_full, ref) /\
    array_shape (length nodes) (length branches) A_full /\
    (forall i j x b,
        nth_error nodes i = Some x -> nth_error branches j = Some b ->
        get A_full i j = incidence_entry x b) /\
    (In "0" nodes -> nth_error nodes ref = Some "0") /\
    (~ In "0" nodes -> ref = (length nodes - 1)%nat) /\
    array_shape (length nodes - 1) (length branches) A_red /\
    (forall i j, get A_red i j = if (i <? ref)%nat then get A_full i j
                                 else get A_full (S i) j).
Proof.
  intros Hnd Hids Hne Hdecl.
  destruct (get_incidence_matrix_Ok nodes branches graph Hne Hdecl)
    as (A_red & A_full & ref & Hinc & _).
  destruct (full_matrix_entries nodes branches Hnd Hids graph _ _ _ Hinc)
    as (Hfull & Hent).
  destruct (reduced_matrix_rows _ _ _ _ _ _ Hinc)
    as (_ & H0 & Hlast & Hred & Hrows).
  exists A_red, A_full, ref. repeat (split; [assumption|]). assumption.
Qed.

Lemma incidence_matrix_entries_witness :
  exists A_red A_full ref,
    get_incidence_matrix [] (c_nodes series_rlc) (c_branches series_rlc)
    = Ok (A_red, A_full, ref) /\
    array_shape 3 3 A_full /\
    (forall i j x b,
        nth_error (c_nodes series_rlc) i = Some x ->
        nth_error (c_branches series_rlc) j = Some b ->
        get A_full i j = incidence_entry x b) /\
    (In "0" (c_nodes series_rlc) ->
     nth_error (c_nodes series_rlc) ref = Some "0") /\
    (~ In "0" (c_nodes series_rlc) -> ref = 2%nat) /\
    array_shape 2 3 A_red /\
    (forall i j, get A_red i j = if (i <? ref)%nat then get A_full i j
                                 else get A_full (S i) j).
Proof.
  apply (incidence_matrix_entries [] (c_nodes series_rlc)
           (c_branches series_rlc)).
  - exact (proj1 series_rlc_valid).
  - exact (proj1 (proj2 series_rlc_valid)).
  - discriminate.
  - exact (proj2 (proj2 series_rlc_valid)).
Defined.

Close Scope Qc_scope.

(** The first branch with an endpoint that is not declared, if any. *)
Lemma first_undeclared nodes (bs : list branch) :
  (forall b, In b bs -> In (b_from b) nodes /\ In (b_to b) nodes) \/
  (exists pre b post,
      bs = pre ++ b :: post /\
      (forall b', In b' pre -> In (b_from b') nodes /\ In (b_to b') nodes) /\
      ~ (In (b_from b) nodes /\ In (b_to b) nodes)).
Proof.
  induction bs as [|b bs IH].
  - left. intros b [].
  - destruct (in_dec string_dec (b_from b) nodes) as [Hu|Hu];
      [destruct (in_dec string_dec (b_to b) nodes) as [Hv|Hv]|].
    + destruct IH as [IH|(pre & b0 & post & -> & Hpre & Hb0)].
      * left. intros b' [<-|Hb']; auto.
      * right. exists (b :: pre), b0, post. split; [reflexivity|].
        split; [|assumption]. intros b' [<-|Hb']; auto.
    + right. exists [], b, bs. split; [reflexivity|].
      split; [intros b' []|tauto].
    + right. exists [], b, bs. split; [reflexivity|].
      split; [intros b' []|tauto].
Qed.

Lemma fill_branches_app nm bm bs1 : forall A bs2,
  fill_branches nm bm A (bs1 ++ bs2)
  = (A1 <- fill_branches nm bm A bs1 ;; fill_branches nm bm A1 bs2).
Proof.
  induction bs1 as [|b bs1 IH]; intros A bs2; simpl; [reflexivity|].
  destruct (fill_branch nm bm A b) as [A1|e]; simpl; [apply IH|reflexivity].
Qed.

(** X6.  The three outcomes of [get_incidence_matrix]: the matrices; the
    [KeyError] of the first endpoint, in the order of the branches and 'from'
    before 'to', that is not a declared node; the [IndexError] of [np.delete]
    when there is neither a node nor a branch. *)
Theorem incidence_matrix_outcomes graph nodes branches :
  match get_incidence_matrix graph nodes branches with
  | Ok (A_red, A_full, ref) =>
      nodes <> [] /\
      (forall b, In b branches ->
                 In (b_from b) nodes /\ In (b_to b) nodes) /\
      array_shape (length nodes) (length branches) A_full /\
      array_shape (length nodes - 1) (length branches) A_red /\
      ref < length nodes
  | Raise (KeyError k) =>
      exists pre b post,
        branches = pre ++ b :: post /\
        (forall b', In b' pre ->
                    In (b_from b') nodes /\ In (b_to b') nodes) /\
        ~ In k nodes /\
        (k = b_from b \/ (In (b_from b) nodes /\ k = b_to b))
  | Raise IndexError => nodes = [] /\ branches = []
  | Raise _ => False
  end.
Proof.
  destruct (first_undeclared nodes branches)
    as [Hdecl|(pre & b & post & E & Hpre & Hbad)].
  - destruct nodes as [|n0 ns] eqn:En.
    + destruct branches as [|b bs].
      * simpl. split; reflexivity.
      * destruct (Hdecl b (or_introl eq_refl)) as [[] _].
    + rewrite <- En in *.
      assert (Hne : nodes <> []) by (rewrite En; discriminate).
      destruct (get_incidence_matrix_Ok nodes branches graph Hne Hdecl)
        as (A_red & A_full & ref & Hinc & _).
      rewrite Hinc.
      destruct (reduced_matrix_rows _ _ _ _ _ _ Hinc)
        as (Hlt & _ & _ & Hred & _).
      split; [assumption|]. split; [assumption|].
      split; [|split; assumption].
      unfold get_incidence_matrix in Hinc.
      destruct (fill_branches (index_map nodes)
                  (index_map (map b_id branches))
                  (zeros (length nodes) (length branches)) branches)
        as [A|] eqn:EF; [|discriminate].
      pose proof (fill_branches_shape _ _ _ _ _ _ _
                    (zeros_shape nodes branches) EF) as HA.
      simpl in Hinc.
      destruct (dict_get "0" (index_map nodes)) as [r|];
        [|destruct (length nodes) eqn:El; [discriminate|]];
        (destruct (delete_row A _); [|discriminate]);
        simpl in Hinc; injection Hinc as _ <- _;
        rewrite ?El; assumption.
  - assert (EF : fill_branches (index_map nodes)
                   (index_map (map b_id branches))
                   (zeros (length nodes) (length branches)) branches
                 = (A1 <- fill_branches (index_map nodes)
                            (index_map (map b_id branches))
                            (zeros (length nodes) (length branches)) pre ;;
                    fill_branches (index_map nodes)
                      (index_map (map b_id branches)) A1 (b :: post))).
    { rewrite <- fill_branches_app. now rewrite <- E. }
    unfold get_incidence_matrix. rewrite EF. clear EF.
    destruct (fill_branches_Ok nodes branches pre
                (zeros (length nodes) (length branches))
                (zeros_shape nodes branches))
      as (A1 & -> & HA1); [|assumption|].
    { intros b' Hb'. rewrite E. apply in_or_app. now left. }
    assert (Hb : In b branches)
      by (rewrite E; apply in_or_app; right; now left).
    assert (Hk : exists k,
               fill_branch (index_map nodes) (index_map (map b_id branches))
                           A1 b = Raise (KeyError k) /\
               ~ In k nodes /\
               (k = b_from b \/ (In (b_from b) nodes /\ k = b_to b))).
    { unfold fill_branch.
      destruct (lookup_branch branches b Hb) as (bi & -> & _). simpl.
      unfold lookup.
      destruct (in_dec string_dec (b_from b) nodes) as [Hu|Hu].
      - destruct (index_map_In nodes _ Hu) as (ui & -> & _). simpl.
        assert (Hv : ~ In (b_to b) nodes) by tauto.
        rewrite (index_map_notin nodes _ Hv). simpl. eauto 6.
      - rewrite (index_map_notin nodes _ Hu). simpl. eauto 6. }
    destruct Hk as (k & Hk & Hnk & Hend).
    cbn [bind fill_branches]. rewrite Hk. cbn [bind].
    exists pre, b, post. auto.
Qed.

(** ** The cut-set and tie-set matrices together *)

Open Scope Qc_scope.

(** What [get_cutset_matrix] has computed when it returns a matrix. *)
Lemma cutset_returned A_red nt nl Q :
  wf_array A_red -> (nt <= ncols A_red)%nat ->
  get_cutset_matrix A_red nt nl = Ok (Some Q, None) ->
  exists Ainv,
    inverse_of (cols_to A_red nt) Ainv /\ nrows A_red = nt /\
    wf_array Q /\ nrows Q = nt /\ ncols Q = ncols A_red /\
    (forall i j, (i < nt)%nat -> (j < nt)%nat -> get Q i j = delta i j) /\
    (forall i j, (i < nt)%nat -> (j < ncols A_red - nt)%nat ->
       get Q i (nt + j) = - mul_at Ainv (cols_from A_red nt) i j).
Proof.
  intros HA Hle E.
  destruct (linalg_inv_cases (cols_to A_red nt) (wf_cols_to _ _ HA))
    as [(B0 & E0 & HB0)|(msg & E0 & _)].
  - destruct (cutset_regular A_red nt nl B0 HA Hle HB0)
      as (Q' & EQ & H). rewrite E in EQ. injection EQ as <-.
    exists B0. split; [assumption|]. split; [|assumption].
    destruct HB0 as (Hsq & _). simpl in Hsq. lia.
  - unfold get_cutset_matrix in E. rewrite E0 in E. discriminate.
Qed.

(** X7.  Every row of the cut-set matrix is orthogonal to every row of the
    tie-set matrix that is built from it. *)
Theorem cutset_tieset_orthogonal A_red n_twigs n_links Q B :
  wf_array A_red ->
  ncols A_red = (n_twigs + n_links)%nat ->
  get_cutset_matrix A_red n_twigs n_links = Ok (Some Q, None) ->
  get_tieset_matrix (cols_from Q n_twigs) n_twigs n_links = Ok B ->
  forall i j, (i < n_twigs)%nat -> (j < n_links)%nat ->
    sum_upto (n_twigs + n_links) (fun k => get Q i k * get B j k) = Q2Qc 0.
Proof.
  intros HA Hc EQ EB i j Hi Hj.
  destruct (cutset_returned A_red n_twigs n_links Q HA) as
    (Ainv & _ & _ & HQwf & HQr & HQc & HQ1 & _); [lia|assumption|].
  destruct (tieset_Ok (cols_from Q n_twigs) n_twigs n_links)
    as (B' & EB' & _ & _ & _ & HB1 & HB2).
  { now apply wf_cols_from. }
  { simpl. lia. }
  rewrite EB in EB'. injection EB' as <-.
  simpl in HB1, HB2. rewrite HQr in HB1, HB2.
  rewrite sum_upto_app.
  rewrite (sum_upto_ext n_twigs _
             (fun k => delta i k * - get Q k (n_twigs + j)%nat)).
  2:{ intros k Hk. rewrite HQ1, HB1, get_cols_from by assumption.
      reflexivity. }
  rewrite sum_upto_delta by assumption.
  rewrite (sum_upto_ext n_links _
             (fun k => get Q i (n_twigs + k)%nat * delta k j)).
  2:{ intros k Hk. rewrite HB2 by assumption. now rewrite (delta_sym j k). }
  rewrite sum_upto_delta_r by assumption. ring.
Qed.

Lemma cutset_tieset_orthogonal_witness :
  exists Q B,
    get_cutset_matrix rlc_A_red 2 1 = Ok (Some Q, None) /\
    get_tieset_matrix (cols_from Q 2) 2 1 = Ok B /\
    forall i j, (i < 2)%nat -> (j < 1)%nat ->
      sum_upto (2 + 1) (fun k => get Q i k * get B j k) = Q2Qc 0.
Proof.
  eexists. eexists.
  split; [vm_compute; reflexivity|].
  split; [vm_compute; reflexivity|].
  apply (cutset_tieset_orthogonal rlc_A_red 2 1 _ _ rlc_A_red_wf eq_refl);
    vm_compute; reflexivity.
Defined.

(** X8.  The link columns of the cut-set matrix solve [A_t . Q_l = - A_l]:
    multiplied by the twig columns of the reduced incidence matrix, the
    cut-set matrix gives back [[A_t | - A_l]]. *)
Theorem cutset_matrix_solves A_red n_twigs n_links Q :
  wf_array A_red ->
  ncols A_red = (n_twigs + n_links)%nat ->
  get_cutset_matrix A_red n_twigs n_links = Ok (Some Q, None) ->
  forall i j, (i < n_twigs)%nat -> (j < n_twigs + n_links)%nat ->
    sum_upto n_twigs (fun k => get A_red i k * get Q k j)
    = if (j <? n_twigs)%nat then get A_red i j else - get A_red i j.
Proof.
  intros HA Hc EQ i j Hi Hj.
  destruct (cutset_returned A_red n_twigs n_links Q HA) as
    (Ainv & Hinv & Hr & _ & _ & _ & HQ1 & HQ2); [lia|assumption|].
  destruct Hinv as (_ & _ & _ & HAc & Hmul).
  simpl in HAc, Hmul. rewrite Hr in HAc, Hmul.
  destruct (Nat.ltb_spec j n_twigs) as [Hlt|Hge].
  - rewrite (sum_upto_ext n_twigs _ (fun k => get A_red i k * delta k j)).
    + now apply sum_upto_delta_r.
    + intros k Hk. now rewrite HQ1.
  - replace j with (n_twigs + (j - n_twigs))%nat by lia.
    set (j' := (j - n_twigs)%nat).
    rewrite (sum_upto_ext n_twigs _
               (fun k => - (1) * sum_upto n_twigs
                                   (fun l => get A_red i k * get Ainv k l
                                             * get A_red l (n_twigs + j')%nat))).
    2:{ intros k Hk. rewrite HQ2 by (unfold j'; lia).
        unfold mul_at. rewrite HAc.
        transitivity (- (1) * (get A_red i k
                      * sum_upto n_twigs
                          (fun l => get Ainv k l
                                    * get (cols_from A_red n_twigs) l j')));
          [ring|].
        f_equal. rewrite <- sum_upto_scale. apply sum_upto_ext.
        intros l _. rewrite get_cols_from. ring. }
    rewrite sum_upto_scale, sum_upto_swap.
    rewrite (sum_upto_ext n_twigs _
               (fun l => delta i l * get A_red l (n_twigs + j')%nat)).
    2:{ intros l Hl. destruct (Hmul i l Hi Hl) as [_ H].
        unfold mul_at in H. simpl in H.
        replace (Nat.min n_twigs (ncols A_red)) with n_twigs in H by lia.
        rewrite <- H.
        rewrite (sum_upto_ext n_twigs _
                   (fun k => get A_red l (n_twigs + j')%nat
                             * (get (cols_to A_red n_twigs) i k
                                * get Ainv k l))).
        - now rewrite sum_upto_scale, Qcmult_comm.
        - intros k Hk. rewrite get_cols_to by assumption. ring. }
    rewrite sum_upto_delta by assumption. ring.
Qed.

Lemma cutset_matrix_solves_witness :
  exists Q,
    get_cutset_matrix rlc_A_red 2 1 = Ok (Some Q, None) /\
    forall i j, (i < 2)%nat -> (j < 2 + 1)%nat ->
      sum_upto 2 (fun k => get rlc_A_red i k * get Q k j)
      = if (j <? 2)%nat then get rlc_A_red i j else - get rlc_A_red i j.
Proof.
  eexists. split; [vm_compute; reflexivity|].
  apply (cutset_matrix_solves rlc_A_red 2 1 _ rlc_A_red_wf eq_refl).
  vm_compute. reflexivity.
Defined.

(** X9.  [get_cutset_matrix] returns a matrix when the twig columns have an
    inverse and are as many as the rows, returns the error when they have no
    inverse, and raises [ValueError], from [np.hstack], when they have an
    inverse but [n_twigs] is not the number of rows. *)
Theorem cutset_matrix_outcomes A_red n_twigs n_links :
  wf_array A_red ->
  match get_cutset_matrix A_red n_twigs n_links with
  | Ok (Some Q, None) =>
      invertible (cols_to A_red n_twigs) /\ nrows A_red = n_twigs /\
      array_shape n_twigs (n_twigs + (ncols A_red - n_twigs)) Q
  | Ok (None, Some error) =>
      ~ invertible (cols_to A_red n_twigs) /\ status error = "error"
  | Ok _ => False
  | Raise e =>
      e = ValueError /\ invertible (cols_to A_red n_twigs) /\
      nrows A_red <> n_twigs
  end.
Proof.
  intros HA. unfold get_cutset_matrix.
  destruct (linalg_inv_cases (cols_to A_red n_twigs) (wf_cols_to _ _ HA))
    as [(B0 & -> & HB0)|(msg & -> & Hs)]; [|split; [assumption|reflexivity]].
  pose proof HB0 as (_ & HB0wf & HB0r & HB0c & _). simpl in HB0r, HB0c.
  destruct (dot_Ok B0 (cols_from A_red n_twigs))
    as (P & -> & HPr & HPc & HPwf & _).
  { simpl. congruence. }
  simpl. specialize (HPwf HB0wf).
  destruct (Nat.eq_dec n_twigs (nrows A_red)) as [E|E].
  - destruct (hstack_Ok (eye n_twigs) (neg P)) as (Q & -> & HQr & HQc & HQwf & _).
    { simpl. congruence. }
    { apply wf_eye. }
    { now apply wf_neg. }
    simpl in *. split; [now exists B0|]. split; [congruence|].
    split; [assumption|]. split; lia.
  - rewrite hstack_Raise by (simpl; congruence). simpl.
    split; [reflexivity|]. split; [now exists B0|congruence].
Qed.

Lemma cutset_matrix_outcomes_witness :
  match get_cutset_matrix rlc_A_red 2 1 with
  | Ok (Some Q, None) =>
      invertible (cols_to rlc_A_red 2) /\ nrows rlc_A_red = 2%nat /\
      array_shape 2 (2 + (ncols rlc_A_red - 2)) Q
  | Ok (None, Some error) =>
      ~ invertible (cols_to rlc_A_red 2) /\ status error = "error"
  | Ok _ => False
  | Raise e =>
      e = ValueError /\ invertible (cols_to rlc_A_red 2) /\
      nrows rlc_A_red <> 2%nat
  end.
Proof. exact (cutset_matrix_outcomes rlc_A_red 2 1 rlc_A_red_wf). Defined.

(** X10.  [get_tieset_matrix] returns [[- Q_l^T | I]] when [Q_l] has [n_links]
    columns and raises [ValueError], from [np.hstack], when it has not;
    [n_twigs] plays no part. *)
Theorem tieset_matrix_outcomes Q_l n_twigs n_links :
  wf_array Q_l ->
  match get_tieset_matrix Q_l n_twigs n_links with
  | Ok B =>
      ncols Q_l = n_links /\
      array_shape n_links (nrows Q_l + n_links) B /\
      (forall i j, (i < n_links)%nat -> (j < nrows Q_l)%nat ->
         get B i j = - get Q_l j i) /\
      (forall i j, (i < n_links)%nat -> (j < n_links)%nat ->
         get B i (nrows Q_l + j) = delta i j)
  | Raise e => e = ValueError /\ ncols Q_l <> n_links
  end.
Proof.
  intros HQ. destruct (Nat.eq_dec (ncols Q_l) n_links) as [E|E].
  - destruct (tieset_Ok Q_l n_twigs n_links HQ E)
      as (B & -> & HBwf & HBr & HBc & H1 & H2).
    split; [assumption|]. split; [|split; assumption].
    split; [assumption|]. split; assumption.
  - unfold get_tieset_matrix. rewrite hstack_Raise by (simpl; congruence).
    split; [reflexivity|assumption].
Qed.

Lemma tieset_matrix_outcomes_witness :
  match get_tieset_matrix (cols_from rlc_A_red 2) 2 1 with
  | Ok B =>
      ncols (cols_from rlc_A_red 2) = 1%nat /\
      array_shape 1 (nrows (cols_from rlc_A_red 2) + 1) B /\
      (forall i j, (i < 1)%nat -> (j < nrows (cols_from rlc_A_red 2))%nat ->
         get B i j = - get (cols_from rlc_A_red 2) j i) /\
      (forall i j, (i < 1)%nat -> (j < 1)%nat ->
         get B i (nrows (cols_from rlc_A_red 2) + j) = delta i j)
  | Raise e => e = ValueError /\ ncols (cols_from rlc_A_red 2) <> 1%nat
  end.
Proof.
  exact (tieset_matrix_outcomes (cols_from rlc_A_red 2) 2 1
           (wf_cols_from _ _ rlc_A_red_wf)).
Defined.

Close Scope Qc_scope.

(** ** The Kirchhoff rows of [build_equations] *)

Open Scope Qc_scope.

Lemma row_sum_eval env M sym i n : forall a eqn e,
  row_sum M sym i (seq a n) eqn = Ok e ->
  eval env e
  = eval env eqn
    + sum_upto n (fun k => get M i (a + k)%nat * env (nth (a + k)%nat sym "")).
Proof.
  induction n as [|n IH]; intros a eqn e H; simpl in H.
  - injection H as <-. simpl. ring.
  - unfold getitem in H.
    destruct ((i <? nrows M)%nat && (a <? ncols M)%nat); [|discriminate].
    simpl in H. rewrite (IH _ _ _ H), sum_upto_first. simpl.
    rewrite Nat.add_0_r.
    rewrite (sum_upto_ext n _
               (fun k => get M i (a + S k)%nat
                         * env (nth (a + S k)%nat sym ""))).
    + ring.
    + intros k _. now rewrite Nat.add_succ_r.
Qed.

Lemma mapM_nth {A B : Type} (f : A -> result B) (l : list A) : forall ys i d d',
  mapM f l = Ok ys -> (i < length l)%nat ->
  f (nth i l d) = Ok (nth i ys d').
Proof.
  induction l as [|x l IH]; intros ys i d d' H Hi; [simpl in Hi; lia|].
  simpl in H. destruct (f x) as [y|] eqn:Ex; [|discriminate]. simpl in H.
  destruct (mapM f l) as [ys'|] eqn:El; [|discriminate]. simpl in H.
  injection H as <-. destruct i as [|i]; [assumption|].
  simpl. apply IH; [reflexivity|simpl in Hi; lia].
Qed.

(** X13.  The equation of a twig is row [i] of [Q] applied to the branch
    currents, the equation of a link is row [i] of [B] applied to the branch
    voltages, whatever values the symbols take. *)
Theorem kirchhoff_rows_eval sorted_branches Q B n_twigs n_links eqs unks env :
  build_equations sorted_branches Q B n_twigs n_links = Ok (eqs, unks) ->
  let V_sym := map (fun b => ("V_" ++ b_id b)%string) sorted_branches in
  let I_sym := map (fun b => ("I_" ++ b_id b)%string) sorted_branches in
  (forall i, (i < n_twigs)%nat ->
     eval env (nth i eqs (ENum (Q2Qc 0)))
     = sum_upto (length sorted_branches)
         (fun j => get Q i j * env (nth j I_sym ""))) /\
  (forall i, (i < n_links)%nat ->
     eval env (nth (n_twigs + i) eqs (ENum (Q2Qc 0)))
     = sum_upto (length sorted_branches)
         (fun j => get B i j * env (nth j V_sym ""))).
Proof.
  intros H V_sym I_sym. unfold build_equations in H.
  fold V_sym I_sym in H.
  destruct (mapM (row_equation Q I_sym (length sorted_branches))
                 (seq 0 n_twigs)) as [kcl|] eqn:E1; [|discriminate].
  simpl in H.
  destruct (mapM (row_equation B V_sym (length sorted_branches))
                 (seq 0 n_links)) as [kvl|] eqn:E2; [|discriminate].
  simpl in H. injection H as <- _.
  pose proof (mapM_length _ _ _ E1) as L1. rewrite length_seq in L1.
  pose proof (mapM_length _ _ _ E2) as L2. rewrite length_seq in L2.
  split; intros i Hi.
  - rewrite app_nth1 by lia.
    pose proof (mapM_nth _ _ _ i 0%nat (ENum (Q2Qc 0)) E1) as Hr.
    rewrite length_seq, seq_nth in Hr by assumption.
    specialize (Hr Hi). unfold row_equation in Hr.
    rewrite (row_sum_eval env _ _ _ _ _ _ _ Hr). simpl. ring.
  - rewrite app_nth2 by lia. rewrite app_nth1 by lia.
    replace (n_twigs + i - length kcl)%nat with i by lia.
    pose proof (mapM_nth _ _ _ i 0%nat (ENum (Q2Qc 0)) E2) as Hr.
    rewrite length_seq, seq_nth in Hr by assumption.
    specialize (Hr Hi). unfold row_equation in Hr.
    rewrite (row_sum_eval env _ _ _ _ _ _ _ Hr). simpl. ring.
Qed.

Close Scope Qc_scope.

Lemma kirchhoff_rows_eval_witness :
  exists Q B eqs unks,
    get_cutset_matrix rlc_A_red 2 1 = Ok (Some Q, None) /\
    get_tieset_matrix (cols_from Q 2) 2 1 = Ok B /\
    build_equations [mkBranch "V1" "1" "0" "V" (q 10 1);
                     mkBranch "C1" "2" "0" "C" (q 1 10);
                     mkBranch "R1" "1" "2" "R" (q 5 1)] Q B 2 1
    = Ok (eqs, unks) /\
    forall env,
      (forall i, i < 2 ->
         eval env (nth i eqs (ENum (Q2Qc 0)))
         = sum_upto 3
             (fun j => (get Q i j
                        * env (nth j ["I_V1"; "I_C1"; "I_R1"] ""))%Qc)) /\
      (forall i, i < 1 ->
         eval env (nth (2 + i) eqs (ENum (Q2Qc 0)))
         = sum_upto 3
             (fun j => (get B i j
                        * env (nth j ["V_V1"; "V_C1"; "V_R1"] ""))%Qc)).
Proof.
  eexists. eexists. eexists. eexists.
  split; [vm_compute; reflexivity|].
  split; [vm_compute; reflexivity|].
  split; [vm_compute; reflexivity|].
  intros env.
  eapply (kirchhoff_rows_eval
           [mkBranch "V1" "1" "0" "V" (q 10 1);
            mkBranch "C1" "2" "0" "C" (q 1 10);
            mkBranch "R1" "1" "2" "R" (q 5 1)] _ _ 2 1 _ _ env).
  vm_compute. reflexivity.
Defined.

(** ** The unknowns *)






(** ** The outcomes of [build_equations] *)






(** ** The twigs have no cycle *)

Lemma spanning_needs_edges ns n0 es :
  NoDup ns -> within ns es -> In n0 ns ->
  (forall x, In x ns -> econn es n0 x) ->
  length ns <= length es + 1.
Proof.
  intros Hnd Hw Hn0 Hspan.
  pose proof (kruskal_loop_size ns es Hnd Hw n0 Hn0 Hspan).
  pose proof (kruskal_loop_length es uf_init). lia.
Qed.

Section TwigsAcyclic.
Variable cd : circuit.
Hypothesis ids : unique_ids (c_branches cd).
Hypothesis connected : connected_circuit cd.

Let G := graph_of cd.
Let twigs :=
  filter (fun b => mem (b_id b)
            (map e_key (minimum_spanning_edges (assign_weights G))))
         (c_branches cd).

(** The twigs other than [b]. *)
Let others (b : branch) :=
  filter (fun b' => negb (String.eqb (b_id b') (b_id b))) twigs.

Lemma twigs_ids_NoDup : NoDup (map b_id twigs).
Proof. apply NoDup_map_filter. exact ids. Qed.

Lemma twig_by_id b b' : In b twigs -> In b' twigs -> b_id b' = b_id b -> b' = b.
Proof.
  intros Hb Hb' E. exact (NoDup_map_eq b_id twigs b' b twigs_ids_NoDup Hb' Hb E).
Qed.

Lemma others_reroute b x y :
  In b twigs ->
  connected_by (others b) (b_from b) (b_to b) ->
  connected_by twigs x y -> connected_by (others b) x y.
Proof.
  intros Hb Hcyc H. induction H as [x|x y z b' Hxy IH Hb' Hj].
  - constructor.
  - apply connected_by_trans with y; [assumption|].
    destruct (String.eqb (b_id b') (b_id b)) eqn:E.
    + apply String.eqb_eq in E.
      rewrite (twig_by_id b b' Hb Hb' E) in Hj.
      destruct Hj as [[<- <-]|[<- <-]];
        [assumption|now apply connected_by_sym].
    + apply (conn_step _ y y z b'); [constructor| |assumption].
      apply filter_In. split; [assumption|]. now rewrite E.
Qed.

Lemma twigs_no_cycle b :
  In b twigs -> ~ connected_by (others b) (b_from b) (b_to b).
Proof.
  intros Hb Hcyc.
  assert (Hbb : In b (c_branches cd)) by (apply filter_In in Hb; tauto).
  assert (Hn0 : In (b_from b) (nodes_of G)).
  { apply graph_nodes. right. eauto. }
  pose proof (T_size cd ids connected _ Hn0) as HT.
  pose proof (twigs_size cd ids) as Ht. fold G twigs in HT, Ht.
  assert (Hlen : length (nodes_of G)
                 <= length (map edge_of_branch (others b)) + 1).
  { apply (spanning_needs_edges _ (b_from b)).
    - apply so_nodes, structure_ok_graph_of.
    - intros e He. apply in_map_iff in He as (b' & <- & Hb').
      apply filter_In in Hb' as [Hb' _]. apply filter_In in Hb' as [Hb' _].
      simpl. split; apply graph_nodes; right; eauto.
    - assumption.
    - intros x Hx. apply connected_by_edges.
      apply (others_reroute b _ _ Hb Hcyc).
      apply (twigs_span cd ids connected); now apply graph_nodes. }
  rewrite length_map in Hlen.
  assert (Hle : length (b :: others b) <= length twigs).
  { apply NoDup_incl_length.
    - constructor.
      + intros H. apply filter_In in H as [_ H].
        now rewrite String.eqb_refl in H.
      + apply NoDup_filter.
        exact (NoDup_map_inv b_id twigs twigs_ids_NoDup).
    - intros b' [<-|Hb']; [assumption|].
      apply filter_In in Hb'. tauto. }
  simpl in Hle. lia.
Qed.

Lemma loop_not_twig b : In b twigs -> b_from b <> b_to b.
Proof.
  intros Hb E. apply (twigs_no_cycle b Hb). rewrite E. constructor.
Qed.

Lemma parallel_twigs b1 b2 :
  In b1 twigs -> In b2 twigs -> joins b1 (b_from b2) (b_to b2) -> b1 = b2.
Proof.
  intros H1 H2 Hj.
  destruct (String.eqb (b_id b1) (b_id b2)) eqn:E.
  - apply String.eqb_eq in E. now apply twig_by_id.
  - exfalso. apply (twigs_no_cycle b2 H2).
    apply (conn_step _ _ (b_from b2) _ b1); [constructor| |assumption].
    apply filter_In. split; [assumption|]. now rewrite E.
Qed.
End TwigsAcyclic.

(** X16.  The twigs that [select_tree] returns have no cycle: the two ends of
    a twig are not connected by the other twigs. So a branch from a node to
    itself is always a link, and of the branches between the same two nodes at
    most one is a twig. *)
Theorem twigs_acyclic cd G G' twigs links sorted_branches :
  unique_ids (c_branches cd) ->
  build_graph cd = Ok (Some G, None) ->
  select_tree G (c_branches cd) = (G', (twigs, links, sorted_branches)) ->
  (forall b, In b twigs ->
     ~ connected_by
         (filter (fun b' => negb (String.eqb (b_id b') (b_id b))) twigs)
         (b_from b) (b_to b)) /\
  (forall b, In b (c_branches cd) -> b_from b = b_to b -> In b links) /\
  (forall b1 b2, In b1 twigs -> In b2 twigs ->
                 joins b1 (b_from b2) (b_to b2) -> b1 = b2).
Proof.
  intros Hids Hbuild Hsel.
  destruct (build_graph_Some cd G Hbuild) as (-> & Hconn & _).
  unfold select_tree in Hsel. injection Hsel as _ <- <- _.
  split; [|split].
  - intros b Hb. exact (twigs_no_cycle cd Hids Hconn b Hb).
  - intros b Hb E. apply filter_In. split; [assumption|].
    destruct (mem (b_id b) _) eqn:Em; [|reflexivity].
    exfalso. apply (loop_not_twig cd Hids Hconn b); [|assumption].
    apply filter_In. auto.
  - intros b1 b2. exact (parallel_twigs cd Hids Hconn b1 b2).
Qed.

Lemma twigs_acyclic_witness :
  In (mkBranch "R2" "1" "1" "R" (q 5 1))
     [mkBranch "R2" "1" "1" "R" (q 5 1)].
Proof.
  refine (proj1 (proj2 (twigs_acyclic with_loop (graph_of with_loop) _ _ _ _
                          _ _ _))
                (mkBranch "R2" "1" "1" "R" (q 5 1)) _ eq_refl).
  - unfold unique_ids. repeat constructor; simpl; intuition discriminate.
  - vm_compute. reflexivity.
  - vm_compute. reflexivity.
  - simpl. auto.
Defined.

(** ** Selecting the tree twice *)

Lemma dict_map_idem {V : Type} (f : V -> V) (d : list (string * V)) :
  (forall v, f (f v) = f v) -> dict_map f (dict_map f d) = dict_map f d.
Proof.
  intros Hf. unfold dict_map. rewrite map_map. apply map_ext.
  intros [k v]. now rewrite Hf.
Qed.

Lemma reweight_idem G : reweight (reweight G) = reweight G.
Proof.
  unfold reweight. apply dict_map_idem. intros nb.
  apply dict_map_idem. intros kd. apply dict_map_idem. exact with_weight_idem.
Qed.

(** X17.  [select_tree] can be run again on the graph it has written the
    weights into: the graph stays as it is and the same twigs and links come
    back. *)
Theorem select_tree_idempotent cd bs :
  let G' := fst (select_tree (graph_of cd) bs) in
  select_tree G' bs = select_tree (graph_of cd) bs.
Proof.
  simpl. unfold select_tree.
  pose proof (structure_ok_graph_of cd) as HG.
  destruct (assign_weights_spec _ HG) as (HG' & _).
  assert (E : assign_weights (assign_weights (graph_of cd))
              = assign_weights (graph_of cd)).
  { rewrite (assign_weights_reweight _ HG') .
    rewrite (assign_weights_reweight _ HG). apply reweight_idem. }
  now rewrite E.
Qed.

(** ** What [build_graph] returns *)

Lemma nodes_add_nodes_from ns : forall G,
  NoDup ns -> (forall x, In x ns -> ~ In x (nodes_of G)) ->
  nodes_of (add_nodes_from ns G) = nodes_of G ++ ns.
Proof.
  induction ns as [|n ns IH]; intros G Hnd Hnew; simpl.
  - now rewrite app_nil_r.
  - inversion Hnd as [|? ? Hn Hns]; subst.
    change (add_nodes_from (n :: ns) G) with (add_nodes_from ns (add_node n G)).
    assert (Hm : dict_mem n G = false).
    { destruct (dict_mem n G) eqn:E; [|reflexivity].
      apply dict_mem_iff in E. exfalso. apply (Hnew n); [now left|exact E]. }
    rewrite IH; [| assumption |].
    + rewrite nodes_add_node, Hm, <- app_assoc. reflexivity.
    + intros x Hx. rewrite nodes_add_node, Hm. intros H.
      apply in_app_or in H as [H|[<-|[]]]; [|contradiction].
      apply (Hnew x); [now right|assumption].
Qed.

Lemma nodes_add_branches bs : forall G,
  (forall b, In b bs -> In (b_from b) (nodes_of G) /\ In (b_to b) (nodes_of G)) ->
  nodes_of (add_branches bs G) = nodes_of G.
Proof.
  induction bs as [|b bs IH]; intros G Hd; [reflexivity|].
  change (add_branches (b :: bs) G)
    with (add_branches bs (add_edge (b_from b) (b_to b) (b_id b)
                                    (b_type b) (b_value b) G)).
  destruct (Hd b (or_introl eq_refl)) as [Hu Hv].
  assert (E : nodes_of (add_edge (b_from b) (b_to b) (b_id b)
                                 (b_type b) (b_value b) G) = nodes_of G).
  { rewrite nodes_add_edge, !nodes_add_node.
    assert (Hmu : dict_mem (b_from b) G = true) by now apply dict_mem_iff.
    rewrite Hmu.
    assert (Hmv : dict_mem (b_to b) (add_node (b_from b) G) = true).
    { apply dict_mem_iff. unfold add_node. now rewrite Hmu. }
    now rewrite Hmv. }
  rewrite IH; [assumption|].
  intros b' Hb'. rewrite E. apply Hd. now right.
Qed.

Lemma graph_nodes_declared cd :
  valid_circuit cd -> nodes_of (graph_of cd) = c_nodes cd.
Proof.
  intros (Hnd & _ & Hdecl).
  assert (E : nodes_of (add_nodes_from (c_nodes cd) []) = c_nodes cd).
  { rewrite nodes_add_nodes_from; auto. }
  change (graph_of cd)
    with (add_branches (c_branches cd) (add_nodes_from (c_nodes cd) [])).
  rewrite nodes_add_branches; [assumption|].
  intros b Hb. rewrite E. now apply Hdecl.
Qed.

Lemma graph_edges_branches cd :
  unique_ids (c_branches cd) ->
  Permutation (map e_key (edges (graph_of cd))) (map b_id (c_branches cd)).
Proof.
  intros Hids. apply NoDup_Permutation.
  - now apply graph_edge_keys_NoDup.
  - exact Hids.
  - intros k. split; intros H; apply in_map_iff in H as (x & <- & Hx).
    + destruct (graph_edge_branch cd Hids x Hx) as (b & Hb & E & _).
      rewrite <- E. now apply in_map.
    + destruct (graph_branch_edge cd Hids x Hx) as (e & He & E & _).
      rewrite <- E. now apply in_map.
Qed.

(** X18.  The graph that [build_graph] returns for a valid circuit has the
    declared nodes, in their order, and for every branch one edge between its
    two nodes, keyed by the branch id, that holds the type and the value of
    the branch; it has no other edge. *)
Theorem graph_represents_circuit cd G :
  valid_circuit cd ->
  build_graph cd = Ok (Some G, None) ->
  nodes_of G = c_nodes cd /\
  (forall b, In b (c_branches cd) ->
     data_at G (b_from b) (b_to b) (b_id b) = Some (attrs_of b) /\
     data_at G (b_to b) (b_from b) (b_id b) = Some (attrs_of b)) /\
  (forall u v k d, data_at G u v k = Some d ->
     exists b, In b (c_branches cd) /\ b_id b = k /\ joins b u v /\
               d = attrs_of b) /\
  Permutation (map e_key (edges G)) (map b_id (c_branches cd)).
Proof.
  intros Hvalid Hbuild.
  destruct (build_graph_Some cd G Hbuild) as (-> & _ & _).
  pose proof Hvalid as (_ & Hids & _).
  split; [now apply graph_nodes_declared|]. split; [|split].
  - intros b Hb. split; apply graph_data; try assumption;
      exists b; repeat split; auto; [left|right]; split; reflexivity.
  - intros u v k d H. now apply graph_data in H.
  - now apply graph_edges_branches.
Qed.

Lemma graph_represents_circuit_witness :
  nodes_of (graph_of series_rlc) = c_nodes series_rlc /\
  (forall b, In b (c_branches series_rlc) ->
     data_at (graph_of series_rlc) (b_from b) (b_to b) (b_id b)
     = Some (attrs_of b) /\
     data_at (graph_of series_rlc) (b_to b) (b_from b) (b_id b)
     = Some (attrs_of b)) /\
  (forall u v k d, data_at (graph_of series_rlc) u v k = Some d ->
     exists b, In b (c_branches series_rlc) /\ b_id b = k /\ joins b u v /\
               d = attrs_of b) /\
  Permutation (map e_key (edges (graph_of series_rlc)))
              (map b_id (c_branches series_rlc)).
Proof.
  exact (graph_represents_circuit series_rlc (graph_of series_rlc)
           series_rlc_valid series_rlc_built).
Defined.

Lemma graph_of_empty cd :
  graph_of cd = [] <-> c_nodes cd = [] /\ c_branches cd = [].
Proof.
  split.
  - intros E. split.
    + destruct (c_nodes cd) as [|n ns] eqn:En; [reflexivity|].
      assert (H : In n (nodes_of (graph_of cd)))
        by (apply graph_nodes; left; rewrite En; now left).
      rewrite E in H. destruct H.
    + destruct (c_branches cd) as [|b bs] eqn:Eb; [reflexivity|].
      assert (H : In (b_from b) (nodes_of (graph_of cd))).
      { apply graph_nodes. right. exists b. rewrite Eb. split; [now left|auto]. }
      rewrite E in H. destruct H.
  - intros [En Eb]. unfold graph_of. now rewrite En, Eb.
Qed.

Section GraphOutcomes.
Variables Sol Results PlotData TimePoints Images : Type.
Variable solve_equations : list expr -> list string -> result Sol.
Variable convert_to_time_domain
  : Sol -> result (Results * PlotData * TimePoints).
Variable generate_plots : PlotData -> TimePoints -> result Images.

Let solve :=
  solve_circuit Sol Results PlotData TimePoints Images
                solve_equations convert_to_time_domain generate_plots.

(** X19.  The three outcomes of [build_graph]. Without any node or branch
    [nx.is_connected] raises [NetworkXPointlessConcept], which
    [solve_circuit] lets through; otherwise the graph is returned when the
    circuit is connected, and the error when it is not. *)
Theorem build_graph_outcomes cd :
  match build_graph cd with
  | Raise e =>
      e = NetworkXPointlessConcept /\
      c_nodes cd = [] /\ c_branches cd = [] /\
      solve cd = ([GraphBuilder], Raise NetworkXPointlessConcept)
  | Ok (Some G, None) =>
      G = graph_of cd /\ connected_circuit cd /\
      (c_nodes cd <> [] \/ c_branches cd <> [])
  | Ok (None, Some error) =>
      error = mkError "error" unconnected_message /\
      ~ connected_circuit cd /\
      solve cd = ([GraphBuilder], Ok (Failure error))
  | Ok _ => False
  end.
Proof.
  destruct (build_graph_cases cd) as [[E0 E]|[[Hc E]|[Hnc E]]].
  - pose proof (proj1 (graph_of_empty cd) E0) as [En Eb].
    unfold solve, solve_circuit. rewrite E. auto.
  - rewrite E. split; [reflexivity|]. split; [assumption|].
    destruct (build_graph_Some cd _ E) as (_ & _ & n0 & Hn0).
    destruct (c_nodes cd) as [|n ns] eqn:En; [|left; discriminate].
    destruct (c_branches cd) as [|b bs] eqn:Eb; [|right; discriminate].
    exfalso. rewrite (proj2 (graph_of_empty cd) (conj En Eb)) in Hn0.
    destruct Hn0.
  - unfold solve, solve_circuit. rewrite E. auto.
Qed.
End GraphOutcomes.

(** ** Phases 6 and 7 *)

Section TimeDomainFacts.
Variable TExpr : Type.
Variable inverse_laplace_transform : expr -> result TExpr.
Variable str_expr : TExpr -> string.
Variable lambdify_call : TExpr -> list Qc -> result evaluated.
Variable str_exn : exn -> string.

Let convert :=
  convert_to_time_domain TExpr inverse_laplace_transform str_expr
                         lambdify_call str_exn.
Let step :=
  convert_item TExpr inverse_laplace_transform str_expr lambdify_call
               str_exn.
(** The entries that one round of the loop writes. *)
Let time_text (e : expr) : string :=
  match inverse_laplace_transform e with
  | Ok time_expr => str_expr time_expr
  | Raise ex => ("Cannot compute inverse Laplace: " ++ str_exn ex)%string
  end.

Let plot_of (tp : list Qc) (time_expr : TExpr) : plot_value :=
  match lambdify_call time_expr tp with
  | Ok (Scalar y) => Values (repeat y (length tp))
  | Ok (Array ys) => Values ys
  | Raise ex => PlotError ("Plot error: " ++ str_exn ex)%string
  end.

Lemma convert_item_eq tp r0 p0 k e :
  step tp (r0, p0) (k, e)
  = (dict_set k (time_text e) r0,
     match inverse_laplace_transform e with
     | Ok time_expr => dict_set k (plot_of tp time_expr) p0
     | Raise _ => p0
     end).
Proof.
  unfold step, convert_item, time_text, plot_of.
  destruct (inverse_laplace_transform e) as [te|ex]; [|reflexivity].
  destruct (lambdify_call te tp) as [[y|ys]|ex]; reflexivity.
Qed.

Lemma convert_fold tp items : forall r0 p0 r p,
  NoDup (map fst items) ->
  (forall k, In k (map fst items) ->
             ~ In k (map fst r0) /\ ~ In k (map fst p0)) ->
  fold_left (step tp) items (r0, p0) = (r, p) ->
  map fst r = map fst r0 ++ map fst items /\
  incl (map fst p) (map fst p0 ++ map fst items) /\
  (forall k, ~ In k (map fst items) ->
             dict_get k r = dict_get k r0 /\ dict_get k p = dict_get k p0) /\
  (forall k e, In (k, e) items ->
     dict_get k r = Some (time_text e) /\
     dict_get k p = match inverse_laplace_transform e with
                    | Ok time_expr => Some (plot_of tp time_expr)
                    | Raise _ => None
                    end).
Proof.
  induction items as [|[k1 e1] items IH]; intros r0 p0 r p Hnd Hnew H.
  - simpl in H. injection H as <- <-. simpl. rewrite !app_nil_r.
    split; [reflexivity|]. split; [apply incl_refl|].
    split; [auto|intros k e []].
  - cbn [fold_left] in H. simpl in Hnd.
    inversion Hnd as [|? ? Hk1 Hrest]; subst.
    rewrite convert_item_eq in H.
    destruct (Hnew k1 (or_introl eq_refl)) as [Hr0 Hp0].
    set (r1 := dict_set k1 (time_text e1) r0) in H.
    set (p1 := match inverse_laplace_transform e1 with
               | Ok time_expr => dict_set k1 (plot_of tp time_expr) p0
               | Raise _ => p0
               end) in H.
    assert (Hr1 : map fst r1 = map fst r0 ++ [k1]).
    { unfold r1. rewrite dict_keys_set.
      destruct (dict_mem k1 r0) eqn:E; [|reflexivity].
      apply dict_mem_iff in E. contradiction. }
    assert (Hp1 : incl (map fst p1) (map fst p0 ++ [k1])).
    { unfold p1. destruct (inverse_laplace_transform e1).
      - intros x Hx. apply dict_In_keys_set in Hx as [->|Hx];
          apply in_or_app; [right; now left|now left].
      - apply incl_appl, incl_refl. }
    destruct (IH r1 p1 r p Hrest) as (Hkeys & Hpk & Hold & Hnew');
      [|assumption|].
    { intros k Hk. destruct (Hnew k (or_intror Hk)) as [Hkr Hkp].
      assert (k <> k1) by (intros ->; contradiction).
      split.
      - rewrite Hr1. intros Hin. apply in_app_or in Hin as [?|[?|[]]]; auto.
      - intros Hin. apply Hp1 in Hin.
        apply in_app_or in Hin as [?|[?|[]]]; auto. }
    assert (Hget : forall k, k <> k1 ->
              dict_get k r1 = dict_get k r0 /\ dict_get k p1 = dict_get k p0).
    { intros k Hk. apply String.eqb_neq in Hk. unfold r1, p1. split.
      - now rewrite dict_get_set, Hk.
      - destruct (inverse_laplace_transform e1); [|reflexivity].
        now rewrite dict_get_set, Hk. }
    split; [|split; [|split]].
    + rewrite Hkeys, Hr1, <- app_assoc. reflexivity.
    + intros x Hx. apply Hpk in Hx. apply in_app_or in Hx as [Hx|Hx].
      * apply Hp1 in Hx. apply in_app_or in Hx as [Hx|[<-|[]]];
          apply in_or_app; [now left|right; now left].
      * apply in_or_app. right. now right.
    + intros k Hk. simpl in Hk.
      destruct (Hold k) as [H1 H2]; [tauto|].
      destruct (Hget k) as [H3 H4]; [intros ->; tauto|].
      split; congruence.
    + intros k e [E|Hin].
      * injection E as <- <-. destruct (Hold k1 Hk1) as [H1 H2].
        rewrite H1, H2. unfold r1, p1.
        rewrite dict_get_set, String.eqb_refl. split; [reflexivity|].
        destruct (inverse_laplace_transform e1).
        -- now rewrite dict_get_set, String.eqb_refl.
        -- now apply dict_get_None.
      * now apply Hnew'.
Qed.

Lemma convert_dict items :
  NoDup (map fst items) ->
  exists results plot_data,
    convert (SolDict items)
    = Ok (results, plot_data, linspace (Q2Qc 0) (Q2Qc 10) 100) /\
    map fst results = map fst items /\
    incl (map fst plot_data) (map fst results) /\
    (forall var e, In (var, e) items ->
       match inverse_laplace_transform e with
       | Ok time_expr =>
           dict_get var results = Some (str_expr time_expr) /\
           dict_get var plot_data
           = Some
               (match lambdify_call time_expr
                        (linspace (Q2Qc 0) (Q2Qc 10) 100) with
                | Ok (Scalar y) => Values (repeat y 100)
                | Ok (Array ys) => Values ys
                | Raise ex =>
                    PlotError ("Plot error: " ++ str_exn ex)%string
                end)
       | Raise ex =>
           dict_get var results
           = Some ("Cannot compute inverse Laplace: " ++ str_exn ex)%string
           /\ dict_get var plot_data = None
       end) /\
    (forall solutions, convert (SolList solutions) = Raise AttributeError).
Proof.
  intros Hnd. unfold convert, convert_to_time_domain.
  set (tp := linspace (Q2Qc 0) (Q2Qc 10) 100).
  fold step.
  destruct (fold_left (step tp) items ([], [])) as [r p] eqn:E.
  destruct (convert_fold tp items [] [] r p Hnd) as (Hk & Hpk & _ & Hitems);
    [intros k _; split; intros []|assumption|].
  exists r, p. split; [reflexivity|]. simpl in Hk, Hpk.
  split; [assumption|]. split; [now rewrite Hk|].
  split; [|reflexivity].
  intros var e Hin. destruct (Hitems var e Hin) as [H1 H2].
  unfold time_text in H1. unfold plot_of in H2.
  assert (Hl : length tp = 100) by reflexivity. rewrite Hl in H2.
  destruct (inverse_laplace_transform e); auto.
Qed.

(** X20.  [convert_to_time_domain] on a dictionary never raises, whatever
    sympy and numpy raise inside its loop. Every variable gets an entry in
    [results], in the order of the solution: the text of its time-domain
    expression, or the message of the failed transform. It gets an entry in
    [plot_data] only when the transform succeeded: the values, a constant
    repeated over the time points, or the message of the failed evaluation.
    On a list, [sol.items()] raises. *)
Theorem convert_to_time_domain_spec items :
  NoDup (map fst items) ->
  exists results plot_data,
    convert (SolDict items)
    = Ok (results, plot_data, linspace (Q2Qc 0) (Q2Qc 10) 100) /\
    map fst results = map fst items /\
    incl (map fst plot_data) (map fst results) /\
    (forall var e, In (var, e) items ->
       match inverse_laplace_transform e with
       | Ok time_expr =>
           dict_get var results = Some (str_expr time_expr) /\
           dict_get var plot_data
           = Some
               (match lambdify_call time_expr
                        (linspace (Q2Qc 0) (Q2Qc 10) 100) with
                | Ok (Scalar y) => Values (repeat y 100)
                | Ok (Array ys) => Values ys
                | Raise ex =>
                    PlotError ("Plot error: " ++ str_exn ex)%string
                end)
       | Raise ex =>
           dict_get var results
           = Some ("Cannot compute inverse Laplace: " ++ str_exn ex)%string
           /\ dict_get var plot_data = None
       end) /\
    (forall solutions, convert (SolList solutions) = Raise AttributeError).
Proof. exact (convert_dict items). Qed.

End TimeDomainFacts.

Section PlotFacts.
Variable savefig : string -> list Qc -> list Qc -> result string.

Let plots := generate_plots savefig.

Lemma plots_cases plot_data time_points :
  match plots plot_data time_points with
  | Ok images =>
      map img_name images
      = map fst (filter (fun entry => match snd entry with
                                      | Values _ => true
                                      | PlotError _ => false
                                      end) plot_data) /\
      (forall img, In img images ->
         exists y_vals,
           In (img_name img, Values y_vals) plot_data /\
           savefig (img_name img) time_points y_vals = Ok (img_image img))
  | Raise ex =>
      exists var_name y_vals,
        In (var_name, Values y_vals) plot_data /\
        savefig var_name time_points y_vals = Raise ex
  end.
Proof.
  unfold plots.
  induction plot_data as [|[k [ys|msg]] pd IH]; simpl.
  - split; [reflexivity|intros img []].
  - destruct (savefig k time_points ys) as [b64|ex] eqn:Es; simpl.
    + destruct (generate_plots savefig pd time_points) as [images|ex];
        simpl.
      * destruct IH as [IH1 IH2]. split; [now rewrite IH1|].
        intros img [<-|Hin]; simpl.
        -- exists ys. auto.
        -- destruct (IH2 img Hin) as (y & Hy & E). exists y. auto.
      * destruct IH as (v & y & Hin & E). exists v, y. auto.
    + exists k, ys. auto.
  - destruct (generate_plots savefig pd time_points) as [images|ex].
    + destruct IH as [IH1 IH2]. split; [assumption|].
      intros img Hin. destruct (IH2 img Hin) as (y & Hy & E).
      exists y. auto.
    + destruct IH as (v & y & Hin & E). exists v, y. auto.
Qed.

End PlotFacts.

Lemma convert_to_time_domain_spec_witness :
  exists results plot_data,
    convert_to_time_domain expr (fun e => Ok e) (fun _ => "1")
      (fun _ _ => Ok (Scalar (Q2Qc 1))) (fun _ => "")
      (SolDict [("V_R1", ENum (Q2Qc 1))])
    = Ok (results, plot_data, linspace (Q2Qc 0) (Q2Qc 10) 100) /\
    map fst results = ["V_R1"] /\
    incl (map fst plot_data) (map fst results).
Proof.
  destruct (convert_to_time_domain_spec expr (fun e => Ok e) (fun _ => "1")
              (fun _ _ => Ok (Scalar (Q2Qc 1))) (fun _ => "")
              [("V_R1", ENum (Q2Qc 1))])
    as (results & plot_data & H1 & H2 & H3 & _).
  - repeat constructor. simpl. tauto.
  - exists results, plot_data. auto.
Defined.

(** ** The response of [solve_circuit] *)

Lemma tbind_Ok {A B : Type} (t : traced A) (k : A -> traced B) log b :
  tbind t k = (log, Ok b) ->
  exists l1 a l2, t = (l1, Ok a) /\ k a = (l2, Ok b) /\ log = l1 ++ l2.
Proof.
  destruct t as [l1 [a|e]]; simpl; [|discriminate].
  destruct (k a) as [l2 r] eqn:E. intros H. injection H as <- ->.
  exists l1, a, l2. auto.
Qed.

Lemma enter_Ok {A : Type} p (r : result A) l a :
  enter p r = (l, Ok a) -> r = Ok a /\ l = [p].
Proof. unfold enter. intros H. injection H as <- ->. auto. Qed.

Section Response.
Variables Sol Results PlotData TimePoints Images : Type.
Variable solve_equations : list expr -> list string -> result Sol.
Variable convert_to_time_domain
  : Sol -> result (Results * PlotData * TimePoints).
Variable generate_plots : PlotData -> TimePoints -> result Images.

Let solve :=
  solve_circuit Sol Results PlotData TimePoints Images
                solve_equations convert_to_time_domain generate_plots.

(** A success is made of what the last three phases have returned. *)
Lemma solve_success cd log sol results images :
  solve cd = (log, Ok (Success sol results images)) ->
  log = all_phases /\
  exists equations unknowns plot_data time_points,
    solve_equations equations unknowns = Ok sol /\
    convert_to_time_domain sol = Ok (results, plot_data, time_points) /\
    generate_plots plot_data time_points = Ok images.
Proof.
  unfold solve, solve_circuit. intros H.
  apply tbind_Ok in H as (l1 & [[G|] [err|]] & l2 & H1 & H & ->);
    try discriminate.
  apply enter_Ok in H1 as [_ ->].
  apply tbind_Ok in H as (l1 & [G' [[twigs links] sb]] & l2' & H1 & H & ->).
  apply enter_Ok in H1 as [_ ->].
  apply tbind_Ok in H as (l1 & [[A_red A_full] ref] & l2 & H1 & H & ->).
  apply enter_Ok in H1 as [_ ->].
  apply tbind_Ok in H as (l1 & [[Q|] [err|]] & l2'' & H1 & H & ->);
    try discriminate.
  apply enter_Ok in H1 as [_ ->].
  apply tbind_Ok in H as (l1 & B & l3 & H1 & H & ->).
  apply enter_Ok in H1 as [_ ->].
  apply tbind_Ok in H as (l1 & [eqs unks] & l4 & H1 & H & ->).
  apply enter_Ok in H1 as [_ ->].
  apply tbind_Ok in H as (l1 & sol' & l5 & H1 & H & ->).
  apply enter_Ok in H1 as [Hsol ->].
  apply tbind_Ok in H as (l1 & [[res pd] tp] & l6 & H1 & H & ->).
  apply enter_Ok in H1 as [Hconv ->].
  apply tbind_Ok in H as (l1 & imgs & l7 & H1 & H & ->).
  apply enter_Ok in H1 as [Hplot ->].
  injection H as <- <- <- <-.
  split; [reflexivity|]. exists eqs, unks, pd, tp. auto.
Qed.
End Response.

Section Plots.
Variable solve_equations : list expr -> list string -> result solution.
Variable TExpr : Type.
Variable inverse_laplace_transform : expr -> result TExpr.
Variable str_expr : TExpr -> string.
Variable lambdify_call : TExpr -> list Qc -> result evaluated.
Variable str_exn : exn -> string.
Variable savefig : string -> list Qc -> list Qc -> result string.

Let solve :=
  solve_circuit _ _ _ _ _ solve_equations
    (convert_to_time_domain TExpr inverse_laplace_transform str_expr
                            lambdify_call str_exn)
    (generate_plots savefig).

(** X22.  When [solve_circuit] succeeds, every phase has been entered, the
    solver has returned a dictionary, and every image is the plot of a
    variable of the solution whose inverse Laplace transform succeeded: its
    expression is in the time-domain results under the same name. *)
Theorem plots_have_expressions cd log sol results images :
  solve cd = (log, Ok (Success sol results images)) ->
  log = all_phases /\
  exists items,
    sol = SolDict items /\
    (NoDup (map fst items) ->
     map fst results = map fst items /\
     forall img, In img images ->
       exists e time_expr,
         In (img_name img, e) items /\
         inverse_laplace_transform e = Ok time_expr /\
         dict_get (img_name img) results = Some (str_expr time_expr)).
Proof.
  intros H.
  apply solve_success in H as (-> & eqs & unks & pd & tp & _ & Hc & Hp).
  split; [reflexivity|].
  destruct sol as [items|l]; [|discriminate]. exists items.
  split; [reflexivity|]. intros Hnd.
  destruct (convert_dict TExpr inverse_laplace_transform
              str_expr lambdify_call str_exn items Hnd)
    as (r & p & E & Hkeys & Hincl & Hitems & _).
  rewrite Hc in E. injection E as <- <- _.
  split; [assumption|]. intros img Himg.
  pose proof (plots_cases savefig pd tp) as Hspec.
  rewrite Hp in Hspec. destruct Hspec as [_ Hspec].
  destruct (Hspec img Himg) as (ys & Hin & _).
  assert (Hk : In (img_name img) (map fst items)).
  { rewrite <- Hkeys. apply Hincl.
    apply in_map_iff. exists (img_name img, Values ys). auto. }
  apply in_map_iff in Hk as ([k e] & Ek & Hk). simpl in Ek. subst k.
  specialize (Hitems _ _ Hk).
  destruct (inverse_laplace_transform e) as [te|ex] eqn:Et.
  - exists e, te. split; [assumption|]. split; [assumption|apply Hitems].
  - exfalso. destruct Hitems as [_ Hnone].
    apply dict_get_None in Hnone. apply Hnone.
    apply in_map_iff. exists (img_name img, Values ys). auto.
Qed.
End Plots.

Lemma plots_have_expressions_witness :
  exists log sol results images,
    solve_circuit _ _ _ _ _
      (fun _ _ => Ok (SolDict [("V_R1", ENum (Q2Qc 1))]))
      (convert_to_time_domain expr (fun e => Ok e) (fun _ => "1")
         (fun _ _ => Ok (Scalar (Q2Qc 1))) (fun _ => ""))
      (generate_plots (fun _ _ _ => Ok "")) series_rlc
    = (log, Ok (Success sol results images)) /\
    log = all_phases.
Proof.
  destruct (solve_circuit _ _ _ _ _
              (fun _ _ => Ok (SolDict [("V_R1", ENum (Q2Qc 1))]))
              (convert_to_time_domain expr (fun e => Ok e) (fun _ => "1")
                 (fun _ _ => Ok (Scalar (Q2Qc 1))) (fun _ => ""))
              (generate_plots (fun _ _ _ => Ok "")) series_rlc)
    as [log [[err|sol results images]|e]] eqn:E.
  - vm_compute in E. discriminate.
  - exists log, sol, results, images. split; [reflexivity|].
    exact (proj1 (plots_have_expressions _ _ _ _ _ _ _ _ _ _ _ _ E)).
  - vm_compute in E. discriminate.
Defined.

(** ** The Kirchhoff rows and the incidence matrix *)

Open Scope Qc_scope.

Lemma sum_upto_opp n f : sum_upto n (fun k => - f k) = - sum_upto n f.
Proof. induction n as [|n IH]; simpl; [ring|rewrite IH; ring]. Qed.

Lemma sum_upto_scale_r n c f :
  sum_upto n (fun k => f k * c) = sum_upto n f * c.
Proof. induction n as [|n IH]; simpl; [ring|rewrite IH; ring]. Qed.

(** X11.  The rows of the cut-set matrix applied to branch currents that add
    up to zero at every node other than the reference: the link columns [-
    inv(A_t) . A_l] have the sign that makes row [k] give twice the current of
    twig [k], where the fundamental cut-set matrix [inv(A_t) . A_red] would
    give zero. *)
Theorem cutset_rows_on_node_currents A_red n_twigs n_links Q (cur : nat -> Qc) :
  wf_array A_red ->
  ncols A_red = (n_twigs + n_links)%nat ->
  get_cutset_matrix A_red n_twigs n_links = Ok (Some Q, None) ->
  (forall i, (i < n_twigs)%nat ->
     sum_upto (n_twigs + n_links) (fun j => get A_red i j * cur j) = Q2Qc 0) ->
  forall k, (k < n_twigs)%nat ->
    sum_upto (n_twigs + n_links) (fun j => get Q k j * cur j)
    = cur k + cur k.
Proof.
  intros HA Hc EQ Hkcl k Hk.
  destruct (cutset_returned A_red n_twigs n_links Q HA) as
    (Ainv & Hinv & Hr & _ & _ & _ & HQ1 & HQ2); [lia|assumption|].
  destruct Hinv as (_ & _ & _ & HAc & Hmul).
  simpl in HAc, Hmul. rewrite Hr in HAc, Hmul.
  assert (Hlinks : forall m, (m < n_twigs)%nat ->
            sum_upto n_links
              (fun j => get A_red m (n_twigs + j)%nat * cur (n_twigs + j)%nat)
            = - sum_upto n_twigs (fun j => get A_red m j * cur j)).
  { intros m Hm. pose proof (Hkcl m Hm) as H. rewrite sum_upto_app in H.
    rewrite <- (Qcplus_0_l (- _)), <- H. ring. }
  rewrite sum_upto_app. f_equal.
  - rewrite (sum_upto_ext n_twigs _ (fun j => delta k j * cur j)).
    + now apply sum_upto_delta.
    + intros j Hj. now rewrite HQ1.
  - rewrite (sum_upto_ext n_links _
               (fun j => - (1) * sum_upto n_twigs
                   (fun m => get Ainv k m
                             * (get A_red m (n_twigs + j)%nat
                                * cur (n_twigs + j)%nat)))).
    2:{ intros j Hj. rewrite HQ2 by lia. unfold mul_at. rewrite HAc.
        rewrite (sum_upto_ext n_twigs
                   (fun m => get Ainv k m
                             * (get A_red m (n_twigs + j)%nat
                                * cur (n_twigs + j)%nat))
                   (fun m => get Ainv k m
                             * get (cols_from A_red n_twigs) m j
                             * cur (n_twigs + j)%nat))
          by (intros; rewrite get_cols_from; ring).
        rewrite sum_upto_scale_r. ring. }
    rewrite sum_upto_scale, sum_upto_swap.
    rewrite (sum_upto_ext n_twigs _
               (fun m => - (1) * sum_upto n_twigs
                             (fun j => get Ainv k m * get A_red m j * cur j))).
    2:{ intros m Hm. rewrite sum_upto_scale, (Hlinks m Hm).
        rewrite (sum_upto_ext n_twigs
                   (fun j => get Ainv k m * get A_red m j * cur j)
                   (fun j => get Ainv k m * (get A_red m j * cur j)))
          by (intros; ring).
        rewrite sum_upto_scale. ring. }
    rewrite sum_upto_scale, sum_upto_swap.
    rewrite (sum_upto_ext n_twigs _ (fun j => delta k j * cur j)).
    + rewrite sum_upto_delta by assumption. ring.
    + intros j Hj. rewrite sum_upto_scale_r. f_equal.
      destruct (Hmul k j Hk Hj) as [H _]. rewrite <- H.
      unfold mul_at. rewrite HAc. apply sum_upto_ext.
      intros m _. now rewrite get_cols_to.
Qed.


Lemma cutset_rows_on_node_currents_witness :
  exists Q,
    get_cutset_matrix rlc_A_red 2 1 = Ok (Some Q, None) /\
    forall k, (k < 2)%nat ->
      sum_upto (2 + 1)
        (fun j => get Q k j * nth j [- (1); 1; 1] (Q2Qc 0))
      = nth k [- (1); 1; 1] (Q2Qc 0) + nth k [- (1); 1; 1] (Q2Qc 0).
Proof.
  eexists. split; [vm_compute; reflexivity|].
  apply (cutset_rows_on_node_currents rlc_A_red 2 1 _
           (fun j => nth j [- (1); 1; 1] (Q2Qc 0)) rlc_A_red_wf eq_refl).
  - vm_compute. reflexivity.
  - intros i Hi. destruct i as [|[|i]]; [| |lia];
      apply Qc_is_canon; reflexivity.
Defined.

(** X12.  The rows of the tie-set matrix applied to branch voltages that are
    differences of node potentials: with [B_t = - Q_l^T] and the sign of [Q_l]
    above, row [l] gives twice the voltage of link [l], where the fundamental
    tie-set matrix would give zero. *)
Theorem tieset_rows_on_potentials A_red n_twigs n_links Q B (pot : nat -> Qc) :
  wf_array A_red ->
  ncols A_red = (n_twigs + n_links)%nat ->
  get_cutset_matrix A_red n_twigs n_links = Ok (Some Q, None) ->
  get_tieset_matrix (cols_from Q n_twigs) n_twigs n_links = Ok B ->
  let v := fun j => sum_upto n_twigs (fun i => get A_red i j * pot i) in
  forall l, (l < n_links)%nat ->
    sum_upto (n_twigs + n_links) (fun j => get B l j * v j)
    = v (n_twigs + l)%nat + v (n_twigs + l)%nat.
Proof.
  intros HA Hc EQ EB v l Hl.
  destruct (cutset_returned A_red n_twigs n_links Q HA) as
    (Ainv & Hinv & Hr & HQwf & HQr & HQc & _ & HQ2); [lia|assumption|].
  destruct Hinv as (_ & _ & _ & HAc & Hmul).
  simpl in HAc, Hmul. rewrite Hr in HAc, Hmul.
  destruct (tieset_Ok (cols_from Q n_twigs) n_twigs n_links)
    as (B' & EB' & _ & _ & _ & HB1 & HB2).
  { now apply wf_cols_from. }
  { simpl. lia. }
  rewrite EB in EB'. injection EB' as <-.
  simpl in HB1, HB2. rewrite HQr in HB1, HB2.
  set (a := fun m => get A_red m (n_twigs + l)%nat).
  set (c := fun j => sum_upto n_twigs (fun m => get Ainv j m * a m)).
  assert (HB : forall j, (j < n_twigs)%nat -> get B l j = c j).
  { intros j Hj. rewrite HB1, get_cols_from, HQ2 by lia.
    unfold mul_at, c, a. rewrite HAc.
    rewrite (sum_upto_ext n_twigs
               (fun k => get Ainv j k * get (cols_from A_red n_twigs) k l)
               (fun m => get Ainv j m * get A_red m (n_twigs + l)%nat))
      by (intros; now rewrite get_cols_from).
    ring. }
  assert (Hinner : forall i, (i < n_twigs)%nat ->
            sum_upto n_twigs (fun j => get A_red i j * c j) = a i).
  { intros i Hi. unfold c.
    rewrite (sum_upto_ext n_twigs _
               (fun j => sum_upto n_twigs
                           (fun m => get A_red i j * (get Ainv j m * a m)))).
    2:{ intros j _. now rewrite sum_upto_scale. }
    rewrite sum_upto_swap.
    rewrite (sum_upto_ext n_twigs _ (fun m => delta i m * a m)).
    - now apply sum_upto_delta.
    - intros m Hm. destruct (Hmul i m Hi Hm) as [_ H]. rewrite <- H.
      unfold mul_at. simpl.
      replace (Nat.min n_twigs (ncols A_red)) with n_twigs by lia.
      rewrite <- sum_upto_scale_r. apply sum_upto_ext.
      intros j Hj. rewrite get_cols_to by assumption. ring. }
  rewrite sum_upto_app. f_equal.
  - rewrite (sum_upto_ext n_twigs _
               (fun j => sum_upto n_twigs
                           (fun i => pot i * (get A_red i j * c j)))).
    2:{ intros j Hj. rewrite (HB j Hj). unfold v.
        rewrite <- sum_upto_scale. apply sum_upto_ext. intros; ring. }
    rewrite sum_upto_swap. unfold v.
    apply sum_upto_ext. intros i Hi.
    rewrite sum_upto_scale, (Hinner i Hi). unfold a. ring.
  - rewrite (sum_upto_ext n_links _
               (fun j => delta l j * v (n_twigs + j)%nat)).
    + now apply (sum_upto_delta n_links l (fun j => v (n_twigs + j)%nat)).
    + intros j Hj. now rewrite HB2.
Qed.

Lemma tieset_rows_on_potentials_witness :
  exists Q B,
    get_cutset_matrix rlc_A_red 2 1 = Ok (Some Q, None) /\
    get_tieset_matrix (cols_from Q 2) 2 1 = Ok B /\
    forall l, (l < 1)%nat ->
      sum_upto (2 + 1)
        (fun j => get B l j
                  * sum_upto 2 (fun i => get rlc_A_red i j
                                         * nth i [1; 1] (Q2Qc 0)))
      = sum_upto 2 (fun i => get rlc_A_red i (2 + l)%nat
                             * nth i [1; 1] (Q2Qc 0))
        + sum_upto 2 (fun i => get rlc_A_red i (2 + l)%nat
                               * nth i [1; 1] (Q2Qc 0)).
Proof.
  eexists. eexists.
  split; [vm_compute; reflexivity|].
  split; [vm_compute; reflexivity|].
  eapply (tieset_rows_on_potentials rlc_A_red 2 1 _ _
           (fun i => nth i [1; 1] (Q2Qc 0)) rlc_A_red_wf eq_refl);
    vm_compute; reflexivity.
Defined.

Close Scope Qc_scope.

(** ** What the command line reports *)

Section MainReports.
Variables Sol Results PlotData TimePoints Images : Type.
Variable solve_equations : list expr -> list string -> result Sol.
Variable convert_to_time_domain
  : Sol -> result (Results * PlotData * TimePoints).
Variable generate_plots : PlotData -> TimePoints -> result Images.
Variable json_dumps : response Sol Results Images -> result string.
Variable str_exn : exn -> string.
Variable format_exc : exn -> string.

Let run :=
  main Sol Results PlotData TimePoints Images solve_equations
       convert_to_time_domain generate_plots json_dumps str_exn format_exc.

(** X23.  The error of a circuit that is not connected is a result like any
    other: it is printed on standard output. A connected circuit with a
    branch to a node that is not declared is reported on standard error as a
    missing required field, the field being the node. A circuit without node
    and branch is reported as an unexpected error, with a traceback. *)
Theorem main_reports cd :
  (~ connected_circuit cd ->
   run cd = match json_dumps
                    (Failure (mkError "error" unconnected_message)) with
            | Ok text => ToStdout text
            | Raise e => handle str_exn format_exc e
            end) /\
  (connected_circuit cd -> ~ declared_endpoints cd ->
   exists k,
     ~ In k (c_nodes cd) /\
     run cd = ToStderr
                (mkError "error"
                   ("Missing required field: " ++ str_exn (KeyError k))%string)
                None) /\
  (c_nodes cd = [] -> c_branches cd = [] ->
   run cd = ToStderr
              (mkError "error"
                 ("Unexpected error: "
                  ++ str_exn NetworkXPointlessConcept)%string)
              (Some (format_exc NetworkXPointlessConcept))).
Proof.
  split; [|split].
  - intros Hnc. destruct (build_graph_cases cd) as [[E _]|[[Hc _]|[_ E]]].
    + exfalso. apply Hnc. intros x y Hx _. apply graph_nodes in Hx.
      rewrite E in Hx. destruct Hx.
    + contradiction.
    + unfold run, main, solve_circuit. rewrite E. reflexivity.
  - intros Hc Hbad.
    destruct (first_undeclared (c_nodes cd) (c_branches cd))
      as [Hd|(pre & b & post & Eb & _ & Hb)]; [contradiction|].
    destruct (build_graph_cases cd) as [[E0 _]|[[_ E]|[Hnc _]]];
      [| |contradiction].
    { exfalso.
      assert (Hn : In (b_from b) (nodes_of (graph_of cd))).
      { apply graph_nodes. right. exists b. split; [|auto].
        rewrite Eb. apply in_or_app. right. now left. }
      rewrite E0 in Hn. destruct Hn. }
    destruct (select_tree_eq (graph_of cd) (c_branches cd))
      as (twigs & links & Hsel & _ & Hperm & _).
    destruct (get_incidence_matrix_KeyError (c_nodes cd) (twigs ++ links)
                (assign_weights (graph_of cd))) as (k & Hk & Hnk).
    { exists b. split; [|assumption].
      eapply Permutation_in; [symmetry; exact Hperm|].
      rewrite Eb. apply in_or_app. right. now left. }
    exists k. split; [assumption|].
    unfold run, main, solve_circuit. rewrite E. cbn [enter tbind].
    rewrite Hsel. cbn [enter tbind]. rewrite Hk. reflexivity.
  - intros En Eb.
    unfold run, main, solve_circuit.
    rewrite (build_graph_null cd (proj2 (graph_of_empty cd) (conj En Eb))).
    reflexivity.
Qed.
End MainReports.

(** ** A node declared twice *)

Section DuplicateNode.
Variables Sol Results PlotData TimePoints Images : Type.
Variable solve_equations : list expr -> list string -> result Sol.
Variable convert_to_time_domain
  : Sol -> result (Results * PlotData * TimePoints).
Variable generate_plots : PlotData -> TimePoints -> result Images.

Let solve :=
  solve_circuit Sol Results PlotData TimePoints Images
                solve_equations convert_to_time_domain generate_plots.

(** X24.  When the node list declares a node twice, a connected circuit
    with distinct branch ids and declared endpoints always ends with the
    singular-matrix error: the incidence matrix has a row for every
    declared name, the tree has a twig less than there are distinct
    nodes, and the twig columns are not square. *)
Theorem duplicate_node_singular cd :
  unique_ids (c_branches cd) -> declared_endpoints cd ->
  connected_circuit cd -> ~ NoDup (c_nodes cd) ->
  solve cd
  = ([GraphBuilder; TreeSelector; IncidenceMatrix; CutsetMatrix],
     Ok (Failure
           (mkError "error"
              (singular_message
                 "Last 2 dimensions of the array must be square")))).
Proof.
  intros Hids Hdecl Hconn Hdup.
  destruct (c_nodes cd) as [|n0 ns] eqn:En; [exfalso; apply Hdup; constructor|].
  rewrite <- En in *.
  assert (Hne : c_nodes cd <> []) by (rewrite En; discriminate).
  assert (Hn0 : In n0 (nodes_of (graph_of cd))).
  { apply graph_nodes. left. rewrite En. now left. }
  destruct (build_graph_cases cd) as [[E0 _]|[[_ E]|[Hnc _]]];
    [rewrite E0 in Hn0; destruct Hn0| |contradiction].
  destruct (select_tree_eq (graph_of cd) (c_branches cd))
    as (twigs & links & Hsel & Hlen & Hperm & Htw).
  pose proof (twigs_size cd Hids) as Ht. rewrite <- Htw in Ht.
  pose proof (T_size cd Hids Hconn n0 Hn0) as HT.
  assert (Hlt : length (nodes_of (graph_of cd)) < length (c_nodes cd)).
  { destruct (Nat.lt_ge_cases (length (nodes_of (graph_of cd)))
                              (length (c_nodes cd))) as [H|H];
      [assumption|].
    exfalso. apply Hdup.
    apply (@NoDup_incl_NoDup _ (nodes_of (graph_of cd))); [|assumption|].
    - apply so_nodes, structure_ok_graph_of.
    - intros x Hx. apply graph_nodes in Hx.
      destruct Hx as [Hx|(b & Hb & [<-|<-])]; [assumption| |];
        now apply Hdecl. }
  destruct (get_incidence_matrix_Ok (c_nodes cd) (twigs ++ links)
              (assign_weights (graph_of cd)) Hne)
    as (A_red & A_full & ref & Hinc & HAwf & HAr & HAc).
  { intros b Hb. apply Hdecl. eapply Permutation_in; eauto. }
  assert (Hcut : get_cutset_matrix A_red (length twigs) (length links)
                 = Ok (None,
                       Some (mkError "error"
                               (singular_message
                                  "Last 2 dimensions of the array must be square")))).
  { unfold get_cutset_matrix, linalg_inv. cbn [nrows ncols cols_to].
    replace (Nat.eqb (nrows A_red)
                     (Nat.min (length twigs) (ncols A_red))) with false;
      [reflexivity|].
    symmetry. apply Nat.eqb_neq. lia. }
  unfold solve, solve_circuit. rewrite E. cbn [enter tbind].
  rewrite Hsel. cbn [enter tbind]. rewrite Hinc. cbn [enter tbind].
  rewrite Hcut. reflexivity.
Qed.
End DuplicateNode.

Lemma duplicate_node_singular_witness :
  assemble twice_declared
  = ([GraphBuilder; TreeSelector; IncidenceMatrix; CutsetMatrix],
     Ok (Failure
           (mkError "error"
              (singular_message
                 "Last 2 dimensions of the array must be square")))).
Proof.
  apply duplicate_node_singular.
  - unfold unique_ids. repeat constructor. simpl. tauto.
  - intros b [<-|[]]. simpl. auto.
  - assert (H : forall z, is_node twice_declared z ->
                          connected_by (c_branches twice_declared) "0" z).
    { assert (H1 : connected_by (c_branches twice_declared) "0" "1").
      { apply (conn_step _ "0" "0" "1" (mkBranch "R1" "1" "0" "R" (q 10 1)));
          [constructor|simpl; auto|right; split; reflexivity]. }
      intros z [Hz|(b & Hb & Hz)].
      - simpl in Hz. destruct Hz as [<-|[<-|[<-|[]]]];
          [constructor|assumption|assumption].
      - simpl in Hb. destruct Hb as [<-|[]]. simpl in Hz.
        destruct Hz as [<-|<-]; [assumption|constructor]. }
    intros x y Hx Hy. apply connected_by_trans with "0";
      [apply connected_by_sym|]; now apply H.
  - intros H. simpl in H. inversion H as [|? ? _ H2]; subst.
    inversion H2 as [|? ? H3 _]; subst. apply H3. now left.
Defined.
